(** * Crossword CSP solver ([generate.py]): model and verified properties

    The development embeds [CrosswordCreator] of [generate.py]:
    node consistency, arc revision, AC-3, the assignment predicates, the two
    ordering heuristics and the backtracking search.

    Modelling conventions.
    - A Python [dict] is an association list in insertion order (Python
      dictionaries iterate in insertion order, and the stable sorts of the
      heuristics make that order observable).  Keys are unique in every
      dictionary the program builds.
    - A Python [set] of words is a list without repetition; the list order
      stands for the iteration order of the set, which Python leaves
      unspecified: the theorems are stated for every list, and removing
      words keeps the others in their order.
    - A raised exception is an explicit outcome [Raise e].
    - Methods that mutate [self.domains] or the assignment return the new
      mapping next to their outcome. *)

From Stdlib Require Import List String Ascii Arith Bool Lia PeanoNat Sorted.
From Stdlib Require Import Permutation.
Import ListNotations.

Set Implicit Arguments.

(* ================================================================== *)
(** * Outcomes of Python calls *)

Inductive exn : Type := IndexError | KeyError | TypeError | ValueError.

Inductive result (A : Type) : Type :=
| Ok (a : A)
| Raise (e : exn).

Arguments Ok {A} a.
Arguments Raise {A} e.

Definition bind {A B : Type} (m : result A) (k : A -> result B) : result B :=
  match m with
  | Ok a => k a
  | Raise e => Raise e
  end.

Notation "x <- m ;; k" := (bind m (fun x => k))
  (at level 61, m at next level, right associativity).

(** [s[k]] on a string, for a non-negative index. *)
Definition index (s : string) (k : nat) : result ascii :=
  match String.get k s with
  | Some ch => Ok ch
  | None => Raise IndexError
  end.

(* ================================================================== *)
(** * Dictionaries in insertion order *)

Module Dict.
Section Ops.
Variables K V : Type.
Variable eq_dec : forall a b : K, {a = b} + {a <> b}.

(** [d[k]]; [None] stands for the [KeyError]. *)
Fixpoint get (k : K) (d : list (K * V)) : option V :=
  match d with
  | [] => None
  | (k', v) :: rest => if eq_dec k k' then Some v else get k rest
  end.

(** [k in d] *)
Definition mem (k : K) (d : list (K * V)) : bool :=
  match get k d with
  | Some _ => true
  | None => false
  end.

(** [d[k] = v]: an existing key keeps its place, a new key goes last. *)
Fixpoint set (k : K) (v : V) (d : list (K * V)) : list (K * V) :=
  match d with
  | [] => [(k, v)]
  | (k', v') :: rest =>
      if eq_dec k k' then (k', v) :: rest else (k', v') :: set k v rest
  end.

(** The mapping left by [d.pop(k)]. *)
Fixpoint remove (k : K) (d : list (K * V)) : list (K * V) :=
  match d with
  | [] => []
  | (k', v') :: rest =>
      if eq_dec k k' then rest else (k', v') :: remove k rest
  end.

(** [d.pop(k)]: [None] stands for the [KeyError]. *)
Definition pop (k : K) (d : list (K * V)) : option (list (K * V)) :=
  if mem k d then Some (remove k d) else None.

Definition keys (d : list (K * V)) : list K := map fst d.
Definition values (d : list (K * V)) : list V := map snd d.
End Ops.
End Dict.

(* ================================================================== *)
(** * Sets of words *)

Definition word_in (w : string) (s : list string) : bool :=
  existsb (String.eqb w) s.

(** [s - t] *)
Definition set_diff (s t : list string) : list string :=
  filter (fun w => negb (word_in w t)) s.

(** [s.remove(w)] for a word [w] of [s] (the only use takes [w] from a
    copy of [s], so the [KeyError] of an absent word does not arise). *)
Definition set_remove (w : string) (s : list string) : list string :=
  set_diff s [w].

(* ================================================================== *)
(** * The structural model *)

(** Modelled from the spec: the class [Variable] is declared in
    [crossword.py], which is not among the sources at hand.  Section 3 of
    the specification gives a variable as a start row, a start column, a
    direction (one of two axes) and a length, compared by value;
    [generate.py] reads the fields [i], [j], [direction] and [length] and
    the constants [Variable.ACROSS] and [Variable.DOWN]. *)
Inductive Direction : Type := ACROSS | DOWN.

Module Var.
Record t : Type := mk
  { i : nat; j : nat; direction : Direction; length : nat }.

Definition eq_dec (a b : t) : {a = b} + {a <> b}.
Proof.
  decide equality; try apply Nat.eq_dec.
  decide equality.
Defined.

Definition eqb (a b : t) : bool := if eq_dec a b then true else false.
End Var.

(** An arc is an ordered pair of variables. *)
Abbreviation arc := (Var.t * Var.t)%type.

Definition arc_eq_dec (a b : arc) : {a = b} + {a <> b}.
Proof. decide equality; apply Var.eq_dec. Defined.

(** Modelled from the spec: the class [Crossword] is declared in
    [crossword.py] as well.  The record keeps what the solver reads
    (sections 3 and 6 of the specification): the variables, the
    vocabulary, and the [overlaps] dictionary from ordered pairs of
    variables to [None] or a pair of offsets.  The grid itself ([width],
    [height], [structure]) is read by the rendering code only. *)
Record Crossword : Type := mkCrossword
  { variables : list Var.t;
    words : list string;
    overlaps : list (arc * option (nat * nat)) }.

Definition overlap (c : Crossword) (x y : Var.t) : option (option (nat * nat)) :=
  Dict.get arc_eq_dec (x, y) (overlaps c).

(** Modelled from the spec: [Crossword.neighbors] lives in [crossword.py],
    which is not part of the sources at hand.  Section 6 of the
    specification gives it as "the set of variables overlapping [v]", where
    two variables overlap when their overlap is a pair of offsets. *)
Definition neighbors (c : Crossword) (var : Var.t) : list Var.t :=
  filter (fun v => match overlap c v var with
                   | Some (Some _) => true
                   | _ => false
                   end) (variables c).

Definition Domains : Type := list (Var.t * list string).
Definition Assignment : Type := list (Var.t * string).

Definition domain (doms : Domains) (v : Var.t) : option (list string) :=
  Dict.get Var.eq_dec v doms.

(** [__init__]: every variable starts from its own copy of the vocabulary. *)
Definition init_domains (c : Crossword) : Domains :=
  map (fun var => (var, words c)) (variables c).

(* ================================================================== *)
(** * Node consistency *)

(** The inner loop of [enforce_node_consistency]: walk a copy of the
    domain, remove every word of the wrong length from the domain itself. *)
Definition node_filter (var : Var.t) (d : list string) : list string :=
  fold_left (fun s word =>
               if negb (String.length word =? Var.length var)
               then set_remove word s
               else s) d d.

(** [enforce_node_consistency]: the outer loop visits every key of
    [self.domains] once and rewrites that key's set in place. *)
Definition enforce_node_consistency (doms : Domains) : Domains :=
  map (fun '(var, d) => (var, node_filter var d)) doms.

(* ================================================================== *)
(** * Arc revision *)

(** [all(x_word[x_index] != y_word[y_index] for y_word in y_words)]:
    stops at the first agreeing word, indexes may raise. *)
Fixpoint all_differ (x_word : string) (x_index y_index : nat)
         (y_words : list string) : result bool :=
  match y_words with
  | [] => Ok true
  | y_word :: rest =>
      a <- index x_word x_index ;;
      b <- index y_word y_index ;;
      if Ascii.eqb a b then Ok false
      else all_differ x_word x_index y_index rest
  end.

(** The [for x_word in self.domains[x]] loop: collects [removed_x_words]. *)
Fixpoint revise_scan (doms : Domains) (y : Var.t) (x_index y_index : nat)
         (x_words : list string) : result (list string) :=
  match x_words with
  | [] => Ok []
  | x_word :: rest =>
      match domain doms y with
      | None => Raise KeyError
      | Some dy =>
          b <- all_differ x_word x_index y_index (set_diff dy [x_word]) ;;
          removed <- revise_scan doms y x_index y_index rest ;;
          Ok (if b then x_word :: removed else removed)
      end
  end.

Definition revise (c : Crossword) (x y : Var.t) (doms : Domains)
  : result bool * Domains :=
  match overlap c x y with
  | None => (Raise KeyError, doms)
  | Some None => (Ok false, doms)
  | Some (Some (x_index, y_index)) =>
      match domain doms x with
      | None => (Raise KeyError, doms)
      | Some dx =>
          match revise_scan doms y x_index y_index dx with
          | Raise e => (Raise e, doms)
          | Ok removed_x_words =>
              (Ok (negb (List.length removed_x_words =? 0)),
               Dict.set Var.eq_dec x (set_diff dx removed_x_words) doms)
          end
      end
  end.

(* ================================================================== *)
(** * AC-3 *)

(** The worklist.  The Python list [arcs] is used as a stack ([pop()] takes
    its last element, [append] adds after it); the model keeps the stack
    with its top first, so a Python list [l] is the stack [rev l]. *)
Definition push_neighbours (c : Crossword) (x y : Var.t) (stack : list arc)
  : list arc :=
  fold_left (fun st x_neighbours => (x_neighbours, x) :: st)
            (filter (fun n => negb (Var.eqb n y)) (neighbors c x)) stack.

(** The [while arcs] loop; [None] only when [fuel] iterations were not
    enough (see [ac3_fuel] and [ac3_terminates]). *)
Fixpoint ac3_loop (fuel : nat) (c : Crossword) (stack : list arc)
         (doms : Domains) : option (result bool * Domains) :=
  match stack with
  | [] => Some (Ok true, doms)
  | (x, y) :: rest =>
      match fuel with
      | 0 => None
      | S fuel' =>
          match revise c x y doms with
          | (Raise e, doms') => Some (Raise e, doms')
          | (Ok false, doms') => ac3_loop fuel' c rest doms'
          | (Ok true, doms') =>
              match domain doms' x with
              | None => Some (Raise KeyError, doms')
              | Some [] => Some (Ok false, doms')
              | Some (_ :: _) =>
                  ac3_loop fuel' c (push_neighbours c x y rest) doms'
              end
          end
      end
  end.

Definition total_size (doms : Domains) : nat :=
  fold_right (fun p n => List.length (snd p) + n) 0 doms.

(** A number of iterations the loop never exceeds: a revision that changes
    a domain removes a word and pushes at most one arc per variable. *)
Definition ac3_fuel (c : Crossword) (stack : list arc) (doms : Domains) : nat :=
  S (List.length stack + total_size doms * S (List.length (variables c))).

(** [ac3(arcs)]; [arcs = None] is the call without an argument. *)
Definition ac3 (c : Crossword) (arcs : option (list arc)) (doms : Domains)
  : option (result bool * Domains) :=
  match arcs with
  | Some [] => Some (Ok true, doms)
  | Some l => ac3_loop (ac3_fuel c (rev l) doms) c (rev l) doms
  | None =>
      let l := Dict.keys (overlaps c) in
      ac3_loop (ac3_fuel c (rev l) doms) c (rev l) doms
  end.

(* ================================================================== *)
(** * Assignment predicates *)

Definition assignment_complete (doms : Domains) (a : Assignment) : bool :=
  forallb (fun variable => Dict.mem Var.eq_dec variable a) (Dict.keys doms)
  && forallb (fun '(_, value) => negb (String.eqb value EmptyString)) a.

(** The innermost loop of [consistent]; [Ok false] is the [return False]. *)
Fixpoint check_neighbours (c : Crossword) (a : Assignment)
         (variable : Var.t) (value : string) (ns : list Var.t) : result bool :=
  match ns with
  | [] => Ok true
  | neighbour :: rest =>
      match Dict.get Var.eq_dec neighbour a with
      | None => check_neighbours c a variable value rest
      | Some neighbour_value =>
          match overlap c variable neighbour with
          | None => Raise KeyError
          | Some None => Raise TypeError
          | Some (Some (variable_index, neighbour_index)) =>
              p <- index value variable_index ;;
              q <- index neighbour_value neighbour_index ;;
              if Ascii.eqb p q
              then check_neighbours c a variable value rest
              else Ok false
          end
      end
  end.

Fixpoint check_items (c : Crossword) (a : Assignment)
         (items : list (Var.t * string)) : result bool :=
  match items with
  | [] => Ok true
  | (variable, value) :: rest =>
      ok <- check_neighbours c a variable value (neighbors c variable) ;;
      if ok then check_items c a rest else Ok false
  end.

Definition consistent (c : Crossword) (a : Assignment) : result bool :=
  let values := Dict.values a in
  if negb (List.length (nodup string_dec values) =? List.length values)
  then Ok false
  else if negb (forallb (fun '(variable, value) =>
                           Var.length variable =? String.length value) a)
  then Ok false
  else check_items c a a.

(* ================================================================== *)
(** * Sorting *)

(** [sorted(l, key=key)] is stable, so it is the list a stable insertion
    sort returns; [sorted(l, key=key, reverse=True)] keeps elements with
    equal keys in their original order as well. *)
Fixpoint insert_by {A : Type} (key : A -> nat) (x : A) (l : list A) : list A :=
  match l with
  | [] => [x]
  | h :: t => if key x <=? key h then x :: l else h :: insert_by key x t
  end.

Definition sorted_by {A : Type} (key : A -> nat) (l : list A) : list A :=
  fold_right (insert_by key) [] l.

Fixpoint insert_by_desc {A : Type} (key : A -> nat) (x : A) (l : list A)
  : list A :=
  match l with
  | [] => [x]
  | h :: t => if key h <=? key x then x :: l else h :: insert_by_desc key x t
  end.

Definition sorted_by_desc {A : Type} (key : A -> nat) (l : list A) : list A :=
  fold_right (insert_by_desc key) [] l.

(* ================================================================== *)
(** * Heuristics *)

(** The neighbour loop of [order_domain_values] for one [value]. *)
Fixpoint count_eliminations (c : Crossword) (doms : Domains) (a : Assignment)
         (var : Var.t) (value : string) (ns : list Var.t) (count : nat)
  : result nat :=
  match ns with
  | [] => Ok count
  | neighbor :: rest =>
      if Dict.mem Var.eq_dec neighbor a then
        match domain doms neighbor with
        | None => Raise KeyError
        | Some dn =>
            let count' := if word_in value dn then S count else count in
            match overlap c var neighbor with
            | None => Raise KeyError
            | Some None => Raise TypeError
            | Some (Some _) =>
                count_eliminations c doms a var value rest count'
            end
        end
      else count_eliminations c doms a var value rest count
  end.

(** Builds [domain_values_with_elimination_count], in insertion order. *)
Fixpoint elimination_counts (c : Crossword) (doms : Domains) (a : Assignment)
         (var : Var.t) (domain_values : list string)
  : result (list (string * nat)) :=
  match domain_values with
  | [] => Ok []
  | value :: rest =>
      n <- count_eliminations c doms a var value (neighbors c var) 0 ;;
      counts <- elimination_counts c doms a var rest ;;
      Ok ((value, n) :: counts)
  end.

(** The sort keys [item[1]] of [sorted(d, key=lambda item: item[1])]:
    iterating the dictionary yields its keys, the words, so [item[1]] is
    the second character of a word. *)
Fixpoint sort_keys (items : list string) : result (list (string * nat)) :=
  match items with
  | [] => Ok []
  | item :: rest =>
      ch <- index item 1 ;;
      keyed <- sort_keys rest ;;
      Ok ((item, nat_of_ascii ch) :: keyed)
  end.

Definition order_domain_values (c : Crossword) (doms : Domains)
           (var : Var.t) (a : Assignment) : result (list string) :=
  match domain doms var with
  | None => Raise KeyError
  | Some domain_values =>
      counts <- elimination_counts c doms a var domain_values ;;
      keyed <- sort_keys (Dict.keys counts) ;;
      Ok (map fst (sorted_by snd keyed))
  end.

Definition degree (c : Crossword) (item : Var.t) : nat :=
  List.length (neighbors c item).

Definition select_unassigned_variable (c : Crossword) (doms : Domains)
           (a : Assignment) : result Var.t :=
  if List.length doms <=? List.length a then Raise ValueError
  else
    let var_with_domain_values :=
      map (fun '(var, d) => (var, List.length d))
          (filter (fun '(var, _) => negb (Dict.mem Var.eq_dec var a)) doms) in
    match var_with_domain_values with
    | [] => Raise ValueError
    | [(var, _)] => Ok var
    | _ =>
        let sorted_var_with_domain_values :=
          sorted_by snd var_with_domain_values in
        match sorted_var_with_domain_values with
        | [] => Raise IndexError
        | (_, min_domain_value) :: _ =>
            let min_domain_value_vars :=
              map fst (filter (fun p => snd p =? min_domain_value)
                              sorted_var_with_domain_values) in
            match sorted_by_desc (degree c) min_domain_value_vars with
            | [] => Raise IndexError
            | v :: _ => Ok v
            end
        end
    end.

(* ================================================================== *)
(** * Backtracking search *)

(** What a call of [backtrack] leaves: its outcome, the assignment
    dictionary as the call left it (the dictionary is shared by all
    activations and mutated in place), and the log of the activations of
    [backtrack] the call made, itself first: the assignment each of them
    was entered with. *)
Definition search : Type :=
  (result (option Assignment) * Assignment * list Assignment)%type.

Definition truthy (r : Assignment) : bool :=
  match r with
  | [] => false
  | _ :: _ => true
  end.

(** The [for value in ...] loop of [backtrack]; [rec] is the recursive
    call, [log] the activations made so far. *)
Fixpoint try_values (rec : Assignment -> option search) (c : Crossword)
         (var : Var.t) (values : list string) (a : Assignment) (log : list Assignment)
  : option search :=
  match values with
  | [] => Some (Ok None, a, log)
  | value :: rest =>
      let a1 := Dict.set Var.eq_dec var value a in
      match consistent c a1 with
      | Raise e => Some (Raise e, a1, log)
      | Ok false =>
          match Dict.pop Var.eq_dec var a1 with
          | None => Some (Raise KeyError, a1, log)
          | Some a2 => try_values rec c var rest a2 log
          end
      | Ok true =>
          match rec a1 with
          | None => None
          | Some (Raise e, a2, t) => Some (Raise e, a2, log ++ t)
          | Some (Ok (Some r), a2, t) =>
              if truthy r then Some (Ok (Some r), a2, log ++ t)
              else
                match Dict.pop Var.eq_dec var a2 with
                | None => Some (Raise KeyError, a2, log ++ t)
                | Some a3 => try_values rec c var rest a3 (log ++ t)
                end
          | Some (Ok None, a2, t) =>
              match Dict.pop Var.eq_dec var a2 with
              | None => Some (Raise KeyError, a2, log ++ t)
              | Some a3 => try_values rec c var rest a3 (log ++ t)
              end
          end
      end
  end.

(** [backtrack]; [None] only when the recursion is deeper than [fuel]. *)
Fixpoint backtrack_fuel (fuel : nat) (c : Crossword) (doms : Domains)
         (a : Assignment) : option search :=
  match fuel with
  | 0 => None
  | S fuel' =>
      if assignment_complete doms a then Some (Ok (Some a), a, [a])
      else
        match select_unassigned_variable c doms a with
        | Raise e => Some (Raise e, a, [a])
        | Ok var =>
            match order_domain_values c doms var a with
            | Raise e => Some (Raise e, a, [a])
            | Ok values =>
                try_values (backtrack_fuel fuel' c doms) c var values a [a]
            end
        end
  end.

(** Every nested activation binds one more key of [self.domains]. *)
Definition backtrack (c : Crossword) (doms : Domains) (a : Assignment)
  : option search :=
  backtrack_fuel (S (List.length doms)) c doms a.

(** [solve]: outcome, the domains it leaves, and the log of the
    activations of [backtrack]. *)
Definition solve (c : Crossword) (doms : Domains)
  : option (result (option Assignment) * Domains * list Assignment) :=
  let doms1 := enforce_node_consistency doms in
  match ac3 c None doms1 with
  | None => None
  | Some (Raise e, doms2) => Some (Raise e, doms2, [])
  | Some (Ok _, doms2) =>
      match backtrack c doms2 [] with
      | None => None
      | Some (out, _, log) => Some (out, doms2, log)
      end
  end.

(* ================================================================== *)
(** * Well-formed inputs *)

Definition mem_var (v : Var.t) (l : list Var.t) : bool :=
  existsb (Var.eqb v) l.

(** No key occurs twice (the invariant of a Python dictionary). *)
Fixpoint unique (l : list Var.t) : bool :=
  match l with
  | [] => true
  | v :: rest => negb (mem_var v rest) && unique rest
  end.

(** The contract of the structural model (specification, section 3): an
    overlap relates two different variables of the crossword, and the
    overlap of [(y, x)] is the overlap of [(x, y)] with its offsets
    swapped. *)
Definition wf_entry (c : Crossword) (k : arc) : bool :=
  let '(x, y) := k in
  match overlap c x y with
  | Some (Some (a, b)) =>
      negb (Var.eqb x y) && mem_var x (variables c) &&
      match overlap c y x with
      | Some (Some (b', a')) => (a =? a') && (b =? b')
      | _ => false
      end
  | _ => true
  end.

Definition wf_crossword (c : Crossword) : bool :=
  forallb (wf_entry c) (Dict.keys (overlaps c)).

(** Every variable of the crossword has a domain. *)
Definition covers (c : Crossword) (doms : Domains) : bool :=
  forallb (fun v => Dict.mem Var.eq_dec v doms) (variables c).

(* ================================================================== *)
(** * Vocabulary of the statements *)

(** No operation adds a word: every domain after is included in the
    domain the same variable had before. *)
Definition shrinks (doms doms' : Domains) : Prop :=
  forall v d', domain doms' v = Some d' ->
               exists d, domain doms v = Some d /\ incl d' d.

Definition right_length (var : Var.t) (w : string) : bool :=
  String.length w =? Var.length var.

(** The letter of [w] at [ix] is the letter of [w'] at [iy]. *)
Definition agree (ix iy : nat) (w w' : string) : Prop :=
  exists ch, String.get ix w = Some ch /\ String.get iy w' = Some ch.

(** [w'] is a word other than [w] that agrees with it at the overlap. *)
Definition supports (ix iy : nat) (w w' : string) : Prop :=
  w' <> w /\ agree ix iy w w'.

(** [revise] puts [w] among [removed_x_words]. *)
Definition removable (dy : list string) (ix iy : nat) (w : string) : bool :=
  match all_differ w ix iy (set_diff dy [w]) with
  | Ok true => true
  | _ => false
  end.

(** Revising [a] against [b] would run without an error and remove
    nothing. *)
Definition settled (c : Crossword) (doms : Domains) (a b : Var.t) : Prop :=
  match overlap c a b with
  | None => False
  | Some None => True
  | Some (Some (ia, ib)) =>
      exists da, domain doms a = Some da /\
                 revise_scan doms b ia ib da = Ok []
  end.

Definition supported (ix iy : nat) (dy : list string) (w : string) : Prop :=
  exists w', In w' dy /\ supports ix iy w w'.

Definition agreeb (ix iy : nat) (w w' : string) : bool :=
  match String.get ix w, String.get iy w' with
  | Some p, Some q => Ascii.eqb p q
  | _, _ => false
  end.

Definition supportsb (ix iy : nat) (w w' : string) : bool :=
  negb (String.eqb w' w) && agreeb ix iy w w'.

Definition supportedb (ix iy : nat) (dy : list string) (w : string) : bool :=
  existsb (supportsb ix iy w) dy.

(** What the specification says of [revise(x, y)], for the domains [doms]. *)
Definition revise_as_stated (c : Crossword) (doms : Domains) (x y : Var.t)
  : Prop :=
  forall dx dy, domain doms x = Some dx -> domain doms y = Some dy ->
  match overlap c x y with
  | Some (Some (ix, iy)) =>
      exists b doms' dx',
        revise c x y doms = (Ok b, doms') /\
        domain doms' x = Some dx' /\
        (forall w, In w dx' <-> In w dx /\ supported ix iy dy w) /\
        domain doms' y = Some dy /\
        (b = true <-> exists w, In w dx /\ ~ In w dx')
  | Some None => revise c x y doms = (Ok false, doms)
  | None => True
  end.

(** What the specification says of [solve] after a failed propagation:
    "no solution", and no activation of the search. *)
Definition solve_short_circuits (c : Crossword) (doms : Domains) : Prop :=
  forall doms2,
    ac3 c None (enforce_node_consistency doms) = Some (Ok false, doms2) ->
    solve c doms = Some (Ok None, doms2, []).

(** What an activation of [backtrack] on the assignment [a] leaves:
    after a failure the assignment is [a] again; a solution is the shared
    dictionary itself, extends [a], is complete, and passed [consistent]
    when its last binding was made. *)
Definition search_ok (c : Crossword) (doms : Domains) (a : Assignment)
           (s : search) : Prop :=
  match s with
  | (Ok None, a', _) => a' = a
  | (Ok (Some r), a', _) =>
      r = a' /\
      exists ext, a' = a ++ ext /\
                  assignment_complete doms a' = true /\
                  (ext = [] \/ consistent c a' = Ok true)
  | (Raise _, _, _) => True
  end.

(** The number of entries of the domain store not yet assigned. *)
Definition unassigned_count (doms : Domains) (a : Assignment) : nat :=
  List.length
    (filter (fun '(var, _) => negb (Dict.mem Var.eq_dec var a)) doms).

Definition size_of (doms : Domains) (v : Var.t) : nat :=
  match domain doms v with
  | Some d => List.length d
  | None => 0
  end.

(* ================================================================== *)
(** * Rendering: [letter_grid] *)

(** The two-dimensional array [letters]: rows of cells, a cell is [None]
    or a character. *)
Definition Grid : Type := list (list (option ascii)).

(** [[None for _ in range(width)] for _ in range(height)] *)
Definition blank_grid (height width : nat) : Grid :=
  repeat (repeat None width) height.

(** [l[n] = x] for [n] within the list. *)
Fixpoint list_set {A : Type} (n : nat) (x : A) (l : list A) : list A :=
  match l, n with
  | [], _ => []
  | _ :: t, 0 => x :: t
  | h :: t, S n' => h :: list_set n' x t
  end.

(** [letters[i][j] = ch]; either index may be out of range. *)
Definition set_cell (letters : Grid) (i j : nat) (ch : ascii) : result Grid :=
  match nth_error letters i with
  | None => Raise IndexError
  | Some row =>
      if j <? List.length row
      then Ok (list_set i (list_set j (Some ch) row) letters)
      else Raise IndexError
  end.

(** The cell of the [k]-th letter of a variable. *)
Definition cell_of (variable : Var.t) (k : nat) : nat * nat :=
  (Var.i variable + match Var.direction variable with
                    | DOWN => k
                    | ACROSS => 0
                    end,
   Var.j variable + match Var.direction variable with
                    | ACROSS => k
                    | DOWN => 0
                    end).

(** The loop [for k in range(len(word))], over the indices still to do. *)
Fixpoint write_word (variable : Var.t) (word : string) (ks : list nat)
         (letters : Grid) : result Grid :=
  match ks with
  | [] => Ok letters
  | k :: rest =>
      ch <- index word k ;;
      letters' <- set_cell letters (fst (cell_of variable k))
                           (snd (cell_of variable k)) ch ;;
      write_word variable word rest letters'
  end.

(** The loop [for variable, word in assignment.items()]. *)
Fixpoint write_items (items : list (Var.t * string)) (letters : Grid)
  : result Grid :=
  match items with
  | [] => Ok letters
  | (variable, word) :: rest =>
      letters' <- write_word variable word (seq 0 (String.length word))
                             letters ;;
      write_items rest letters'
  end.

(** [letter_grid]; [height] and [width] are those of [self.crossword]. *)
Definition letter_grid (height width : nat) (a : Assignment) : result Grid :=
  write_items a (blank_grid height width).

(** [letters[i][j]] of a grid that has the cell. *)
Definition cell (letters : Grid) (i j : nat) : option (option ascii) :=
  match nth_error letters i with
  | None => None
  | Some row => nth_error row j
  end.

(** The binding of [variable] to [word] puts [ch] on the cell [(i, j)]. *)
Definition covers_cell (variable : Var.t) (word : string) (i j : nat)
           (ch : ascii) : Prop :=
  exists k, String.get k word = Some ch /\ cell_of variable k = (i, j).

(** A grid of [height] rows of [width] cells. *)
Definition shaped (height width : nat) (letters : Grid) : Prop :=
  List.length letters = height
  /\ Forall (fun row => List.length row = width) letters.

(** Every letter of every bound word has a cell in the grid. *)
Definition fits (height width : nat) (a : Assignment) : Prop :=
  forall variable word k,
    In (variable, word) a -> k < String.length word ->
    fst (cell_of variable k) < height /\ snd (cell_of variable k) < width.

(** The grid holds letters on the cells [written] names, and each letter
    it holds is one that was written there. *)
Definition grid_inv (height width : nat)
           (written : nat -> nat -> ascii -> Prop) (letters : Grid) : Prop :=
  shaped height width letters
  /\ (forall i j ch, cell letters i j = Some (Some ch) -> written i j ch)
  /\ (forall i j ch, written i j ch ->
                     exists ch', cell letters i j = Some (Some ch')).

(* ================================================================== *)
(** * Solutions of the puzzle *)

(** Every offset of an overlap is a position of its variable. *)
Definition offsets_in_range (c : Crossword) : bool :=
  forallb (fun '(x, y) =>
             match overlap c x y with
             | Some (Some (a, b)) =>
                 (a <? Var.length x) && (b <? Var.length y)
             | _ => true
             end) (Dict.keys (overlaps c)).

(** Every variable of the store has two cells at least. *)
Definition long_variables (doms : Domains) : bool :=
  forallb (fun v => 2 <=? Var.length v) (Dict.keys doms).

(** Every word of every domain has the length of its variable. *)
Definition node_consistent (doms : Domains) : Prop :=
  forall v d w, domain doms v = Some d -> In w d ->
                String.length w = Var.length v.

(** [s] binds each variable of the store to a word of its domain, of the
    length of the variable; different variables have different words, and
    the words of two overlapping variables agree at the offsets. *)
Definition solution (c : Crossword) (doms : Domains) (s : Assignment) : Prop :=
  (forall v d, domain doms v = Some d ->
               exists w, Dict.get Var.eq_dec v s = Some w /\ In w d)
  /\ (forall x y w, Dict.get Var.eq_dec x s = Some w ->
                    Dict.get Var.eq_dec y s = Some w -> x = y)
  /\ (forall x w, Dict.get Var.eq_dec x s = Some w ->
                  String.length w = Var.length x)
  /\ (forall x y ix iy wx wy,
         overlap c x y = Some (Some (ix, iy)) ->
         Dict.get Var.eq_dec x s = Some wx ->
         Dict.get Var.eq_dec y s = Some wy -> agree ix iy wx wy).

(** In a returned assignment every key is bound once, and a binding the
    activation on [a] added gives the variable a word of its domain. *)
Definition search_sound (doms : Domains) (a : Assignment) (s : search)
  : Prop :=
  match s with
  | (Ok (Some r), _, _) =>
      NoDup (Dict.keys r)
      /\ forall v w, In (v, w) r ->
                     In (v, w) a
                     \/ exists d, domain doms v = Some d /\ In w d
  | _ => True
  end.

(** The assignments the search works on: no key twice, keys of the
    store only, no empty word. *)
Definition searched (doms : Domains) (a : Assignment) : Prop :=
  NoDup (Dict.keys a)
  /\ incl (Dict.keys a) (Dict.keys doms)
  /\ forall v w, In (v, w) a -> w <> EmptyString.

(** [s] keeps every binding of [a]. *)
Definition extends (a s : Assignment) : Prop :=
  forall v w, Dict.get Var.eq_dec v a = Some w ->
              Dict.get Var.eq_dec v s = Some w.

(** The sort key [order_domain_values] uses: the second character. *)
Definition second_letter (w : string) : nat :=
  match String.get 1 w with
  | Some ch => nat_of_ascii ch
  | None => 0
  end.

(* ================================================================== *)
(** * Sample puzzles *)

Module Samples.
Open Scope string_scope.

Definition vx : Var.t := Var.mk 0 0 ACROSS 3.
Definition vy : Var.t := Var.mk 0 0 DOWN 3.

(** Two slots of length 3 that share their first cell. *)
Definition corner (ws : list string) : Crossword :=
  mkCrossword [vx; vy] ws
              [((vx, vy), Some (0, 0)); ((vy, vx), Some (0, 0))].

Definition va : Var.t := Var.mk 0 0 ACROSS 3.
Definition vb : Var.t := Var.mk 2 0 ACROSS 3.

(** Two parallel slots of length 3 that do not meet. *)
Definition parallel (ws : list string) : Crossword :=
  mkCrossword [va; vb] ws [((va, vb), None); ((vb, va), None)].

Definition vt : Var.t := Var.mk 0 0 ACROSS 3.
Definition vd : Var.t := Var.mk 0 1 DOWN 3.

(** An across slot crossed at its second cell by the top of a down slot. *)
Definition tee (ws : list string) : Crossword :=
  mkCrossword [vt; vd] ws
              [((vt, vd), Some (1, 0)); ((vd, vt), Some (0, 1))].

Definition v1 : Var.t := Var.mk 0 0 ACROSS 1.

(** A single slot of one cell. *)
Definition single (ws : list string) : Crossword :=
  mkCrossword [v1] ws [].

(** The stores and the solution the runs below end with. *)
Definition corner2 : Crossword := corner ["CAT"; "DOG"].
Definition corner2_failed : Domains := [(vx, ["CAT"; "DOG"]); (vy, [])].

Definition corner3 : Crossword := corner ["CAT"; "COG"; "DOG"].
Definition corner3_node : Domains :=
  [(vx, ["CAT"; "COG"; "DOG"]); (vy, ["CAT"; "COG"; "DOG"])].
Definition corner3_arc : Domains :=
  [(vx, ["CAT"; "COG"]); (vy, ["CAT"; "COG"])].
Definition corner3_solution : Assignment := [(vx, "CAT"); (vy, "COG")].

Definition tee3 : Crossword := tee ["CAT"; "ARM"; "DOG"].
Definition tee3_node : Domains :=
  [(vt, ["CAT"; "ARM"; "DOG"]); (vd, ["CAT"; "ARM"; "DOG"])].
Definition tee3_revised : Domains :=
  [(vt, ["CAT"]); (vd, ["CAT"; "ARM"; "DOG"])].

Definition single1 : Crossword := single ["A"].
Definition single1_node : Domains := [(v1, ["A"])].

Definition parallel1 : Crossword := parallel ["CAT"].
Definition parallel1_node : Domains := [(va, ["CAT"]); (vb, ["CAT"])].

(** A U of three slots: two down slots joined at their last cell by an
    across slot, and a fourth slot apart from them.  The across slot has
    two neighbours, each down slot one, the slot apart none. *)
Definition ul : Var.t := Var.mk 0 0 DOWN 3.
Definition ub : Var.t := Var.mk 2 0 ACROSS 3.
Definition ur : Var.t := Var.mk 0 2 DOWN 3.
Definition uz : Var.t := Var.mk 4 0 ACROSS 3.

Definition ushape : Crossword :=
  mkCrossword [uz; ul; ub; ur]
              ["DOG"; "CAT"; "COT"; "TAG"; "TOG"; "BAG"; "BIG"; "BUG"]
              [((ul, ub), Some (2, 0)); ((ub, ul), Some (0, 2));
               ((ur, ub), Some (2, 2)); ((ub, ur), Some (2, 2));
               ((ul, ur), None); ((ur, ul), None);
               ((uz, ul), None); ((ul, uz), None);
               ((uz, ub), None); ((ub, uz), None);
               ((uz, ur), None); ((ur, uz), None)].

(** A store in which the slot apart has the smallest domain and is
    assigned, the left and the across slot have two words each, and the
    right slot three. *)
Definition ushape_store : Domains :=
  [(uz, ["DOG"]); (ul, ["CAT"; "COT"]); (ub, ["TAG"; "TOG"]);
   (ur, ["BAG"; "BIG"; "BUG"])].
Definition ushape_partial : Assignment := [(uz, "DOG")].

(** A single slot of three cells. *)
Definition lone (ws : list string) : Crossword :=
  mkCrossword [va] ws [].

(** The letters of [corner3_solution] on a grid of 3 by 3. *)
Definition corner3_grid : Grid :=
  [[Some "C"; Some "A"; Some "T"];
   [Some "O"; None; None];
   [Some "G"; None; None]]%char.

End Samples.

(* ================================================================== *)
(** * Properties *)

Unset Implicit Arguments.

(** ** Dictionaries *)

Section DictFacts.
Variables K V : Type.
Variable eq_dec : forall a b : K, {a = b} + {a <> b}.
Implicit Types (k : K) (v : V) (d : list (K * V)).

Lemma get_set_same k v d : Dict.get eq_dec k (Dict.set eq_dec k v d) = Some v.
Proof.
  induction d as [|[k' v'] rest IH]; simpl.
  - destruct (eq_dec k k); congruence.
  - destruct (eq_dec k k') as [E|N]; simpl.
    + destruct (eq_dec k k'); congruence.
    + destruct (eq_dec k k'); congruence.
Qed.

Lemma get_set_other k k' v d :
  k' <> k -> Dict.get eq_dec k' (Dict.set eq_dec k v d) = Dict.get eq_dec k' d.
Proof.
  intros N. induction d as [|[k0 v0] rest IH]; simpl.
  - destruct (eq_dec k' k); congruence.
  - destruct (eq_dec k k0) as [E|N0]; simpl.
    + subst. destruct (eq_dec k' k0); congruence.
    + destruct (eq_dec k' k0); congruence.
Qed.

Lemma set_get_id k v d : Dict.get eq_dec k d = Some v -> Dict.set eq_dec k v d = d.
Proof.
  induction d as [|[k' v'] rest IH]; simpl; intros H.
  - discriminate.
  - destruct (eq_dec k k').
    + congruence.
    + rewrite IH; auto.
Qed.

Lemma keys_set_present k v v0 d :
  Dict.get eq_dec k d = Some v0 ->
  Dict.keys (Dict.set eq_dec k v d) = Dict.keys d.
Proof.
  unfold Dict.keys.
  induction d as [|[k' v'] rest IH]; simpl; intros H.
  - discriminate.
  - destruct (eq_dec k k'); simpl.
    + reflexivity.
    + rewrite IH; auto.
Qed.

Lemma set_fresh k v d :
  Dict.get eq_dec k d = None -> Dict.set eq_dec k v d = d ++ [(k, v)].
Proof.
  induction d as [|[k' v'] rest IH]; simpl; intros H.
  - reflexivity.
  - destruct (eq_dec k k').
    + discriminate.
    + rewrite IH; auto.
Qed.

Lemma pop_fresh k v d :
  Dict.get eq_dec k d = None ->
  Dict.pop eq_dec k (d ++ [(k, v)]) = Some d.
Proof.
  intros H. unfold Dict.pop, Dict.mem.
  assert (G : Dict.get eq_dec k (d ++ [(k, v)]) = Some v).
  { rewrite <- (set_fresh _ v _ H). apply get_set_same. }
  rewrite G. f_equal.
  induction d as [|[k' v'] rest IH]; simpl in *.
  - destruct (eq_dec k k); congruence.
  - destruct (eq_dec k k').
    + discriminate.
    + rewrite IH; auto.
Qed.

Lemma get_In k v d : Dict.get eq_dec k d = Some v -> In (k, v) d.
Proof.
  induction d as [|[k' v'] rest IH]; simpl; intros H.
  - discriminate.
  - destruct (eq_dec k k').
    + left. congruence.
    + right. auto.
Qed.

Lemma get_None_keys k d :
  Dict.get eq_dec k d = None <-> ~ In k (Dict.keys d).
Proof.
  unfold Dict.keys.
  induction d as [|[k' v'] rest IH]; simpl.
  - tauto.
  - destruct (eq_dec k k') as [E|N].
    + split; [discriminate | intros H; exfalso; apply H; auto].
    + rewrite IH. split; intros H.
      * intros [E|I]; [congruence | tauto].
      * tauto.
Qed.

Lemma get_Some_keys k d :
  In k (Dict.keys d) <-> exists v, Dict.get eq_dec k d = Some v.
Proof.
  destruct (Dict.get eq_dec k d) as [v|] eqn:G.
  - split; [eauto|]. intros _.
    apply get_In in G. unfold Dict.keys.
    change k with (fst (k, v)). now apply in_map.
  - apply get_None_keys in G. split; [tauto|]. intros [v Hv]. discriminate.
Qed.

Lemma In_get_unique k v d :
  NoDup (Dict.keys d) -> In (k, v) d -> Dict.get eq_dec k d = Some v.
Proof.
  unfold Dict.keys.
  induction d as [|[k' v'] rest IH]; simpl; intros ND H.
  - contradiction.
  - inversion ND as [|? ? NI ND']; subst.
    destruct H as [E|I].
    + inversion E; subst. destruct (eq_dec k k); congruence.
    + destruct (eq_dec k k') as [E|N].
      * subst. exfalso. apply NI.
        change k' with (fst (k', v)). now apply in_map.
      * auto.
Qed.

Lemma mem_true_iff k d :
  Dict.mem eq_dec k d = true <-> In k (Dict.keys d).
Proof.
  unfold Dict.mem. rewrite get_Some_keys.
  destruct (Dict.get eq_dec k d); split; intros H; eauto; try discriminate.
  destruct H; discriminate.
Qed.

Lemma mem_false_iff k d :
  Dict.mem eq_dec k d = false <-> Dict.get eq_dec k d = None.
Proof.
  unfold Dict.mem. destruct (Dict.get eq_dec k d); split; congruence.
Qed.

End DictFacts.

(** ** Sets of words and variables *)

Lemma word_in_iff w s : word_in w s = true <-> In w s.
Proof.
  unfold word_in. rewrite existsb_exists. split.
  - intros [u [I E]]. apply String.eqb_eq in E. now subst.
  - intros I. exists w. split; [assumption | apply String.eqb_refl].
Qed.

Lemma set_diff_In w s t : In w (set_diff s t) <-> In w s /\ ~ In w t.
Proof.
  unfold set_diff. rewrite filter_In, negb_true_iff.
  rewrite <- (word_in_iff w t).
  destruct (word_in w t); intuition congruence.
Qed.

Lemma set_diff_nil s : set_diff s [] = s.
Proof.
  unfold set_diff. induction s as [|w s IH]; simpl; [reflexivity | f_equal; exact IH].
Qed.

Lemma set_diff_incl s t : incl (set_diff s t) s.
Proof. intros w H. now apply set_diff_In in H. Qed.

Lemma Var_eqb_eq a b : Var.eqb a b = true <-> a = b.
Proof. unfold Var.eqb. destruct (Var.eq_dec a b); split; congruence. Qed.

Lemma Var_eqb_neq a b : Var.eqb a b = false <-> a <> b.
Proof. unfold Var.eqb. destruct (Var.eq_dec a b); split; congruence. Qed.

Lemma mem_var_iff v l : mem_var v l = true <-> In v l.
Proof.
  unfold mem_var. rewrite existsb_exists. split.
  - intros [u [I E]]. apply Var_eqb_eq in E. now subst.
  - intros I. exists v. split; [assumption | now apply Var_eqb_eq].
Qed.

Lemma unique_NoDup l : unique l = true -> NoDup l.
Proof.
  induction l as [|v l IH]; simpl; intros H.
  - constructor.
  - apply andb_true_iff in H. destruct H as [H1 H2].
    constructor; auto.
    rewrite <- mem_var_iff. now destruct (mem_var v l).
Qed.

Lemma filter_length_le {A : Type} (f : A -> bool) (l : list A) :
  List.length (filter f l) <= List.length l.
Proof.
  induction l as [|a l IH]; simpl; [lia|].
  destruct (f a); simpl; lia.
Qed.

Lemma filter_length_lt {A : Type} (f : A -> bool) (l : list A) (a : A) :
  In a l -> f a = false -> List.length (filter f l) < List.length l.
Proof.
  induction l as [|h l IH]; simpl; intros I F.
  - contradiction.
  - destruct I as [E|I].
    + subst. rewrite F. pose proof (filter_length_le f l). lia.
    + specialize (IH I F). destruct (f h); simpl; lia.
Qed.

Lemma filter_true_id {A : Type} (f : A -> bool) (l : list A) :
  (forall a, In a l -> f a = true) -> filter f l = l.
Proof.
  induction l as [|h l IH]; simpl; intros H; [reflexivity|].
  rewrite (H h) by auto. f_equal. apply IH. auto.
Qed.

(** ** Node consistency *)

Lemma filter_twice {A : Type} (f g : A -> bool) (l : list A) :
  filter f (filter g l) = filter (fun a => g a && f a) l.
Proof.
  induction l as [|a l IH]; simpl; [reflexivity|].
  destruct (g a); simpl; [destruct (f a)|]; now rewrite IH.
Qed.

Lemma node_filter_fold var l s :
  fold_left (fun s word =>
               if negb (String.length word =? Var.length var)
               then set_remove word s else s) l s
  = filter (fun u => right_length var u || negb (word_in u l)) s.
Proof.
  revert s. induction l as [|w l IH]; intros s; simpl.
  - symmetry. apply filter_true_id. intros a _. apply orb_true_r.
  - rewrite IH. unfold right_length.
    destruct (String.length w =? Var.length var) eqn:L; simpl.
    + apply filter_ext. intros u.
      destruct (String.eqb u w) eqn:E; simpl; [|reflexivity].
      apply String.eqb_eq in E. subst. now rewrite L.
    + unfold set_remove, set_diff. rewrite filter_twice.
      apply filter_ext. intros u. simpl.
      destruct (String.eqb u w) eqn:E; simpl.
      * apply String.eqb_eq in E. subst. rewrite L. reflexivity.
      * reflexivity.
Qed.

Lemma node_filter_spec var d : node_filter var d = filter (right_length var) d.
Proof.
  unfold node_filter. rewrite node_filter_fold.
  apply filter_ext_in. intros u I.
  apply word_in_iff in I. rewrite I. simpl. apply orb_false_r.
Qed.

Lemma domain_enforce doms v :
  domain (enforce_node_consistency doms) v
  = option_map (filter (right_length v)) (domain doms v).
Proof.
  unfold domain, enforce_node_consistency.
  induction doms as [|[var d] rest IH]; simpl; [reflexivity|].
  destruct (Var.eq_dec v var) as [E|N].
  - subst. simpl. now rewrite node_filter_spec.
  - exact IH.
Qed.

Lemma keys_enforce doms :
  Dict.keys (enforce_node_consistency doms) = Dict.keys doms.
Proof.
  unfold Dict.keys, enforce_node_consistency. rewrite map_map.
  apply map_ext. now intros [var d].
Qed.

Lemma enforce_twice doms :
  enforce_node_consistency (enforce_node_consistency doms)
  = enforce_node_consistency doms.
Proof.
  unfold enforce_node_consistency. rewrite map_map.
  apply map_ext. intros [var d]. f_equal.
  rewrite !node_filter_spec. rewrite filter_twice.
  apply filter_ext. intros u. now destruct (right_length var u).
Qed.

Lemma enforce_shrinks doms : shrinks doms (enforce_node_consistency doms).
Proof.
  intros v d' H. rewrite domain_enforce in H.
  destruct (domain doms v) as [d|]; simpl in H; [|discriminate].
  exists d. split; [reflexivity|].
  inversion H; subst. intros w I. now apply filter_In in I.
Qed.

(** C5.  After [enforce_node_consistency], the domain of every variable
    [v] is exactly its previous domain restricted to the words whose
    length is [v.length]: a word stays if and only if it was there and has
    the right length, and no variable gains or loses its entry. *)
Theorem enforce_node_consistency_exact (doms : Domains) (v : Var.t) :
  match domain doms v with
  | Some d =>
      exists d', domain (enforce_node_consistency doms) v = Some d' /\
                 d' = filter (fun w => String.length w =? Var.length v) d /\
                 forall w, In w d' <->
                           In w d /\ String.length w = Var.length v
  | None => domain (enforce_node_consistency doms) v = None
  end.
Proof.
  rewrite domain_enforce.
  destruct (domain doms v) as [d|]; simpl; [|reflexivity].
  eexists. split; [reflexivity|]. split; [reflexivity|].
  intros w. rewrite filter_In. unfold right_length.
  now rewrite Nat.eqb_eq.
Qed.

(** ** Arc revision *)

Lemma index_Ok s k ch : index s k = Ok ch <-> String.get k s = Some ch.
Proof. unfold index. destruct (String.get k s); split; congruence. Qed.

Lemma get_in_range s k : k < String.length s -> exists ch, String.get k s = Some ch.
Proof.
  revert k. induction s as [|a s IH]; simpl; intros k H; [lia|].
  destruct k as [|k]; [eauto|]. apply IH. lia.
Qed.

Lemma agree_sym ix iy w w' : agree ix iy w w' -> agree iy ix w' w.
Proof. intros [ch [H1 H2]]. exists ch. auto. Qed.

Lemma all_differ_false w ix iy l :
  all_differ w ix iy l = Ok false -> exists w', In w' l /\ agree ix iy w w'.
Proof.
  induction l as [|h l IH]; simpl; intros H; [discriminate|].
  destruct (index w ix) as [p|] eqn:P; simpl in H; [|discriminate].
  destruct (index h iy) as [q|] eqn:Q; simpl in H; [|discriminate].
  destruct (Ascii.eqb p q) eqn:E.
  - apply Ascii.eqb_eq in E. subst. exists h. split; [now left|].
    exists q. now rewrite <- !index_Ok.
  - destruct (IH H) as [w' [I A]]. exists w'. split; [now right | assumption].
Qed.

Lemma all_differ_true w ix iy l :
  all_differ w ix iy l = Ok true -> forall w', In w' l -> ~ agree ix iy w w'.
Proof.
  induction l as [|h l IH]; simpl; intros H w' I; [contradiction|].
  destruct (index w ix) as [p|] eqn:P; simpl in H; [|discriminate].
  destruct (index h iy) as [q|] eqn:Q; simpl in H; [|discriminate].
  destruct (Ascii.eqb p q) eqn:E; [discriminate|].
  destruct I as [->|I]; [|now apply IH].
  intros [ch [G1 G2]]. apply index_Ok in P, Q.
  rewrite P in G1. rewrite Q in G2. inversion G1; inversion G2; subst.
  rewrite Ascii.eqb_refl in E. discriminate.
Qed.

(** Dropping words that do not agree keeps a successful scan successful:
    the scan stops at the first agreeing word, which is kept. *)
Lemma all_differ_filter w ix iy (keep : string -> bool) l :
  all_differ w ix iy l = Ok false ->
  (forall m, In m l -> agree ix iy w m -> keep m = true) ->
  all_differ w ix iy (filter keep l) = Ok false.
Proof.
  induction l as [|h l IH]; simpl; intros H K; [discriminate|].
  destruct (index w ix) as [p|] eqn:P; simpl in H; [|discriminate].
  destruct (index h iy) as [q|] eqn:Q; simpl in H; [|discriminate].
  destruct (Ascii.eqb p q) eqn:E.
  - rewrite (K h); [|now left|].
    + simpl. rewrite P, Q. simpl. now rewrite E.
    + apply Ascii.eqb_eq in E. subst. exists q. now rewrite <- !index_Ok.
  - assert (R : all_differ w ix iy (filter keep l) = Ok false)
      by (apply IH; auto).
    destruct (keep h); [|exact R].
    simpl. rewrite P, Q. simpl. now rewrite E.
Qed.

Lemma all_differ_in_range w ix iy l :
  ix < String.length w ->
  (forall w', In w' l -> iy < String.length w') ->
  all_differ w ix iy l = Ok (negb (existsb (agreeb ix iy w) l)).
Proof.
  intros Hx. destruct (get_in_range _ _ Hx) as [p P].
  induction l as [|h l IH]; simpl; intros Hy; [reflexivity|].
  destruct (get_in_range h iy) as [q Q]; [apply Hy; now left|].
  assert (A : agreeb ix iy w h = Ascii.eqb p q)
    by (unfold agreeb; now rewrite P, Q).
  rewrite A. unfold index. rewrite P. simpl. rewrite Q. simpl.
  destruct (Ascii.eqb p q); [reflexivity|].
  simpl. apply IH. auto.
Qed.

Lemma revise_scan_ext doms doms' y ix iy l :
  domain doms' y = domain doms y ->
  revise_scan doms' y ix iy l = revise_scan doms y ix iy l.
Proof.
  intros E. induction l as [|w l IH]; simpl; [reflexivity|].
  rewrite E, IH. reflexivity.
Qed.

Lemma revise_scan_Ok doms y dy ix iy l removed :
  domain doms y = Some dy ->
  revise_scan doms y ix iy l = Ok removed ->
  (forall w, In w l -> exists b, all_differ w ix iy (set_diff dy [w]) = Ok b)
  /\ removed = filter (removable dy ix iy) l.
Proof.
  intros D. revert removed.
  induction l as [|w l IH]; simpl; intros removed H.
  - inversion H. split; [contradiction | reflexivity].
  - rewrite D in H. unfold removable at 1.
    destruct (all_differ w ix iy (set_diff dy [w])) as [b|] eqn:A;
      simpl in H; [|discriminate].
    destruct (revise_scan doms y ix iy l) as [r|]; simpl in H; [|discriminate].
    destruct (IH r eq_refl) as [IH1 IH2].
    inversion H; subst. split.
    + intros u [->|I]; eauto.
    + now destruct b.
Qed.

Lemma revise_scan_settled doms y dy ix iy l :
  domain doms y = Some dy ->
  (forall w, In w l -> all_differ w ix iy (set_diff dy [w]) = Ok false) ->
  revise_scan doms y ix iy l = Ok [].
Proof.
  intros D. induction l as [|w l IH]; simpl; intros H; [reflexivity|].
  rewrite D, (H w) by now left. simpl.
  rewrite IH by auto. reflexivity.
Qed.

Lemma revise_scan_nil_inv doms y ix iy l w :
  revise_scan doms y ix iy l = Ok [] -> In w l ->
  exists dy, domain doms y = Some dy /\
             forall u, In u l -> all_differ u ix iy (set_diff dy [u]) = Ok false.
Proof.
  intros H I. destruct (domain doms y) as [dy|] eqn:D.
  - exists dy. split; [reflexivity|].
    destruct (revise_scan_Ok _ _ _ _ _ _ _ D H) as [H1 H2].
    intros u Iu. destruct (H1 u Iu) as [b Hb].
    destruct b; [|assumption].
    assert (Iu' : In u (filter (removable dy ix iy) l)).
    { apply filter_In. split; [assumption|]. unfold removable. now rewrite Hb. }
    rewrite <- H2 in Iu'. contradiction.
  - destruct l; [contradiction|]. simpl in H. rewrite D in H. discriminate.
Qed.

Lemma revise_scan_incl doms y ix iy l removed :
  revise_scan doms y ix iy l = Ok removed -> incl removed l.
Proof.
  revert removed. induction l as [|w l IH]; simpl; intros removed H.
  - inversion H. intros u I. contradiction.
  - destruct (domain doms y) as [dy|]; [|discriminate].
    destruct (all_differ w ix iy (set_diff dy [w])) as [b|]; simpl in H;
      [|discriminate].
    destruct (revise_scan doms y ix iy l) as [r|]; simpl in H; [|discriminate].
    specialize (IH r eq_refl). inversion H; subst.
    destruct b; intros u I.
    + destruct I as [->|I]; [now left | right; now apply IH].
    + right. now apply IH.
Qed.

Lemma length_zero_nil {A : Type} (l : list A) :
  (List.length l =? 0) = true <-> l = [].
Proof. destruct l; simpl; split; congruence. Qed.

Lemma settled_revise c doms a b :
  settled c doms a b -> revise c a b doms = (Ok false, doms).
Proof.
  unfold settled, revise.
  destruct (overlap c a b) as [[[ia ib]|]|]; try tauto.
  intros [da [D S]]. rewrite D, S. simpl.
  rewrite set_diff_nil. now rewrite set_get_id.
Qed.

Lemma revise_false_inv c doms doms' a b :
  revise c a b doms = (Ok false, doms') -> settled c doms a b /\ doms' = doms.
Proof.
  unfold settled, revise.
  destruct (overlap c a b) as [[[ia ib]|]|]; try (intros H; inversion H; tauto).
  destruct (domain doms a) as [da|] eqn:D; [|discriminate].
  destruct (revise_scan doms b ia ib da) as [removed|] eqn:S; [|discriminate].
  intros H. inversion H as [[B E]].
  apply negb_false_iff, length_zero_nil in B. subst removed.
  rewrite set_diff_nil. split.
  - now exists da.
  - apply set_get_id. exact D.
Qed.

Lemma revise_true_inv c doms doms' x y :
  revise c x y doms = (Ok true, doms') ->
  exists ix iy dx dy,
    overlap c x y = Some (Some (ix, iy)) /\
    domain doms x = Some dx /\
    domain doms y = Some dy /\
    (forall w, In w dx ->
               exists b, all_differ w ix iy (set_diff dy [w]) = Ok b) /\
    filter (removable dy ix iy) dx <> [] /\
    doms' = Dict.set Var.eq_dec x
                     (set_diff dx (filter (removable dy ix iy) dx)) doms.
Proof.
  unfold revise.
  destruct (overlap c x y) as [[[ix iy]|]|]; try discriminate.
  destruct (domain doms x) as [dx|] eqn:D; [|discriminate].
  destruct (revise_scan doms y ix iy dx) as [removed|] eqn:S; [|discriminate].
  intros H. inversion H as [[B E]].
  apply negb_true_iff in B.
  assert (NE : removed <> []).
  { intros N. apply length_zero_nil in N. congruence. }
  destruct removed as [|r removed]; [congruence|].
  assert (I : In r dx).
  { apply (revise_scan_incl _ _ _ _ _ _ S). now left. }
  destruct (domain doms y) as [dy|] eqn:Dy.
  - destruct (revise_scan_Ok _ _ _ _ _ _ _ Dy S) as [H1 H2].
    exists ix, iy, dx, dy. rewrite <- H2. repeat split; auto.
  - destruct dx; [contradiction|]. simpl in S. rewrite Dy in S. discriminate.
Qed.

Lemma revise_raise_inv c doms doms' x y e :
  revise c x y doms = (Raise e, doms') -> doms' = doms.
Proof.
  unfold revise.
  destruct (overlap c x y) as [[[ix iy]|]|]; try (intros H; now inversion H).
  destruct (domain doms x) as [dx|]; [|intros H; now inversion H].
  destruct (revise_scan doms y ix iy dx); intros H; now inversion H.
Qed.

Lemma shrinks_refl doms : shrinks doms doms.
Proof. intros v d H. exists d. split; [assumption | apply incl_refl]. Qed.

Lemma shrinks_trans d1 d2 d3 : shrinks d1 d2 -> shrinks d2 d3 -> shrinks d1 d3.
Proof.
  intros H12 H23 v d H.
  destruct (H23 v d H) as [d' [G I]].
  destruct (H12 v d' G) as [d'' [G' I']].
  exists d''. split; [assumption|]. eapply incl_tran; eauto.
Qed.

Lemma shrinks_set doms x dx dx' :
  domain doms x = Some dx -> incl dx' dx ->
  shrinks doms (Dict.set Var.eq_dec x dx' doms).
Proof.
  intros D I v d H. unfold domain in *.
  destruct (Var.eq_dec v x) as [->|N].
  - rewrite get_set_same in H. inversion H; subst. eauto.
  - rewrite get_set_other in H by assumption.
    exists d. split; [assumption | apply incl_refl].
Qed.

Lemma revise_shrinks c x y doms : shrinks doms (snd (revise c x y doms)).
Proof.
  destruct (revise c x y doms) as [[[|]|e] doms'] eqn:R; simpl.
  - destruct (revise_true_inv _ _ _ _ _ R)
      as (ix & iy & dx & dy & _ & D & _ & _ & _ & ->).
    apply shrinks_set with dx; [assumption | apply set_diff_incl].
  - apply revise_false_inv in R. destruct R as [_ ->]. apply shrinks_refl.
  - apply revise_raise_inv in R. subst. apply shrinks_refl.
Qed.

Lemma revise_keys c x y doms :
  Dict.keys (snd (revise c x y doms)) = Dict.keys doms.
Proof.
  destruct (revise c x y doms) as [[[|]|e] doms'] eqn:R; simpl.
  - destruct (revise_true_inv _ _ _ _ _ R)
      as (ix & iy & dx & dy & _ & D & _ & _ & _ & ->).
    eapply keys_set_present. exact D.
  - apply revise_false_inv in R. now destruct R as [_ ->].
  - apply revise_raise_inv in R. now subst.
Qed.

Lemma total_size_set doms x dx dx' :
  domain doms x = Some dx ->
  total_size (Dict.set Var.eq_dec x dx' doms) + List.length dx
  = total_size doms + List.length dx'.
Proof.
  unfold domain.
  induction doms as [|[v d] rest IH]; simpl; intros H; [discriminate|].
  destruct (Var.eq_dec x v).
  - inversion H; subst. simpl. lia.
  - simpl. specialize (IH H). lia.
Qed.

Lemma revise_true_size c doms doms' x y :
  revise c x y doms = (Ok true, doms') -> total_size doms' < total_size doms.
Proof.
  intros R.
  destruct (revise_true_inv _ _ _ _ _ R)
    as (ix & iy & dx & dy & _ & D & _ & _ & NE & ->).
  pose proof (total_size_set doms x dx
                (set_diff dx (filter (removable dy ix iy) dx)) D) as T.
  enough (List.length (set_diff dx (filter (removable dy ix iy) dx))
          < List.length dx) by lia.
  destruct (filter (removable dy ix iy) dx) as [|r removed] eqn:F;
    [congruence|].
  assert (I : In r dx).
  { assert (I' : In r (filter (removable dy ix iy) dx))
      by (rewrite F; now left).
    now apply filter_In in I'. }
  unfold set_diff. apply filter_length_lt with r; [assumption|].
  simpl. now rewrite String.eqb_refl.
Qed.

(** ** AC-3: termination and frame *)

Lemma push_neighbours_eq c x y stack :
  push_neighbours c x y stack
  = rev (map (fun n => (n, x))
             (filter (fun n => negb (Var.eqb n y)) (neighbors c x))) ++ stack.
Proof.
  unfold push_neighbours.
  generalize (filter (fun n => negb (Var.eqb n y)) (neighbors c x)).
  intros l. revert stack.
  induction l as [|n l IH]; intros stack; simpl; [reflexivity|].
  rewrite IH, <- app_assoc. reflexivity.
Qed.

Lemma push_neighbours_In c x y stack a :
  In a (push_neighbours c x y stack) <->
  In a stack \/ exists n, a = (n, x) /\ In n (neighbors c x) /\ n <> y.
Proof.
  rewrite push_neighbours_eq, in_app_iff, <- in_rev, in_map_iff.
  split.
  - intros [[n [E I]]|I]; [|now left].
    right. exists n. apply filter_In in I. destruct I as [I N].
    apply negb_true_iff, Var_eqb_neq in N. auto.
  - intros [I|[n [E [I N]]]]; [now right|].
    left. exists n. split; [now symmetry|].
    apply filter_In. split; [assumption|].
    now apply negb_true_iff, Var_eqb_neq.
Qed.

Lemma push_neighbours_length c x y stack :
  List.length (push_neighbours c x y stack)
  <= List.length stack + List.length (variables c).
Proof.
  rewrite push_neighbours_eq, length_app, length_rev, length_map.
  pose proof (filter_length_le (fun n => negb (Var.eqb n y)) (neighbors c x)) as H1.
  assert (H2 : List.length (neighbors c x) <= List.length (variables c))
    by apply filter_length_le.
  lia.
Qed.

Lemma revise_size_le c doms x y :
  total_size (snd (revise c x y doms)) <= total_size doms.
Proof.
  destruct (revise c x y doms) as [[[|]|e] doms'] eqn:R; simpl.
  - apply revise_true_size in R. lia.
  - apply revise_false_inv in R. destruct R as [_ ->]. lia.
  - apply revise_raise_inv in R. subst. lia.
Qed.

Lemma ac3_loop_total c fuel :
  forall stack doms,
    List.length stack + total_size doms * S (List.length (variables c)) < fuel ->
    exists r, ac3_loop fuel c stack doms = Some r.
Proof.
  induction fuel as [|fuel IH]; intros stack doms B; [lia|].
  destruct stack as [|[x y] rest]; simpl; [eauto|].
  destruct (revise c x y doms) as [[[|]|e] doms'] eqn:R.
  - destruct (domain doms' x) as [[|w d]|]; eauto.
    apply IH.
    pose proof (revise_true_size _ _ _ _ _ R).
    pose proof (push_neighbours_length c x y rest).
    simpl in B. nia.
  - apply IH. apply revise_false_inv in R. destruct R as [_ ->].
    simpl in B. lia.
  - eauto.
Qed.

Lemma ac3_terminates c arcs doms : exists r, ac3 c arcs doms = Some r.
Proof.
  unfold ac3. destruct arcs as [[|a l]|]; eauto;
    apply ac3_loop_total; unfold ac3_fuel; lia.
Qed.

Lemma ac3_loop_shrinks c fuel :
  forall stack doms out doms',
    ac3_loop fuel c stack doms = Some (out, doms') ->
    shrinks doms doms' /\ Dict.keys doms' = Dict.keys doms.
Proof.
  induction fuel as [|fuel IH]; intros stack doms out doms' H;
    destruct stack as [|[x y] rest]; simpl in H; try discriminate;
    try (inversion H; subst; split; [apply shrinks_refl | reflexivity]).
  pose proof (revise_shrinks c x y doms) as S.
  pose proof (revise_keys c x y doms) as K.
  destruct (revise c x y doms) as [[[|]|e] d1]; simpl in S, K.
  - destruct (domain d1 x) as [[|w d]|];
      try (inversion H; subst; now split).
    apply IH in H. destruct H as [S' K']. split.
    + eapply shrinks_trans; eauto.
    + congruence.
  - apply IH in H. destruct H as [S' K']. split.
    + eapply shrinks_trans; eauto.
    + congruence.
  - inversion H; subst. now split.
Qed.

Lemma ac3_shrinks c arcs doms out doms' :
  ac3 c arcs doms = Some (out, doms') ->
  shrinks doms doms' /\ Dict.keys doms' = Dict.keys doms.
Proof.
  unfold ac3. destruct arcs as [[|a l]|]; intros H;
    try (eapply ac3_loop_shrinks; exact H).
  inversion H; subst. split; [apply shrinks_refl | reflexivity].
Qed.

(** A revision that empties a domain ends the loop with [False]; no other
    step empties one. *)
Lemma ac3_loop_emptied c fuel :
  forall stack doms out doms',
    ac3_loop fuel c stack doms = Some (out, doms') ->
    (exists v d, domain doms v = Some d /\ d <> [] /\ domain doms' v = Some []) ->
    out = Ok false.
Proof.
  induction fuel as [|fuel IH]; intros stack doms out doms' H E;
    destruct stack as [|[x y] rest]; simpl in H; try discriminate.
  - inversion H; subst. destruct E as (v & d & D & N & D'). congruence.
  - inversion H; subst. destruct E as (v & d & D & N & D'). congruence.
  - destruct E as (v & d & D & N & D').
    destruct (revise c x y doms) as [[[|]|e] d1] eqn:R.
    + destruct (domain d1 x) as [[|w dx1]|] eqn:D1.
      * now inversion H.
      * apply IH in H; [assumption|].
        destruct (Var.eq_dec v x) as [->|NE].
        -- exists x, (w :: dx1). repeat split; [assumption|discriminate|assumption].
        -- exists v, d. repeat split; try assumption.
           destruct (revise_true_inv _ _ _ _ _ R)
             as (ix & iy & dx & dy & _ & _ & _ & _ & _ & ->).
           unfold domain. now rewrite get_set_other.
      * exfalso.
        destruct (revise_true_inv _ _ _ _ _ R)
          as (ix & iy & dx & dy & _ & _ & _ & _ & _ & ->).
        unfold domain in D1. rewrite get_set_same in D1. discriminate.
    + apply revise_false_inv in R. destruct R as [_ ->].
      apply IH in H; [assumption|]. exists v, d. auto.
    + apply revise_raise_inv in R. subst.
      inversion H; subst. congruence.
Qed.

Lemma ac3_loop_false c fuel :
  forall stack doms doms',
    ac3_loop fuel c stack doms = Some (Ok false, doms') ->
    exists x, domain doms' x = Some [].
Proof.
  induction fuel as [|fuel IH]; intros stack doms doms' H;
    destruct stack as [|[x y] rest]; simpl in H; try discriminate.
  destruct (revise c x y doms) as [[[|]|e] d1] eqn:R.
  - destruct (domain d1 x) as [[|w dx1]|] eqn:D1.
    + inversion H; subst. eauto.
    + eapply IH; eauto.
    + discriminate.
  - eapply IH; eauto.
  - discriminate.
Qed.

(** ** The structural contract *)

Lemma wf_overlap c x y a b :
  wf_crossword c = true ->
  overlap c x y = Some (Some (a, b)) ->
  x <> y /\ In x (variables c) /\ overlap c y x = Some (Some (b, a)).
Proof.
  intros WF O. unfold wf_crossword in WF. rewrite forallb_forall in WF.
  assert (I : In (x, y) (Dict.keys (overlaps c))).
  { apply (get_Some_keys _ _ arc_eq_dec). eexists. exact O. }
  specialize (WF _ I). unfold wf_entry in WF. rewrite O in WF.
  apply andb_true_iff in WF. destruct WF as [WF1 WF3].
  apply andb_true_iff in WF1. destruct WF1 as [WF1 WF2].
  apply negb_true_iff, Var_eqb_neq in WF1.
  apply mem_var_iff in WF2.
  destruct (overlap c y x) as [[[b' a']|]|]; try discriminate.
  apply andb_true_iff in WF3. destruct WF3 as [E1 E2].
  apply Nat.eqb_eq in E1, E2. subst. auto.
Qed.

Lemma wf_neighbors c x y :
  wf_crossword c = true ->
  (In y (neighbors c x) <-> exists ix iy, overlap c x y = Some (Some (ix, iy))).
Proof.
  intros WF. unfold neighbors. rewrite filter_In. split.
  - intros [I O].
    destruct (overlap c y x) as [[[iy ix]|]|] eqn:E; try discriminate.
    exists ix, iy. now apply (wf_overlap c y x iy ix WF).
  - intros [ix [iy O]].
    destruct (wf_overlap c x y ix iy WF O) as (_ & _ & O').
    destruct (wf_overlap c y x iy ix WF O') as (_ & I & _).
    rewrite O'. auto.
Qed.

(** ** AC-3: every arc is settled when the loop succeeds *)

Lemma settled_frame c doms doms' a b :
  settled c doms a b ->
  domain doms' a = domain doms a ->
  domain doms' b = domain doms b ->
  settled c doms' a b.
Proof.
  unfold settled. destruct (overlap c a b) as [[[ia ib]|]|]; auto.
  intros [da [D S]] Ea Eb. exists da. split; [congruence|].
  now rewrite (revise_scan_ext doms doms').
Qed.

Lemma revise_scan_nil_sub doms b ia ib l l' :
  revise_scan doms b ia ib l = Ok [] -> incl l' l ->
  revise_scan doms b ia ib l' = Ok [].
Proof.
  intros S I. destruct l' as [|w l'']; [reflexivity|].
  destruct (revise_scan_nil_inv doms b ia ib l w S) as [db [D A]].
  { apply I. now left. }
  apply revise_scan_settled with db; auto.
Qed.

Lemma set_diff_comm s t u : set_diff (set_diff s t) u = set_diff (set_diff s u) t.
Proof.
  unfold set_diff. rewrite !filter_twice. apply filter_ext.
  intros w. apply andb_comm.
Qed.

Section RevisedArc.
Variable c : Crossword.
Hypothesis WF : wf_crossword c = true.
Variables (doms : Domains) (x y : Var.t) (ix iy : nat) (dx dy : list string).
Hypothesis Oxy : overlap c x y = Some (Some (ix, iy)).
Hypothesis Dx : domain doms x = Some dx.
Hypothesis Dy : domain doms y = Some dy.
Hypothesis Scan :
  forall w, In w dx -> exists b, all_differ w ix iy (set_diff dy [w]) = Ok b.

Variables (removed : list string) (doms' : Domains).
Hypothesis Removed : removed = filter (removable dy ix iy) dx.
Hypothesis Revised : doms' = Dict.set Var.eq_dec x (set_diff dx removed) doms.

Lemma revised_x : domain doms' x = Some (set_diff dx removed).
Proof. rewrite Revised. apply get_set_same. Qed.

Lemma revised_other v : v <> x -> domain doms' v = domain doms v.
Proof. intros N. rewrite Revised. now apply get_set_other. Qed.

Lemma revised_kept w :
  In w (set_diff dx removed) ->
  all_differ w ix iy (set_diff dy [w]) = Ok false.
Proof.
  intros I. apply set_diff_In in I. destruct I as [I N].
  destruct (Scan w I) as [[|] A]; [|assumption].
  exfalso. apply N. rewrite Removed. apply filter_In. split; [assumption|].
  unfold removable. now rewrite A.
Qed.

(** The arc just revised is settled. *)
Lemma revised_arc_settled : settled c doms' x y.
Proof.
  destruct (wf_overlap c x y ix iy WF Oxy) as (N & _ & _).
  unfold settled. rewrite Oxy.
  exists (set_diff dx removed). split; [apply revised_x|].
  apply revise_scan_settled with dy.
  - rewrite revised_other; auto.
  - apply revised_kept.
Qed.

(** The opposite arc stays settled: a removed word supported nothing. *)
Lemma opposite_arc_settled : settled c doms y x -> settled c doms' y x.
Proof.
  destruct (wf_overlap c x y ix iy WF Oxy) as (N & _ & Oyx).
  unfold settled. rewrite Oyx.
  intros [da [D S]]. rewrite Dy in D. inversion D; subst da.
  exists dy. split; [rewrite revised_other; auto|].
  apply revise_scan_settled with (set_diff dx removed); [apply revised_x|].
  intros w' I'.
  destruct (revise_scan_nil_inv doms x iy ix dy w' S I') as [dx0 [D0 A]].
  rewrite Dx in D0. inversion D0; subst dx0.
  rewrite set_diff_comm. unfold set_diff at 1.
  apply all_differ_filter; [now apply A|].
  intros m Im Ag. apply negb_true_iff.
  destruct (word_in m removed) eqn:R; [|reflexivity].
  exfalso. apply word_in_iff in R. rewrite Removed in R. apply filter_In in R.
  destruct R as [_ R]. unfold removable in R.
  destruct (all_differ m ix iy (set_diff dy [m])) as [[|]|] eqn:AD;
    try discriminate.
  apply set_diff_In in Im. destruct Im as [Im Nm].
  apply (all_differ_true _ _ _ _ AD w').
  - apply set_diff_In. split; [assumption|].
    simpl. intros [E|[]]. apply Nm. simpl. left. congruence.
  - now apply agree_sym.
Qed.

(** Arcs out of [x] stay settled: fewer words are scanned. *)
Lemma outgoing_arc_settled b : b <> x -> settled c doms x b -> settled c doms' x b.
Proof.
  intros N. unfold settled.
  destruct (overlap c x b) as [[[ia ib]|]|]; auto.
  intros [da [D S]]. rewrite Dx in D. inversion D; subst da.
  exists (set_diff dx removed). split; [apply revised_x|].
  rewrite (revise_scan_ext doms doms') by (apply revised_other; auto).
  apply revise_scan_nil_sub with dx; [assumption | apply set_diff_incl].
Qed.

End RevisedArc.

Section Propagation.
Variable c : Crossword.
Hypothesis WF : wf_crossword c = true.

Lemma ac3_step_true stack doms d1 x y a b :
  revise c x y doms = (Ok true, d1) ->
  In (a, b) ((x, y) :: stack) \/ settled c doms a b ->
  In (a, b) (push_neighbours c x y stack) \/ settled c d1 a b.
Proof.
  intros R H.
  destruct (revise_true_inv _ _ _ _ _ R)
    as (ix & iy & dx & dy & O & Dx & Dy & Scan & _ & E).
  assert (Sxy : settled c d1 x y).
  { eapply (revised_arc_settled c WF doms x y ix iy dx dy);
      try reflexivity; eassumption. }
  destruct H as [[Eq|I]|S].
  - inversion Eq; subst a b. now right.
  - left. apply push_neighbours_In. now left.
  - destruct (overlap c a b) as [[[ia ib]|]|] eqn:Oab.
    + destruct (wf_overlap c a b ia ib WF Oab) as (Nab & Ia & Oba).
      destruct (Var.eq_dec b x) as [->|Nbx].
      * destruct (Var.eq_dec a y) as [->|Nay].
        -- right.
           eapply (opposite_arc_settled c WF doms x y ix iy dx dy);
             try reflexivity; eassumption.
        -- left. apply push_neighbours_In. right.
           exists a. repeat split; auto.
           apply wf_neighbors; eauto.
      * destruct (Var.eq_dec a x) as [->|Nax].
        -- right.
           eapply (outgoing_arc_settled c doms x dx); eassumption.
        -- right. apply settled_frame with doms; auto;
             rewrite E; unfold domain; now apply get_set_other.
    + right. unfold settled. now rewrite Oab.
    + unfold settled in S. now rewrite Oab in S.
Qed.

Lemma ac3_loop_settles fuel :
  forall stack doms doms',
    (forall a b, In (a, b) (Dict.keys (overlaps c)) ->
                 In (a, b) stack \/ settled c doms a b) ->
    ac3_loop fuel c stack doms = Some (Ok true, doms') ->
    forall a b, In (a, b) (Dict.keys (overlaps c)) -> settled c doms' a b.
Proof.
  induction fuel as [|fuel IH]; intros stack doms doms' Inv H;
    destruct stack as [|[x y] rest]; simpl in H; try discriminate.
  - inversion H; subst. intros a b K. destruct (Inv a b K) as [[]|S]; auto.
  - inversion H; subst. intros a b K. destruct (Inv a b K) as [[]|S]; auto.
  - destruct (revise c x y doms) as [[[|]|e] d1] eqn:R.
    + destruct (domain d1 x) as [[|w dx1]|] eqn:D1; try discriminate.
      apply (IH _ _ _ (fun a b K =>
               ac3_step_true rest doms d1 x y a b R (Inv a b K)) H).
    + apply revise_false_inv in R. destruct R as [S ->].
      apply (IH rest doms doms'); [|assumption].
      intros a b K. destruct (Inv a b K) as [[Eq|I]|S']; auto.
      inversion Eq; subst. now right.
    + discriminate.
Qed.

Lemma ac3_loop_settled_run fuel :
  forall stack doms,
    (forall a b, In (a, b) stack -> settled c doms a b) ->
    List.length stack <= fuel ->
    ac3_loop fuel c stack doms = Some (Ok true, doms).
Proof.
  induction fuel as [|fuel IH]; intros stack doms S L;
    destruct stack as [|[x y] rest]; simpl in *; try reflexivity; try lia.
  rewrite (settled_revise c doms x y) by (apply S; now left).
  apply IH; [|lia]. intros a b I. apply S. now right.
Qed.

Lemma ac3_settles doms doms' :
  ac3 c None doms = Some (Ok true, doms') ->
  forall a b, In (a, b) (Dict.keys (overlaps c)) -> settled c doms' a b.
Proof.
  unfold ac3. intros H.
  eapply ac3_loop_settles; [|exact H].
  intros a b K. left. now apply -> in_rev.
Qed.

Lemma ac3_again doms :
  (forall a b, In (a, b) (Dict.keys (overlaps c)) -> settled c doms a b) ->
  ac3 c None doms = Some (Ok true, doms).
Proof.
  intros S. unfold ac3.
  apply ac3_loop_settled_run.
  - intros a b I. apply S. now apply in_rev.
  - unfold ac3_fuel. lia.
Qed.

Lemma settled_supported doms x y ix iy dx w :
  settled c doms x y ->
  overlap c x y = Some (Some (ix, iy)) ->
  domain doms x = Some dx -> In w dx ->
  exists dy, domain doms y = Some dy /\ supported ix iy dy w.
Proof.
  unfold settled. intros S O D I. rewrite O in S.
  destruct S as [da [D' S]]. rewrite D in D'. inversion D'; subst da.
  destruct (revise_scan_nil_inv doms y ix iy dx w S I) as [dy [Dy A]].
  exists dy. split; [assumption|].
  destruct (all_differ_false _ _ _ _ (A w I)) as [w' [I' Ag]].
  apply set_diff_In in I'. destruct I' as [I' N].
  exists w'. split; [assumption|]. split; [|assumption].
  intros E. apply N. simpl. now left.
Qed.

End Propagation.

(** C4.  When [ac3()] returns [True] on a well-formed crossword, every
    word [w] left in the domain of a variable [x] has, in the domain of
    every neighbour [y] of [x], a word that carries at the offset of [y]
    the letter [w] carries at the offset of [x] (the witness found by
    [revise] is moreover a word other than [w]). *)
Theorem ac3_success_arc_consistent
        (c : Crossword) (doms doms' : Domains)
        (WF : wf_crossword c = true)
        (Run : ac3 c None doms = Some (Ok true, doms')) :
  forall x y dx w,
    In y (neighbors c x) ->
    domain doms' x = Some dx -> In w dx ->
    exists ix iy dy w',
      overlap c x y = Some (Some (ix, iy)) /\
      domain doms' y = Some dy /\ In w' dy /\
      w' <> w /\ agree ix iy w w'.
Proof.
  intros x y dx w N D I.
  apply (wf_neighbors c x y WF) in N. destruct N as [ix [iy O]].
  assert (K : In (x, y) (Dict.keys (overlaps c))).
  { apply (get_Some_keys _ _ arc_eq_dec). eexists. exact O. }
  pose proof (ac3_settles c WF doms doms' Run x y K) as S.
  destruct (settled_supported c doms' x y ix iy dx w S O D I)
    as [dy [Dy [w' [I' [N' A]]]]].
  exists ix, iy, dy, w'. auto.
Qed.

(** C10.  Node consistency is idempotent: a second run straight after a
    first one leaves every domain as it is.  Arc consistency too: on a
    well-formed crossword, when [ac3()] has returned [True], a second
    [ac3()] on the resulting domains returns [True] and changes none. *)
Theorem consistency_idempotent (c : Crossword) (doms : Domains) :
  enforce_node_consistency (enforce_node_consistency doms)
  = enforce_node_consistency doms
  /\ (wf_crossword c = true ->
      forall doms', ac3 c None doms = Some (Ok true, doms') ->
                    ac3 c None doms' = Some (Ok true, doms')).
Proof.
  split; [apply enforce_twice|].
  intros WF doms' Run.
  apply ac3_again. apply (ac3_settles c WF doms doms' Run).
Qed.

(** C9.  Domains only shrink.  Whatever [enforce_node_consistency()],
    [revise(x, y)] or [ac3(arcs)] does (the last one always ends), each
    variable keeps its entry and the words of its domain afterwards were
    all in its domain before; this holds even for a call that raises. *)
Theorem domains_only_shrink (c : Crossword) (doms : Domains) :
  (shrinks doms (enforce_node_consistency doms)
   /\ Dict.keys (enforce_node_consistency doms) = Dict.keys doms)
  /\ (forall x y, shrinks doms (snd (revise c x y doms))
                  /\ Dict.keys (snd (revise c x y doms)) = Dict.keys doms)
  /\ (forall arcs, exists out doms',
         ac3 c arcs doms = Some (out, doms')
         /\ shrinks doms doms' /\ Dict.keys doms' = Dict.keys doms).
Proof.
  split; [|split].
  - split; [apply enforce_shrinks | apply keys_enforce].
  - intros x y. split; [apply revise_shrinks | apply revise_keys].
  - intros arcs. destruct (ac3_terminates c arcs doms) as [[out doms'] H].
    exists out, doms'. split; [assumption|]. now apply ac3_shrinks in H.
Qed.

(** ** Arc revision on words that reach the offsets *)

Lemma existsb_filter {A : Type} (f g : A -> bool) (l : list A) :
  existsb f (filter g l) = existsb (fun a => g a && f a) l.
Proof.
  induction l as [|a l IH]; simpl; [reflexivity|].
  destruct (g a); simpl; now rewrite IH.
Qed.

Lemma existsb_same {A : Type} (f g : A -> bool) (l : list A) :
  (forall a, f a = g a) -> existsb f l = existsb g l.
Proof.
  intros E. induction l as [|a l IH]; simpl; [reflexivity|].
  now rewrite E, IH.
Qed.

Lemma agreeb_iff ix iy w w' : agreeb ix iy w w' = true <-> agree ix iy w w'.
Proof.
  unfold agreeb, agree. split.
  - destruct (String.get ix w) as [p|]; [|discriminate].
    destruct (String.get iy w') as [q|]; [|discriminate].
    intros E. apply Ascii.eqb_eq in E. subst. eauto.
  - intros [ch [-> ->]]. apply Ascii.eqb_refl.
Qed.

Lemma supportedb_iff ix iy dy w :
  supportedb ix iy dy w = true <-> supported ix iy dy w.
Proof.
  unfold supportedb, supported, supports, supportsb.
  rewrite existsb_exists. split.
  - intros [w' [I H]]. apply andb_true_iff in H. destruct H as [N A].
    exists w'. split; [assumption|]. split.
    + apply negb_true_iff, String.eqb_neq in N. exact N.
    + now apply agreeb_iff.
  - intros [w' [I [N A]]]. exists w'. split; [assumption|].
    apply andb_true_iff. split.
    + now apply negb_true_iff, String.eqb_neq.
    + now apply agreeb_iff.
Qed.

Lemma removable_in_range ix iy dy w :
  ix < String.length w ->
  (forall w', In w' dy -> iy < String.length w') ->
  all_differ w ix iy (set_diff dy [w]) = Ok (negb (supportedb ix iy dy w)).
Proof.
  intros Hx Hy. rewrite all_differ_in_range; auto.
  - unfold set_diff, supportedb. rewrite existsb_filter.
    do 2 f_equal. apply existsb_same. intros u.
    unfold supportsb. simpl. now rewrite orb_false_r.
  - intros w' I. apply Hy. now apply set_diff_In in I.
Qed.

Lemma revise_scan_total doms y dy ix iy l :
  domain doms y = Some dy ->
  (forall w, In w l -> exists b, all_differ w ix iy (set_diff dy [w]) = Ok b) ->
  revise_scan doms y ix iy l = Ok (filter (removable dy ix iy) l).
Proof.
  intros D. induction l as [|w l IH]; simpl; intros H; [reflexivity|].
  rewrite D. destruct (H w) as [b A]; [now left|].
  unfold removable at 1. rewrite A. simpl.
  rewrite IH by auto. simpl. now destruct b.
Qed.

Lemma filter_nil_iff {A : Type} (f : A -> bool) (l : list A) :
  filter f l = [] <-> forall a, In a l -> f a = false.
Proof.
  induction l as [|h l IH]; simpl.
  - split; [intros _ a [] | reflexivity].
  - destruct (f h) eqn:F.
    + split; [discriminate|]. intros H. specialize (H h (or_introl eq_refl)).
      congruence.
    + rewrite IH. split.
      * intros H a [->|I]; auto.
      * intros H a I. apply H. now right.
Qed.

(** C3, as amended.  For two different variables with a domain each:
    without an overlap [revise(x, y)] changes nothing and returns
    [False]; with offsets [(ix, iy)], and provided every word of [x]'s
    domain has a letter at [ix] and every word of [y]'s domain a letter at
    [iy] (as after node consistency), it removes from [x]'s domain exactly
    the words no other word of [y]'s domain agrees with, leaves every
    other domain as it was, and returns [True] exactly when a word was
    removed. *)
Theorem revise_exact
        (c : Crossword) (doms : Domains) (x y : Var.t) (dx dy : list string)
        (Nxy : x <> y)
        (Dx : domain doms x = Some dx) (Dy : domain doms y = Some dy) :
  (overlap c x y = Some None -> revise c x y doms = (Ok false, doms))
  /\ (forall ix iy,
         overlap c x y = Some (Some (ix, iy)) ->
         (forall w, In w dx -> ix < String.length w) ->
         (forall w', In w' dy -> iy < String.length w') ->
         exists b doms' dx',
           revise c x y doms = (Ok b, doms') /\
           domain doms' x = Some dx' /\
           (forall w, In w dx' <-> In w dx /\ supported ix iy dy w) /\
           domain doms' y = Some dy /\
           (forall v, v <> x -> domain doms' v = domain doms v) /\
           (b = true <-> exists w, In w dx /\ ~ In w dx')).
Proof.
  split.
  - intros O. unfold revise. now rewrite O.
  - intros ix iy O Hx Hy.
    assert (A : forall w, In w dx ->
                all_differ w ix iy (set_diff dy [w])
                = Ok (negb (supportedb ix iy dy w))).
    { intros w I. apply removable_in_range; auto. }
    assert (S : revise_scan doms y ix iy dx
                = Ok (filter (removable dy ix iy) dx)).
    { apply revise_scan_total; [assumption|]. intros w I. eauto. }
    assert (M : forall w, In w (set_diff dx (filter (removable dy ix iy) dx))
                          <-> In w dx /\ supported ix iy dy w).
    { intros w. rewrite set_diff_In, filter_In, <- supportedb_iff.
      unfold removable. split.
      - intros [I N]. split; [assumption|]. rewrite (A w I) in N.
        destruct (supportedb ix iy dy w); [reflexivity|].
        exfalso. apply N. auto.
      - intros [I Sp]. split; [assumption|]. rewrite (A w I), Sp.
        simpl. intros [_ F]. discriminate. }
    unfold revise. rewrite O, Dx, S.
    eexists _, _, _. split; [reflexivity|].
    split; [apply get_set_same|]. split; [exact M|].
    split; [unfold domain; rewrite get_set_other; auto|].
    split; [intros v N; unfold domain; now rewrite get_set_other|].
    rewrite negb_true_iff. split.
    + intros B.
      destruct (filter (removable dy ix iy) dx) as [|r rs] eqn:F;
        [discriminate|].
      assert (I : In r (filter (removable dy ix iy) dx))
        by (rewrite F; now left).
      exists r. split; [now apply filter_In in I|].
      rewrite <- F. rewrite set_diff_In. tauto.
    + intros [w [I N]].
      destruct (filter (removable dy ix iy) dx) as [|r rs] eqn:F;
        [|reflexivity].
      exfalso. apply N. apply set_diff_In. split; [assumption|].
      try rewrite F. intros [].
Qed.

(** C3, as first stated, fails on the domains [__init__] builds: a word
    too short for the offset makes [revise] raise [IndexError]. *)
Lemma revise_short_word_raises :
  ~ revise_as_stated (Samples.tee ["A"; "CAT"]%string)
      (init_domains (Samples.tee ["A"; "CAT"]%string))
      Samples.vt Samples.vd.
Proof.
  intros H. specialize (H _ _ eq_refl eq_refl). simpl in H.
  destruct H as (b & doms' & dx' & R & _).
  vm_compute in R. discriminate.
Qed.

(** ** Sorting *)

Section SortFacts.
Variable A : Type.
Variable key : A -> nat.

Lemma insert_by_In x l a : In a (insert_by key x l) <-> a = x \/ In a l.
Proof.
  induction l as [|h t IH]; simpl.
  - intuition.
  - destruct (key x <=? key h); simpl; [intuition|].
    rewrite IH. intuition.
Qed.

Lemma sorted_by_In l a : In a (sorted_by key l) <-> In a l.
Proof.
  induction l as [|h t IH]; simpl; [tauto|].
  rewrite insert_by_In, IH. intuition.
Qed.

Lemma insert_by_sorted x l :
  StronglySorted (fun a b => key a <= key b) l ->
  StronglySorted (fun a b => key a <= key b) (insert_by key x l).
Proof.
  induction l as [|h t IH]; simpl; intros S.
  - repeat constructor.
  - apply StronglySorted_inv in S. destruct S as [S F].
    destruct (key x <=? key h) eqn:L.
    + apply Nat.leb_le in L. constructor.
      * constructor; assumption.
      * constructor; [assumption|].
        rewrite Forall_forall in *. intros b I. specialize (F b I). lia.
    + apply Nat.leb_gt in L. constructor; [auto|].
      rewrite Forall_forall in *. intros b I.
      apply insert_by_In in I. destruct I as [->|I]; [lia | auto].
Qed.

Lemma sorted_by_sorted l :
  StronglySorted (fun a b => key a <= key b) (sorted_by key l).
Proof.
  induction l as [|h t IH]; simpl; [constructor | now apply insert_by_sorted].
Qed.

Lemma sorted_by_head_min l h t a :
  sorted_by key l = h :: t -> In a l -> key h <= key a.
Proof.
  intros E I. pose proof (sorted_by_sorted l) as S. rewrite E in S.
  apply StronglySorted_inv in S. destruct S as [_ F].
  apply sorted_by_In in I. rewrite E in I.
  destruct I as [->|I]; [lia|].
  rewrite Forall_forall in F. auto.
Qed.

Lemma insert_by_desc_In x l a : In a (insert_by_desc key x l) <-> a = x \/ In a l.
Proof.
  induction l as [|h t IH]; simpl.
  - intuition.
  - destruct (key h <=? key x); simpl; [intuition|].
    rewrite IH. intuition.
Qed.

Lemma sorted_by_desc_In l a : In a (sorted_by_desc key l) <-> In a l.
Proof.
  induction l as [|h t IH]; simpl; [tauto|].
  rewrite insert_by_desc_In, IH. intuition.
Qed.

Lemma insert_by_desc_sorted x l :
  StronglySorted (fun a b => key b <= key a) l ->
  StronglySorted (fun a b => key b <= key a) (insert_by_desc key x l).
Proof.
  induction l as [|h t IH]; simpl; intros S.
  - repeat constructor.
  - apply StronglySorted_inv in S. destruct S as [S F].
    destruct (key h <=? key x) eqn:L.
    + apply Nat.leb_le in L. constructor.
      * constructor; assumption.
      * constructor; [assumption|].
        rewrite Forall_forall in *. intros b I. specialize (F b I). lia.
    + apply Nat.leb_gt in L. constructor; [auto|].
      rewrite Forall_forall in *. intros b I.
      apply insert_by_desc_In in I. destruct I as [->|I]; [lia | auto].
Qed.

Lemma sorted_by_desc_head_max l h t a :
  sorted_by_desc key l = h :: t -> In a l -> key a <= key h.
Proof.
  intros E I.
  assert (S : StronglySorted (fun a b => key b <= key a) (sorted_by_desc key l)).
  { clear. induction l as [|h t IH]; simpl;
      [constructor | now apply insert_by_desc_sorted]. }
  rewrite E in S. apply StronglySorted_inv in S. destruct S as [_ F].
  apply sorted_by_desc_In in I. rewrite E in I.
  destruct I as [->|I]; [lia|].
  rewrite Forall_forall in F. auto.
Qed.

End SortFacts.

(** ** Variable selection *)

Section Selection.
Variables (c : Crossword) (doms : Domains) (a : Assignment).

Lemma unassigned_entry u n :
  In (u, n)
     (map (fun '(var, d) => (var, List.length d))
          (filter (fun '(var, _) => negb (Dict.mem Var.eq_dec var a)) doms))
  <-> exists d, In (u, d) doms /\ Dict.mem Var.eq_dec u a = false
                /\ n = List.length d.
Proof.
  rewrite in_map_iff. split.
  - intros [[v d] [E I]]. inversion E; subst.
    apply filter_In in I. destruct I as [I M].
    apply negb_true_iff in M. eauto.
  - intros [d [I [M ->]]]. exists (u, d). split; [reflexivity|].
    apply filter_In. split; [assumption|]. now apply negb_true_iff.
Qed.

Lemma select_unassigned var :
  select_unassigned_variable c doms a = Ok var ->
  In var (Dict.keys doms) /\ Dict.mem Var.eq_dec var a = false.
Proof.
  unfold select_unassigned_variable.
  destruct (List.length doms <=? List.length a); [discriminate|].
  set (V := map (fun '(var, d) => (var, List.length d))
                (filter (fun '(var, _) => negb (Dict.mem Var.eq_dec var a)) doms)).
  assert (K : forall u n, In (u, n) V ->
                In u (Dict.keys doms) /\ Dict.mem Var.eq_dec u a = false).
  { intros u n I. apply unassigned_entry in I. destruct I as [d [I [M _]]].
    split; [|assumption]. unfold Dict.keys.
    change u with (fst (u, d)). now apply in_map. }
  destruct V as [|[v0 n0] [|p V']] eqn:EV.
  - discriminate.
  - intros H. inversion H; subst. apply (K var n0). now left.
  - destruct (sorted_by snd ((v0, n0) :: p :: V')) as [|[v1 m] s1] eqn:S1;
      [discriminate|].
    destruct (sorted_by_desc (degree c)
                (map fst (filter (fun p0 => snd p0 =? m) ((v1, m) :: s1))))
      as [|v s2] eqn:S2; [discriminate|].
    intros H. inversion H; subst v.
    assert (I : In var (sorted_by_desc (degree c)
                  (map fst (filter (fun p0 => snd p0 =? m) ((v1, m) :: s1)))))
      by (rewrite S2; now left).
    apply sorted_by_desc_In, in_map_iff in I.
    destruct I as [[u n] [E I]]. simpl in E. subst u.
    apply filter_In in I. destruct I as [I _].
    rewrite <- S1 in I. apply sorted_by_In in I.
    apply (K var n). exact I.
Qed.

Lemma select_all_assigned :
  (forall v, In v (Dict.keys doms) -> Dict.mem Var.eq_dec v a = true) ->
  select_unassigned_variable c doms a = Raise ValueError.
Proof.
  intros H. unfold select_unassigned_variable.
  destruct (List.length doms <=? List.length a); [reflexivity|].
  replace (filter (fun '(var, _) => negb (Dict.mem Var.eq_dec var a)) doms)
    with (@nil (Var.t * list string)); [reflexivity|].
  symmetry. apply filter_nil_iff. intros [v d] I.
  apply negb_false_iff. apply H. unfold Dict.keys.
  change v with (fst (v, d)). now apply in_map.
Qed.

End Selection.

Lemma unassigned_entry_size (doms : Domains) (a : Assignment) u n :
  NoDup (Dict.keys doms) ->
  (In (u, n)
      (map (fun '(var, d) => (var, List.length d))
           (filter (fun '(var, _) => negb (Dict.mem Var.eq_dec var a)) doms))
   <-> In u (Dict.keys doms) /\ Dict.mem Var.eq_dec u a = false
       /\ n = size_of doms u).
Proof.
  intros ND. rewrite unassigned_entry. unfold size_of, domain. split.
  - intros [d [I [M ->]]].
    rewrite (In_get_unique _ _ Var.eq_dec u d doms ND I).
    repeat split; auto. unfold Dict.keys.
    change u with (fst (u, d)). now apply in_map.
  - intros [I [M ->]].
    apply (get_Some_keys _ _ Var.eq_dec) in I. destruct I as [d G].
    rewrite G. exists d. split; [now apply get_In in G | auto].
Qed.

Lemma select_minimal (c : Crossword) (doms : Domains) (a : Assignment) v0 :
  unique (Dict.keys doms) = true ->
  unique (Dict.keys a) = true ->
  forallb (fun v => Dict.mem Var.eq_dec v doms) (Dict.keys a) = true ->
  In v0 (Dict.keys doms) -> Dict.mem Var.eq_dec v0 a = false ->
  exists var,
    select_unassigned_variable c doms a = Ok var
    /\ In var (Dict.keys doms)
    /\ Dict.mem Var.eq_dec var a = false
    /\ (forall u, In u (Dict.keys doms) ->
                  Dict.mem Var.eq_dec u a = false ->
                  size_of doms var <= size_of doms u)
    /\ (forall u, In u (Dict.keys doms) ->
                  Dict.mem Var.eq_dec u a = false ->
                  size_of doms u = size_of doms var ->
                  degree c u <= degree c var).
Proof.
  intros Ud Ua Sub I0 M0.
  apply unique_NoDup in Ud, Ua.
  assert (L : (List.length doms <=? List.length a) = false).
  { apply Nat.leb_gt.
    assert (ND : NoDup (v0 :: Dict.keys a)).
    { constructor; [|assumption].
      apply (get_None_keys _ _ Var.eq_dec). now apply mem_false_iff. }
    assert (IN : incl (v0 :: Dict.keys a) (Dict.keys doms)).
    { intros u [<-|I]; [assumption|].
      rewrite forallb_forall in Sub. apply Sub in I.
      now apply mem_true_iff in I. }
    pose proof (NoDup_incl_length ND IN) as Len.
    unfold Dict.keys in Len. simpl in Len. rewrite !length_map in Len. lia. }
  pose proof (fun u n => unassigned_entry_size doms a u n Ud) as K.
  unfold select_unassigned_variable. rewrite L.
  set (V := map (fun '(var, d) => (var, List.length d))
                (filter (fun '(var, _) => negb (Dict.mem Var.eq_dec var a)) doms))
    in *.
  destruct V as [|[v1 n1] [|p V']] eqn:EV.
  - exfalso. apply (proj2 (K v0 (size_of doms v0))). auto.
  - exists v1.
    destruct (proj1 (K v1 n1) (or_introl eq_refl)) as (I1 & M1 & E1).
    assert (Only : forall u, In u (Dict.keys doms) ->
                     Dict.mem Var.eq_dec u a = false -> u = v1).
    { intros u Iu Mu.
      destruct (proj2 (K u (size_of doms u))) as [E|[]]; auto. congruence. }
    repeat split; auto.
    + intros u Iu Mu. rewrite (Only u Iu Mu). lia.
    + intros u Iu Mu _. rewrite (Only u Iu Mu). lia.
  - rewrite <- EV in *. clear EV v1 n1 p V'.
    destruct (sorted_by snd V) as [|[v1 m] s1] eqn:S1.
    { exfalso.
      assert (I : In (v0, size_of doms v0) (sorted_by snd V))
        by (apply sorted_by_In, K; auto).
      rewrite S1 in I. contradiction. }
    set (minvars := map fst (filter (fun p0 => snd p0 =? m) ((v1, m) :: s1))).
    assert (MV : forall u, In u minvars <-> In (u, m) V).
    { intros u. unfold minvars. rewrite in_map_iff. split.
      - intros [[u' n] [E I]]. simpl in E. subst u'.
        apply filter_In in I. destruct I as [I Em].
        simpl in Em. apply Nat.eqb_eq in Em. subst n.
        rewrite <- S1 in I. now apply sorted_by_In in I.
      - intros I. exists (u, m). split; [reflexivity|].
        apply filter_In. split; [|simpl; apply Nat.eqb_refl].
        rewrite <- S1. now apply sorted_by_In. }
    assert (Min : forall u n, In (u, n) V -> m <= n).
    { intros u n I.
      apply (sorted_by_head_min _ snd V (v1, m) s1 (u, n) S1 I). }
    destruct (sorted_by_desc (degree c) minvars) as [|var s2] eqn:S2.
    { exfalso.
      assert (I : In v1 (sorted_by_desc (degree c) minvars)).
      { apply sorted_by_desc_In, MV.
        apply (sorted_by_In _ snd V). rewrite S1. now left. }
      rewrite S2 in I. contradiction. }
    exists var.
    assert (Iv : In var minvars).
    { apply (sorted_by_desc_In _ (degree c)). rewrite S2. now left. }
    apply MV, K in Iv. destruct Iv as (Iv & Mv & Ev).
    repeat split; auto.
    + intros u Iu Mu. rewrite <- Ev.
      apply (Min u). apply K. auto.
    + intros u Iu Mu Eu.
      apply (sorted_by_desc_head_max _ (degree c) minvars var s2 u S2).
      apply MV, K. repeat split; auto. congruence.
Qed.

(** C6.  When the keys of the assignment are some but not all of the
    variables of the domain store, [select_unassigned_variable] returns a
    variable that is not assigned, whose domain is as small as that of any
    unassigned variable, and whose set of neighbours is as large as that
    of any unassigned variable with a domain of that size.  When every
    variable is assigned it raises (a [ValueError]). *)
Theorem select_unassigned_variable_spec
        (c : Crossword) (doms : Domains) (a : Assignment) :
  (forall v0,
      unique (Dict.keys doms) = true ->
      unique (Dict.keys a) = true ->
      forallb (fun v => Dict.mem Var.eq_dec v doms) (Dict.keys a) = true ->
      In v0 (Dict.keys doms) -> Dict.mem Var.eq_dec v0 a = false ->
      exists var,
        select_unassigned_variable c doms a = Ok var
        /\ In var (Dict.keys doms)
        /\ Dict.mem Var.eq_dec var a = false
        /\ (forall u, In u (Dict.keys doms) ->
                      Dict.mem Var.eq_dec u a = false ->
                      size_of doms var <= size_of doms u)
        /\ (forall u, In u (Dict.keys doms) ->
                      Dict.mem Var.eq_dec u a = false ->
                      size_of doms u = size_of doms var ->
                      List.length (neighbors c u)
                      <= List.length (neighbors c var)))
  /\ ((forall v, In v (Dict.keys doms) -> Dict.mem Var.eq_dec v a = true) ->
      select_unassigned_variable c doms a = Raise ValueError).
Proof.
  split; [|apply select_all_assigned].
  intros v0 Ud Ua Sub I0 M0.
  destruct (select_minimal c doms a v0 Ud Ua Sub I0 M0)
    as (var & Sel & Iv & Mv & Min & Deg).
  exists var.
  split; [exact Sel|]. split; [exact Iv|]. split; [exact Mv|].
  split; [exact Min|].
  intros u Iu Mu Eu. specialize (Deg u Iu Mu Eu).
  unfold degree in Deg. exact Deg.
Qed.

(** ** Backtracking: what an activation leaves *)

Section Search.
Variables (c : Crossword) (doms : Domains).

Lemma try_values_ok (rec : Assignment -> option search) (var : Var.t) :
  (forall a1 s, rec a1 = Some s -> search_ok c doms a1 s) ->
  forall values a calls s,
    Dict.get Var.eq_dec var a = None ->
    try_values rec c var values a calls = Some s ->
    search_ok c doms a s.
Proof.
  intros Rec. induction values as [|value rest IH]; intros a calls s F H;
    simpl in H.
  - inversion H; subst. reflexivity.
  - rewrite (set_fresh _ _ Var.eq_dec var value a F) in H.
    destruct (consistent c (a ++ [(var, value)])) as [[|]|e] eqn:Con.
    + destruct (rec (a ++ [(var, value)])) as [[[[[r|]|e] a2] k]|] eqn:R;
        try discriminate.
      * pose proof (Rec _ _ R) as [-> [ext [E [Cm Cs]]]].
        assert (T : truthy a2 = true).
        { rewrite E. destruct a; reflexivity. }
        rewrite T in H. inversion H; subst s. simpl.
        split; [reflexivity|].
        exists ((var, value) :: ext). split.
        -- rewrite E, <- app_assoc. reflexivity.
        -- split; [assumption|]. right.
           destruct Cs as [->|Cs]; [|assumption].
           rewrite E, app_nil_r. exact Con.
      * pose proof (Rec _ _ R) as E. simpl in E. subst a2.
        rewrite (pop_fresh _ _ Var.eq_dec var value a F) in H.
        apply (IH a _ s F H).
      * inversion H; subst. exact I.
    + rewrite (pop_fresh _ _ Var.eq_dec var value a F) in H.
      apply (IH a _ s F H).
    + inversion H; subst. exact I.
Qed.

Lemma backtrack_fuel_ok fuel :
  forall a s, backtrack_fuel fuel c doms a = Some s -> search_ok c doms a s.
Proof.
  induction fuel as [|fuel IH]; intros a s H; simpl in H; [discriminate|].
  destruct (assignment_complete doms a) eqn:Cm.
  - inversion H; subst. simpl. split; [reflexivity|].
    exists []. rewrite app_nil_r. auto.
  - destruct (select_unassigned_variable c doms a) as [var|e] eqn:Sel.
    + destruct (order_domain_values c doms var a) as [values|e].
      * apply select_unassigned in Sel. destruct Sel as [_ M].
        apply mem_false_iff in M.
        apply (try_values_ok _ var IH values a [a] s M H).
      * inversion H; subst. exact I.
    + inversion H; subst. exact I.
Qed.

(** ** Backtracking: termination *)

Lemma try_values_total (rec : Assignment -> option search) (var : Var.t)
      (a : Assignment) :
  Dict.get Var.eq_dec var a = None ->
  (forall a1 s, rec a1 = Some s -> search_ok c doms a1 s) ->
  (forall value, exists s, rec (a ++ [(var, value)]) = Some s) ->
  forall values calls, exists s, try_values rec c var values a calls = Some s.
Proof.
  intros F Rec Tot. induction values as [|value rest IH]; intros calls; simpl.
  - eauto.
  - rewrite (set_fresh _ _ Var.eq_dec var value a F).
    destruct (consistent c (a ++ [(var, value)])) as [[|]|e]; eauto.
    + destruct (Tot value) as [[[[[r|]|e] a2] k] R]; rewrite R; eauto.
      * pose proof (Rec _ _ R) as [-> [ext [E _]]].
        assert (T : truthy a2 = true).
        { rewrite E. destruct a; reflexivity. }
        rewrite T. eauto.
      * pose proof (Rec _ _ R) as E. simpl in E. subst a2.
        rewrite (pop_fresh _ _ Var.eq_dec var value a F). apply IH.
    + rewrite (pop_fresh _ _ Var.eq_dec var value a F). apply IH.
Qed.

End Search.

Lemma filter_length_lt_pred {A : Type} (f g : A -> bool) (l : list A) (x0 : A) :
  (forall x, g x = true -> f x = true) ->
  In x0 l -> f x0 = true -> g x0 = false ->
  List.length (filter g l) < List.length (filter f l).
Proof.
  intros Imp. induction l as [|h l IH]; simpl; intros I F G; [contradiction|].
  assert (Le : List.length (filter g l) <= List.length (filter f l)).
  { clear - Imp. induction l as [|h l IH]; simpl; [lia|].
    destruct (g h) eqn:Gh.
    - rewrite (Imp h Gh). simpl. lia.
    - destruct (f h); simpl; lia. }
  destruct I as [->|I].
  - rewrite F, G. simpl. lia.
  - specialize (IH I F G). destruct (g h) eqn:Gh.
    + rewrite (Imp h Gh). simpl. lia.
    + destruct (f h); simpl; lia.
Qed.

Lemma get_app {K V : Type} (eq_dec : forall a b : K, {a = b} + {a <> b})
      (k : K) (d1 d2 : list (K * V)) :
  Dict.get eq_dec k (d1 ++ d2)
  = match Dict.get eq_dec k d1 with
    | Some v => Some v
    | None => Dict.get eq_dec k d2
    end.
Proof.
  induction d1 as [|[k' v'] rest IH]; simpl; [reflexivity|].
  destruct (eq_dec k k'); [reflexivity | exact IH].
Qed.

Lemma unassigned_count_bind doms a var value :
  In var (Dict.keys doms) ->
  Dict.mem Var.eq_dec var a = false ->
  unassigned_count doms (a ++ [(var, value)]) < unassigned_count doms a.
Proof.
  intros I M. unfold unassigned_count.
  apply (get_Some_keys _ _ Var.eq_dec) in I. destruct I as [d G].
  apply get_In in G.
  apply filter_length_lt_pred with (var, d); auto.
  - intros [v dv] H. apply negb_true_iff in H. apply negb_true_iff.
    unfold Dict.mem in *. rewrite get_app in H.
    destruct (Dict.get Var.eq_dec v a); [discriminate | reflexivity].
  - now apply negb_true_iff.
  - apply negb_false_iff. unfold Dict.mem. rewrite get_app.
    apply mem_false_iff in M. rewrite M. simpl.
    destruct (Var.eq_dec var var); congruence.
Qed.

Lemma backtrack_fuel_total c doms fuel :
  forall a, unassigned_count doms a < fuel ->
            exists s, backtrack_fuel fuel c doms a = Some s.
Proof.
  induction fuel as [|fuel IH]; intros a L; [lia|]. simpl.
  destruct (assignment_complete doms a); [eauto|].
  destruct (select_unassigned_variable c doms a) as [var|e] eqn:Sel; [|eauto].
  destruct (order_domain_values c doms var a) as [values|e]; [|eauto].
  apply select_unassigned in Sel. destruct Sel as [I M].
  apply try_values_total with doms.
  - now apply mem_false_iff.
  - apply backtrack_fuel_ok.
  - intros value. apply IH.
    pose proof (unassigned_count_bind doms a var value I M). lia.
Qed.

Lemma backtrack_terminates c doms a : exists s, backtrack c doms a = Some s.
Proof.
  apply backtrack_fuel_total. unfold unassigned_count.
  pose proof (filter_length_le
                (fun '(var, _) => negb (Dict.mem Var.eq_dec var a)) doms).
  lia.
Qed.

Lemma solve_terminates c doms : exists r, solve c doms = Some r.
Proof.
  unfold solve.
  destruct (ac3_terminates c None (enforce_node_consistency doms))
    as [[[b|e] doms2] ->]; [|eauto].
  destruct (backtrack_terminates c doms2 []) as [[[out a'] k] ->]. eauto.
Qed.

(** C8.  An activation of [backtrack] always ends, and when it returns
    [None] the assignment dictionary is exactly what it was when the
    activation began: every binding made by the activation and by the
    activations nested in it has been removed. *)
Theorem backtrack_failure_restores
        (c : Crossword) (doms : Domains) (a : Assignment) :
  (exists s, backtrack c doms a = Some s)
  /\ (forall a' k, backtrack c doms a = Some (Ok None, a', k) -> a' = a)
  /\ (forall fuel a' k,
         backtrack_fuel fuel c doms a = Some (Ok None, a', k) -> a' = a).
Proof.
  split; [apply backtrack_terminates|]. split.
  - intros a' k H. apply (backtrack_fuel_ok c doms _ a _ H).
  - intros fuel a' k H. apply (backtrack_fuel_ok c doms _ a _ H).
Qed.

(** ** What [consistent] and [assignment_complete] establish *)

Lemma nodup_length_NoDup (l : list string) :
  List.length (nodup string_dec l) = List.length l -> NoDup l.
Proof.
  induction l as [|w l IH]; simpl; intros H; [constructor|].
  assert (Le : forall l', List.length (nodup string_dec l') <= List.length l').
  { clear. induction l' as [|w l' IH]; simpl; [lia|].
    destruct (in_dec string_dec w l'); simpl; lia. }
  destruct (in_dec string_dec w l) as [I|N].
  - specialize (Le l). lia.
  - simpl in H. constructor; [assumption|]. apply IH. lia.
Qed.

Lemma NoDup_values_inj (a : Assignment) x y w :
  NoDup (Dict.values a) -> In (x, w) a -> In (y, w) a -> x = y.
Proof.
  unfold Dict.values. induction a as [|[v u] a IH]; simpl; intros ND Ix Iy.
  - contradiction.
  - inversion ND as [|? ? NI ND']; subst.
    assert (Out : forall z, In (z, u) a -> False).
    { intros z Iz. apply NI. change u with (snd (z, u)). now apply in_map. }
    destruct Ix as [Ex|Ix], Iy as [Ey|Iy].
    + congruence.
    + inversion Ex; subst. exfalso. eauto.
    + inversion Ey; subst. exfalso. eauto.
    + auto.
Qed.

Lemma check_neighbours_true c a x wx ns :
  check_neighbours c a x wx ns = Ok true ->
  forall y wy, In y ns -> Dict.get Var.eq_dec y a = Some wy ->
               exists ix iy, overlap c x y = Some (Some (ix, iy))
                             /\ agree ix iy wx wy.
Proof.
  induction ns as [|n ns IH]; simpl; intros H y wy I G; [contradiction|].
  destruct (Dict.get Var.eq_dec n a) as [wn|] eqn:Gn.
  - destruct (overlap c x n) as [[[ix iy]|]|] eqn:O; try discriminate.
    destruct (index wx ix) as [p|] eqn:P; simpl in H; [|discriminate].
    destruct (index wn iy) as [q|] eqn:Q; simpl in H; [|discriminate].
    destruct (Ascii.eqb p q) eqn:E; [|discriminate].
    destruct I as [->|I]; [|eauto].
    rewrite Gn in G. inversion G; subst wn.
    exists ix, iy. split; [assumption|].
    apply Ascii.eqb_eq in E. subst q.
    exists p. now rewrite <- !index_Ok.
  - destruct I as [->|I]; [congruence | eauto].
Qed.

Lemma check_items_true c a items :
  check_items c a items = Ok true ->
  forall x wx, In (x, wx) items ->
               check_neighbours c a x wx (neighbors c x) = Ok true.
Proof.
  induction items as [|[v w] items IH]; simpl; intros H x wx I;
    [contradiction|].
  destruct (check_neighbours c a v w (neighbors c v)) as [[|]|] eqn:N;
    simpl in H; try discriminate.
  destruct I as [E|I]; [inversion E; subst; assumption | auto].
Qed.

Lemma consistent_true c a :
  consistent c a = Ok true ->
  NoDup (Dict.values a) /\ check_items c a a = Ok true.
Proof.
  unfold consistent.
  destruct (List.length (nodup string_dec (Dict.values a))
            =? List.length (Dict.values a)) eqn:L; simpl; [|discriminate].
  destruct (forallb _ a); simpl; [|discriminate].
  intros H. split; [|assumption].
  apply nodup_length_NoDup. now apply Nat.eqb_eq.
Qed.

Lemma complete_binds doms a v :
  assignment_complete doms a = true -> In v (Dict.keys doms) ->
  exists w, Dict.get Var.eq_dec v a = Some w.
Proof.
  unfold assignment_complete. intros H I.
  apply andb_true_iff in H. destruct H as [H _].
  rewrite forallb_forall in H. specialize (H v I).
  apply mem_true_iff in H. now apply (get_Some_keys _ _ Var.eq_dec).
Qed.

(** C2.  On a well-formed crossword, an assignment returned by [solve()]
    binds every variable of the domain store, gives different variables
    different words, and for every two bound variables with an overlap
    [(ix, iy)] the word of the first has at [ix] the letter the word of
    the second has at [iy]. *)
Theorem solve_solution_valid
        (c : Crossword) (doms doms2 : Domains) (r : Assignment) (k : list Assignment)
        (WF : wf_crossword c = true)
        (Run : solve c doms = Some (Ok (Some r), doms2, k)) :
  (forall v, In v (Dict.keys doms) ->
             exists w, Dict.get Var.eq_dec v r = Some w)
  /\ (forall x y wx wy,
         x <> y ->
         Dict.get Var.eq_dec x r = Some wx ->
         Dict.get Var.eq_dec y r = Some wy -> wx <> wy)
  /\ (forall x y ix iy wx wy,
         overlap c x y = Some (Some (ix, iy)) ->
         Dict.get Var.eq_dec x r = Some wx ->
         Dict.get Var.eq_dec y r = Some wy -> agree ix iy wx wy).
Proof.
  unfold solve in Run.
  destruct (ac3 c None (enforce_node_consistency doms))
    as [[[b|e] d2]|] eqn:A; try discriminate.
  destruct (backtrack c d2 []) as [[[out a'] n]|] eqn:B; [|discriminate].
  inversion Run; subst out d2 n. clear Run.
  apply ac3_shrinks in A. destruct A as [_ K]. rewrite keys_enforce in K.
  pose proof (backtrack_fuel_ok c doms2 _ [] _ B) as [-> [ext [E [Cm Cs]]]].
  simpl in E. subst ext.
  split; [|split].
  - intros v I. apply (complete_binds doms2); [assumption | congruence].
  - intros x y wx wy N Gx Gy Eq. subst wy.
    destruct Cs as [->|Cs]; [discriminate|].
    apply consistent_true in Cs. destruct Cs as [ND _].
    apply get_In in Gx, Gy. apply N.
    apply (NoDup_values_inj a' x y wx ND Gx Gy).
  - intros x y ix iy wx wy O Gx Gy.
    destruct Cs as [->|Cs]; [discriminate|].
    apply consistent_true in Cs. destruct Cs as [_ CI].
    pose proof (check_items_true c a' a' CI x wx (get_In _ _ _ _ _ _ Gx)) as CN.
    assert (Ny : In y (neighbors c x)) by (apply wf_neighbors; eauto).
    destruct (check_neighbours_true c a' x wx _ CN y wy Ny Gy)
      as [ix' [iy' [O' Ag]]].
    rewrite O in O'. inversion O'; subst. exact Ag.
Qed.

(** ** Value ordering *)

Lemma get_out_of_range s k : String.length s <= k -> String.get k s = None.
Proof.
  revert k. induction s as [|ch s IH]; simpl; intros k H; [reflexivity|].
  destruct k as [|k]; [lia|]. apply IH. lia.
Qed.

Lemma count_eliminations_ok c doms a var value ns :
  wf_crossword c = true -> covers c doms = true ->
  incl ns (neighbors c var) ->
  forall count,
    exists n, count_eliminations c doms a var value ns count = Ok n.
Proof.
  intros WF Cov. induction ns as [|nb ns IH]; intros Inc count; simpl.
  - eauto.
  - assert (Inb : In nb (neighbors c var)) by (apply Inc; now left).
    assert (Inc' : incl ns (neighbors c var))
      by (intros u Iu; apply Inc; now right).
    destruct (Dict.mem Var.eq_dec nb a); [|now apply IH].
    assert (Dn : exists dn, domain doms nb = Some dn).
    { unfold neighbors in Inb. apply filter_In in Inb. destruct Inb as [Iv _].
      unfold covers in Cov. rewrite forallb_forall in Cov.
      specialize (Cov nb Iv). apply mem_true_iff in Cov.
      now apply (get_Some_keys _ _ Var.eq_dec). }
    destruct Dn as [dn ->].
    apply (wf_neighbors c var nb WF) in Inb. destruct Inb as [ix [iy ->]].
    now apply IH.
Qed.

Lemma elimination_counts_ok c doms a var values :
  wf_crossword c = true -> covers c doms = true ->
  exists counts, elimination_counts c doms a var values = Ok counts
                 /\ Dict.keys counts = values.
Proof.
  intros WF Cov. induction values as [|value rest IH]; simpl.
  - exists []. auto.
  - destruct (count_eliminations_ok c doms a var value (neighbors c var)
                WF Cov (incl_refl _) 0) as [n ->].
    destruct IH as [counts [-> K]]. simpl.
    exists ((value, n) :: counts). split; [reflexivity|].
    unfold Dict.keys in *. simpl. now rewrite K.
Qed.

Lemma sort_keys_short items w :
  In w items -> String.length w <= 1 -> sort_keys items = Raise IndexError.
Proof.
  induction items as [|item rest IH]; simpl; intros I L; [contradiction|].
  unfold index at 1. destruct (String.get 1 item) as [ch|] eqn:G; simpl.
  - destruct I as [->|I].
    + rewrite get_out_of_range in G by assumption. discriminate.
    + now rewrite IH.
  - reflexivity.
Qed.

Lemma order_domain_values_short c doms var a d w :
  wf_crossword c = true -> covers c doms = true ->
  domain doms var = Some d -> In w d -> String.length w <= 1 ->
  order_domain_values c doms var a = Raise IndexError.
Proof.
  intros WF Cov D I L. unfold order_domain_values. rewrite D.
  destruct (elimination_counts_ok c doms a var d WF Cov) as [counts [-> K]].
  simpl. rewrite K. now rewrite (sort_keys_short d w I L).
Qed.

Lemma select_not_complete c doms a var :
  select_unassigned_variable c doms a = Ok var ->
  assignment_complete doms a = false.
Proof.
  intros Sel. apply select_unassigned in Sel. destruct Sel as [I M].
  unfold assignment_complete. apply andb_false_iff. left.
  apply not_true_is_false. intros F. rewrite forallb_forall in F.
  specialize (F var I). congruence.
Qed.

(** An exception raised by a nested activation is the outcome of every
    activation around it: [backtrack] has no handler. *)
Section Propagates.
Variables (c : Crossword) (doms : Domains) (var : Var.t) (astar : Assignment).
Hypothesis Raises :
  forall a, order_domain_values c doms var a = Raise IndexError.
Hypothesis Selected : select_unassigned_variable c doms astar = Ok var.

Lemma try_values_raise (rec : Assignment -> option search) (v : Var.t) :
  (forall a1 out a2 t,
      rec a1 = Some (out, a2, t) -> In astar t -> out = Raise IndexError) ->
  forall values a log out a' t,
    try_values rec c v values a log = Some (out, a', t) ->
    In astar t -> In astar log \/ out = Raise IndexError.
Proof.
  intros Rec. induction values as [|value rest IH];
    intros a log out a' t H I; simpl in H.
  - inversion H; subst. now left.
  - destruct (consistent c (Dict.set Var.eq_dec v value a)) as [[|]|e].
    + destruct (rec (Dict.set Var.eq_dec v value a))
        as [[[[[r|]|e] a2] t1]|] eqn:R; try discriminate.
      * assert (Q : In astar (log ++ t1) -> In astar log).
        { intros J. apply in_app_iff in J. destruct J as [J|J]; [assumption|].
          pose proof (Rec _ _ _ _ R J). discriminate. }
        destruct (truthy r).
        -- inversion H; subst. left. auto.
        -- destruct (Dict.pop Var.eq_dec v a2) as [a3|].
           ++ destruct (IH _ _ _ _ _ H I) as [J|J]; auto.
           ++ inversion H; subst. left. auto.
      * assert (Q : In astar (log ++ t1) -> In astar log).
        { intros J. apply in_app_iff in J. destruct J as [J|J]; [assumption|].
          pose proof (Rec _ _ _ _ R J). discriminate. }
        destruct (Dict.pop Var.eq_dec v a2) as [a3|].
        -- destruct (IH _ _ _ _ _ H I) as [J|J]; auto.
        -- inversion H; subst. left. auto.
      * inversion H; subst. apply in_app_iff in I.
        destruct I as [I|I]; [now left|].
        right. apply (Rec _ _ _ _ R I).
    + destruct (Dict.pop Var.eq_dec v (Dict.set Var.eq_dec v value a))
        as [a2|].
      * apply (IH _ _ _ _ _ H I).
      * inversion H; subst. now left.
    + inversion H; subst. now left.
Qed.

Lemma backtrack_fuel_raise fuel :
  forall a out a' t,
    backtrack_fuel fuel c doms a = Some (out, a', t) ->
    In astar t -> out = Raise IndexError.
Proof.
  induction fuel as [|fuel IH]; intros a out a' t H I; simpl in H;
    [discriminate|].
  assert (Here : In astar [a] ->
                 assignment_complete doms a = false
                 /\ select_unassigned_variable c doms a = Ok var
                 /\ order_domain_values c doms var a = Raise IndexError).
  { intros [<-|[]]. split; [|split]; auto.
    apply select_not_complete with c var. exact Selected. }
  destruct (assignment_complete doms a) eqn:Cm.
  - inversion H; subst. destruct (Here I) as [F _]. discriminate.
  - destruct (select_unassigned_variable c doms a) as [v|e] eqn:Sel.
    + destruct (order_domain_values c doms v a) as [values|e] eqn:Ord.
      * destruct (try_values_raise _ v IH values a [a] out a' t H I)
          as [J|J]; [|assumption].
        destruct (Here J) as (_ & E & O). inversion E; subst v. congruence.
      * inversion H; subst.
        destruct (Here I) as (_ & E & O). inversion E; subst v. congruence.
    + inversion H; subst. destruct (Here I) as (_ & E & _). discriminate.
Qed.

End Propagates.

(** C7.  [order_domain_values] is not total.  On a well-formed crossword
    whose variables all have a domain, take a variable of length 1 with a
    non-empty, node-consistent domain (one-letter words only): the call
    raises [IndexError], because the sort key reads the character at
    position 1 of each word.  Hence an activation of [backtrack] that
    selects such a variable raises, and a call of [backtrack] or of
    [solve()] one of whose activations selects it ends with that
    [IndexError] instead of a result. *)
Theorem order_domain_values_one_letter
        (c : Crossword) (doms : Domains) (var : Var.t) (a : Assignment)
        (d : list string)
        (WF : wf_crossword c = true) (Cov : covers c doms = true)
        (Len : Var.length var = 1)
        (D : domain doms var = Some d) (NE : d <> [])
        (NC : forall w, In w d -> String.length w = Var.length var) :
  order_domain_values c doms var a = Raise IndexError
  /\ (select_unassigned_variable c doms a = Ok var ->
      backtrack c doms a = Some (Raise IndexError, a, [a]))
  /\ (forall a0 out a' log,
         backtrack c doms a0 = Some (out, a', log) ->
         In a log -> select_unassigned_variable c doms a = Ok var ->
         out = Raise IndexError)
  /\ (forall doms0 out log,
         solve c doms0 = Some (out, doms, log) ->
         In a log -> select_unassigned_variable c doms a = Ok var ->
         out = Raise IndexError).
Proof.
  assert (R : forall a0, order_domain_values c doms var a0 = Raise IndexError).
  { intros a0. destruct d as [|w d']; [congruence|].
    apply order_domain_values_short with (w :: d') w; auto.
    - now left.
    - rewrite NC by (now left). lia. }
  split; [apply R|]. split; [|split].
  - intros Sel. unfold backtrack. simpl.
    rewrite (select_not_complete c doms a var Sel), Sel, R. reflexivity.
  - intros a0 out a' log H I Sel.
    apply (backtrack_fuel_raise c doms var a R Sel _ a0 out a' log H I).
  - intros doms0 out log H I Sel. unfold solve in H.
    destruct (ac3 c None (enforce_node_consistency doms0))
      as [[[b|e] d2]|]; try discriminate.
    + destruct (backtrack c d2 []) as [[[out' a'] log']|] eqn:B;
        [|discriminate].
      inversion H; subst out' d2 log'.
      apply (backtrack_fuel_raise c doms var a R Sel _ [] out a' log B I).
    + inversion H; subst. contradiction.
Qed.

(** ** [solve] after a failed propagation *)

Lemma size_zero_empty doms v :
  In v (Dict.keys doms) -> size_of doms v = 0 -> domain doms v = Some [].
Proof.
  intros I Z. apply (get_Some_keys _ _ Var.eq_dec) in I. destruct I as [d G].
  unfold size_of, domain in *. rewrite G in *.
  destruct d; [reflexivity | discriminate].
Qed.

Lemma backtrack_empty_domain c doms var :
  select_unassigned_variable c doms [] = Ok var ->
  domain doms var = Some [] ->
  backtrack c doms [] = Some (Ok None, [], [[]]).
Proof.
  intros Sel D. unfold backtrack. simpl.
  rewrite (select_not_complete c doms [] var Sel), Sel.
  unfold order_domain_values. rewrite D. reflexivity.
Qed.

(** C1, as amended.  A revision that empties a domain makes [ac3] return
    [False]: whenever a domain that held a word is empty after the call,
    the outcome is [False].  [solve()] does not look at that outcome: it
    still calls [backtrack], once; the variable selected has an empty
    domain, no value is tried, and [solve()] returns [None]. *)
Theorem ac3_failure_then_solve (c : Crossword) (doms : Domains) :
  (forall arcs out doms',
      ac3 c arcs doms = Some (out, doms') ->
      (exists v d, domain doms v = Some d /\ d <> []
                   /\ domain doms' v = Some []) ->
      out = Ok false)
  /\ (unique (Dict.keys doms) = true ->
      forall doms2,
        ac3 c None (enforce_node_consistency doms) = Some (Ok false, doms2) ->
        (exists x, domain doms2 x = Some [])
        /\ solve c doms = Some (Ok None, doms2, [[]])).
Proof.
  split.
  - intros arcs out doms' H E. unfold ac3 in H.
    destruct arcs as [[|a l]|].
    + inversion H; subst. destruct E as (v & d & D & N & D'). congruence.
    + eapply ac3_loop_emptied; eauto.
    + eapply ac3_loop_emptied; eauto.
  - intros U doms2 A.
    assert (E : exists x, domain doms2 x = Some [])
      by (unfold ac3 in A; eapply ac3_loop_false; eauto).
    split; [exact E|]. destruct E as [x Dx].
    pose proof (ac3_shrinks _ _ _ _ _ A) as [_ K].
    rewrite keys_enforce in K.
    assert (Ix : In x (Dict.keys doms2)).
    { apply (get_Some_keys _ _ Var.eq_dec). eexists. exact Dx. }
    destruct (select_minimal c doms2 [] x) as (var & Sel & Iv & _ & Min & _);
      try reflexivity; try assumption.
    { now rewrite K. }
    assert (Dv : domain doms2 var = Some []).
    { apply size_zero_empty; [assumption|].
      specialize (Min x Ix eq_refl). unfold size_of in Min at 2.
      rewrite Dx in Min. simpl in Min. lia. }
    unfold solve. rewrite A.
    now rewrite (backtrack_empty_domain c doms2 var Sel Dv).
Qed.

(** C1, as first stated, fails: after a propagation that returned
    [False], [solve()] has made an activation of [backtrack]. *)
Lemma solve_still_searches :
  ~ solve_short_circuits (Samples.corner ["CAT"; "DOG"]%string)
      (init_domains (Samples.corner ["CAT"; "DOG"]%string)).
Proof.
  intros H.
  assert (E : exists d,
             ac3 (Samples.corner ["CAT"; "DOG"]%string) None
                 (enforce_node_consistency
                    (init_domains (Samples.corner ["CAT"; "DOG"]%string)))
             = Some (Ok false, d))
    by (vm_compute; eauto).
  destruct E as [d E]. apply H in E. vm_compute in E. discriminate.
Qed.

(* ================================================================== *)
(** * The theorems at sample puzzles *)

Import Samples.
Local Open Scope string_scope.

Lemma ac3_failure_then_solve_witness :
  ac3 corner2 None (enforce_node_consistency (init_domains corner2))
  = Some (Ok false, corner2_failed)
  /\ (exists x, domain corner2_failed x = Some [])
  /\ solve corner2 (init_domains corner2)
     = Some (Ok None, corner2_failed, [[]]).
Proof.
  assert (A : ac3 corner2 None (enforce_node_consistency (init_domains corner2))
              = Some (Ok false, corner2_failed))
    by (vm_compute; reflexivity).
  assert (E : exists v d,
             domain (enforce_node_consistency (init_domains corner2)) v = Some d
             /\ d <> [] /\ domain corner2_failed v = Some []).
  { exists vy, ["CAT"; "DOG"]. repeat split. discriminate. }
  pose proof (proj1 (ac3_failure_then_solve corner2
                       (enforce_node_consistency (init_domains corner2)))
                    None (Ok false) corner2_failed A E) as _.
  split; [exact A|].
  apply (proj2 (ac3_failure_then_solve corner2 (init_domains corner2))).
  - reflexivity.
  - exact A.
Defined.

Lemma solve_solution_valid_witness :
  (forall v, In v (Dict.keys (init_domains corner3)) ->
             exists w, Dict.get Var.eq_dec v corner3_solution = Some w)
  /\ (forall x y wx wy,
         x <> y ->
         Dict.get Var.eq_dec x corner3_solution = Some wx ->
         Dict.get Var.eq_dec y corner3_solution = Some wy -> wx <> wy)
  /\ (forall x y ix iy wx wy,
         overlap corner3 x y = Some (Some (ix, iy)) ->
         Dict.get Var.eq_dec x corner3_solution = Some wx ->
         Dict.get Var.eq_dec y corner3_solution = Some wy ->
         agree ix iy wx wy).
Proof.
  apply (solve_solution_valid corner3 (init_domains corner3) corner3_arc
                              corner3_solution
                              [[]; [(vx, "CAT")]; corner3_solution]).
  - reflexivity.
  - vm_compute. reflexivity.
Defined.

Lemma revise_exact_witness :
  exists b doms' dx',
    revise tee3 vt vd tee3_node = (Ok b, doms') /\
    domain doms' vt = Some dx' /\
    (forall w, In w dx' <->
               In w ["CAT"; "ARM"; "DOG"]
               /\ supported 1 0 ["CAT"; "ARM"; "DOG"] w) /\
    domain doms' vd = Some ["CAT"; "ARM"; "DOG"] /\
    (forall v, v <> vt -> domain doms' v = domain tee3_node v) /\
    (b = true <-> exists w, In w ["CAT"; "ARM"; "DOG"] /\ ~ In w dx').
Proof.
  apply (proj2 (revise_exact tee3 tee3_node vt vd
                  ["CAT"; "ARM"; "DOG"] ["CAT"; "ARM"; "DOG"]
                  ltac:(discriminate) eq_refl eq_refl) 1 0).
  - reflexivity.
  - intros w [<-|[<-|[<-|[]]]]; simpl; lia.
  - intros w [<-|[<-|[<-|[]]]]; simpl; lia.
Defined.

Lemma ac3_success_arc_consistent_witness :
  exists ix iy dy w',
    overlap corner3 vx vy = Some (Some (ix, iy)) /\
    domain corner3_arc vy = Some dy /\ In w' dy /\
    w' <> "CAT" /\ agree ix iy "CAT" w'.
Proof.
  apply (ac3_success_arc_consistent corner3 corner3_node corner3_arc
           eq_refl ltac:(vm_compute; reflexivity) vx vy ["CAT"; "COG"] "CAT").
  - simpl. auto.
  - reflexivity.
  - simpl. auto.
Defined.

Lemma select_unassigned_variable_spec_witness :
  select_unassigned_variable ushape ushape_store ushape_partial = Ok ub
  /\ List.length (neighbors ushape ul) = 1
  /\ List.length (neighbors ushape ub) = 2
  /\ exists var,
       select_unassigned_variable ushape ushape_store ushape_partial = Ok var
       /\ In var (Dict.keys ushape_store)
       /\ Dict.mem Var.eq_dec var ushape_partial = false
       /\ (forall u, In u (Dict.keys ushape_store) ->
                     Dict.mem Var.eq_dec u ushape_partial = false ->
                     size_of ushape_store var <= size_of ushape_store u)
       /\ (forall u, In u (Dict.keys ushape_store) ->
                     Dict.mem Var.eq_dec u ushape_partial = false ->
                     size_of ushape_store u = size_of ushape_store var ->
                     List.length (neighbors ushape u)
                     <= List.length (neighbors ushape var)).
Proof.
  split; [vm_compute; reflexivity|].
  split; [vm_compute; reflexivity|].
  split; [vm_compute; reflexivity|].
  apply (proj1 (select_unassigned_variable_spec ushape ushape_store
                  ushape_partial) ul).
  - reflexivity.
  - reflexivity.
  - reflexivity.
  - simpl. auto.
  - reflexivity.
Defined.

Lemma order_domain_values_one_letter_witness :
  order_domain_values single1 single1_node v1 [] = Raise IndexError
  /\ backtrack single1 single1_node [] = Some (Raise IndexError, [], [[]])
  /\ solve single1 (init_domains single1)
     = Some (Raise IndexError, single1_node, [[]]).
Proof.
  destruct (order_domain_values_one_letter single1 single1_node v1 [] ["A"])
    as [H1 [H2 [H3 H4]]].
  - reflexivity.
  - reflexivity.
  - reflexivity.
  - reflexivity.
  - discriminate.
  - intros w [<-|[]]. reflexivity.
  - split; [exact H1|]. split; [apply H2; reflexivity|].
    destruct (solve_terminates single1 (init_domains single1))
      as [[[out d2] log] S].
    assert (E : d2 = single1_node /\ log = [[]]).
    { vm_compute in S. inversion S. auto. }
    destruct E as [-> ->].
    rewrite S. rewrite (H4 _ _ _ S (or_introl eq_refl) eq_refl). reflexivity.
Defined.

Lemma backtrack_failure_restores_witness :
  backtrack parallel1 parallel1_node [(va, "CAT")]
  = Some (Ok None, [(va, "CAT")], [[(va, "CAT")]])
  /\ [(va, "CAT")] = [(va, "CAT")]
  /\ exists s, backtrack parallel1 parallel1_node [(va, "CAT")] = Some s.
Proof.
  assert (H : backtrack parallel1 parallel1_node [(va, "CAT")]
              = Some (Ok None, [(va, "CAT")], [[(va, "CAT")]]))
    by (vm_compute; reflexivity).
  destruct (backtrack_failure_restores parallel1 parallel1_node [(va, "CAT")])
    as [T [R _]].
  split; [exact H|]. split; [exact (R _ _ H) | exact T].
Defined.

Lemma consistency_idempotent_witness :
  enforce_node_consistency (enforce_node_consistency (init_domains corner3))
  = enforce_node_consistency (init_domains corner3)
  /\ ac3 corner3 None corner3_arc = Some (Ok true, corner3_arc).
Proof.
  destruct (consistency_idempotent corner3 (init_domains corner3)) as [H1 _].
  destruct (consistency_idempotent corner3 corner3_node) as [_ H2].
  split; [exact H1|].
  apply H2; [reflexivity | vm_compute; reflexivity].
Defined.

(* ================================================================== *)
(** * The scenarios of the specification *)

(** Scenario A: one slot of length 3, vocabulary CAT, DOG. *)
Example scenario_one_slot :
  exists doms log,
    solve (lone ["CAT"; "DOG"]) (init_domains (lone ["CAT"; "DOG"]))
    = Some (Ok (Some [(va, "CAT")]), doms, log).
Proof. eexists _, _. vm_compute. reflexivity. Qed.

(** Scenario C: no word has the length of the slot; node consistency
    empties the domain and the search finds nothing to try. *)
Example scenario_no_word_fits :
  enforce_node_consistency (init_domains (lone ["AB"; "ABCD"])) = [(va, [])]
  /\ solve (lone ["AB"; "ABCD"]) (init_domains (lone ["AB"; "ABCD"]))
     = Some (Ok None, [(va, [])], [[]]).
Proof. split; vm_compute; reflexivity. Qed.

(** Scenario D: two slots that do not meet and one word for both;
    propagation leaves both domains populated, the search fails on
    distinctness. *)
Example scenario_one_word_two_slots :
  solve parallel1 (init_domains parallel1)
  = Some (Ok None, parallel1_node, [[]; [(va, "CAT")]]).
Proof. vm_compute. reflexivity. Qed.

(* ================================================================== *)
(** * Further properties of the assignment predicates *)

Local Close Scope string_scope.

Lemma in_range_overlap c x y a b :
  offsets_in_range c = true ->
  overlap c x y = Some (Some (a, b)) ->
  a < Var.length x /\ b < Var.length y.
Proof.
  intros IR O. unfold offsets_in_range in IR. rewrite forallb_forall in IR.
  assert (I : In (x, y) (Dict.keys (overlaps c))).
  { apply (get_Some_keys _ _ arc_eq_dec). eexists. exact O. }
  specialize (IR _ I). simpl in IR. rewrite O in IR.
  apply andb_true_iff in IR. destruct IR as [A B].
  apply Nat.ltb_lt in A, B. auto.
Qed.

Lemma lengths_checked (a : Assignment) :
  forallb (fun '(variable, value) =>
             Var.length variable =? String.length value) a = true ->
  forall v w, In (v, w) a -> Var.length v = String.length w.
Proof.
  intros H v w I. rewrite forallb_forall in H.
  specialize (H _ I). simpl in H. now apply Nat.eqb_eq.
Qed.

Section ConsistentRuns.
Variables (c : Crossword) (a : Assignment).
Hypothesis WF : wf_crossword c = true.
Hypothesis IR : offsets_in_range c = true.
Hypothesis Lengths : forall v w, In (v, w) a -> Var.length v = String.length w.

Lemma check_neighbours_runs variable value ns :
  Var.length variable = String.length value ->
  incl ns (neighbors c variable) ->
  exists b, check_neighbours c a variable value ns = Ok b.
Proof.
  intros L. induction ns as [|n ns IH]; intros Inc; simpl; [eauto|].
  assert (Inc' : incl ns (neighbors c variable))
    by (intros u Iu; apply Inc; now right).
  destruct (Dict.get Var.eq_dec n a) as [wn|] eqn:G; [|auto].
  assert (N : In n (neighbors c variable)) by (apply Inc; now left).
  apply (wf_neighbors c variable n WF) in N. destruct N as [ix [iy O]].
  rewrite O.
  destruct (in_range_overlap c variable n ix iy IR O) as [Rx Ry].
  destruct (get_in_range value ix) as [p P]; [lia|].
  apply get_In in G. apply Lengths in G.
  destruct (get_in_range wn iy) as [q Q]; [lia|].
  unfold index. rewrite P, Q. simpl.
  destruct (Ascii.eqb p q); eauto.
Qed.

Lemma check_items_runs items :
  incl items a -> exists b, check_items c a items = Ok b.
Proof.
  induction items as [|[v w] items IH]; intros Inc; simpl; [eauto|].
  destruct (check_neighbours_runs v w (neighbors c v)) as [b ->].
  - apply Lengths, Inc. now left.
  - apply incl_refl.
  - simpl. destruct b; [|eauto].
    apply IH. intros u Iu. apply Inc. now right.
Qed.

End ConsistentRuns.

Lemma consistent_runs c a :
  wf_crossword c = true -> offsets_in_range c = true ->
  exists b, consistent c a = Ok b.
Proof.
  intros WF IR. unfold consistent.
  destruct (negb (List.length (nodup string_dec (Dict.values a))
                  =? List.length (Dict.values a))); [eauto|].
  destruct (forallb _ a) eqn:L; simpl; [|eauto].
  apply check_items_runs; auto.
  - now apply lengths_checked.
  - apply incl_refl.
Qed.

Lemma check_neighbours_false c a x wx ns :
  check_neighbours c a x wx ns = Ok false ->
  exists y wy ix iy p q,
    In y ns /\ Dict.get Var.eq_dec y a = Some wy /\
    overlap c x y = Some (Some (ix, iy)) /\
    String.get ix wx = Some p /\ String.get iy wy = Some q /\ p <> q.
Proof.
  induction ns as [|n ns IH]; simpl; intros H; [discriminate|].
  destruct (Dict.get Var.eq_dec n a) as [wn|] eqn:G.
  - destruct (overlap c x n) as [[[ix iy]|]|] eqn:O; try discriminate.
    destruct (index wx ix) as [p|] eqn:P; simpl in H; [|discriminate].
    destruct (index wn iy) as [q|] eqn:Q; simpl in H; [|discriminate].
    destruct (Ascii.eqb p q) eqn:E.
    + destruct (IH H) as (y & wy & ix' & iy' & p' & q' & I & R).
      exists y, wy, ix', iy', p', q'. split; [now right | exact R].
    + exists n, wn, ix, iy, p, q. apply index_Ok in P, Q.
      apply Ascii.eqb_neq in E. repeat split; auto.
  - destruct (IH H) as (y & wy & ix' & iy' & p' & q' & I & R).
    exists y, wy, ix', iy', p', q'. split; [now right | exact R].
Qed.

Lemma check_items_false c a items :
  check_items c a items = Ok false ->
  exists x wx, In (x, wx) items
               /\ check_neighbours c a x wx (neighbors c x) = Ok false.
Proof.
  induction items as [|[v w] items IH]; simpl; intros H; [discriminate|].
  destruct (check_neighbours c a v w (neighbors c v)) as [[|]|] eqn:N;
    simpl in H; try discriminate.
  - destruct (IH H) as (x & wx & I & R). exists x, wx. auto.
  - exists v, w. auto.
Qed.

(** The three ways [consistent] answers [False]. *)
Lemma consistent_false_inv c a :
  consistent c a = Ok false ->
  ~ NoDup (Dict.values a)
  \/ (exists v w, In (v, w) a /\ Var.length v <> String.length w)
  \/ (exists x wx y wy ix iy p q,
         In (x, wx) a /\ Dict.get Var.eq_dec y a = Some wy /\
         overlap c x y = Some (Some (ix, iy)) /\
         String.get ix wx = Some p /\ String.get iy wy = Some q /\ p <> q).
Proof.
  unfold consistent.
  destruct (List.length (nodup string_dec (Dict.values a))
            =? List.length (Dict.values a)) eqn:L; simpl.
  - destruct (forallb _ a) eqn:F; simpl.
    + intros H. right. right.
      destruct (check_items_false _ _ _ H) as (x & wx & I & N).
      destruct (check_neighbours_false _ _ _ _ _ N)
        as (y & wy & ix & iy & p & q & _ & R).
      exists x, wx, y, wy, ix, iy, p, q. auto.
    + intros _. right. left.
      assert (E : exists p, In p a /\
                  (let '(variable, value) := p in
                   Var.length variable =? String.length value) = false).
      { clear - F. induction a as [|p a IH]; simpl in F; [discriminate|].
        apply andb_false_iff in F. destruct F as [F|F].
        - exists p. split; [now left | exact F].
        - destruct (IH F) as [q [I Q]]. exists q. split; [now right | exact Q]. }
      destruct E as [[v w] [I E]]. exists v, w. split; [assumption|].
      now apply Nat.eqb_neq.
  - intros _. left. intros ND.
    rewrite (nodup_fixed_point string_dec ND) in L.
    rewrite Nat.eqb_refl in L. discriminate.
Qed.

Lemma consistent_lengths c a :
  consistent c a = Ok true ->
  forall v w, In (v, w) a -> Var.length v = String.length w.
Proof.
  unfold consistent.
  destruct (negb (List.length (nodup string_dec (Dict.values a))
                  =? List.length (Dict.values a))); [discriminate|].
  destruct (forallb _ a) eqn:F; simpl; [|discriminate].
  intros _. now apply lengths_checked.
Qed.

(** X1.  On a well-formed crossword whose offsets lie within the
    variables, [consistent] never raises, whatever the assignment: the
    length test it makes first keeps the letter test within the words. *)
Theorem consistent_never_raises (c : Crossword) (a : Assignment)
        (WF : wf_crossword c = true) (IR : offsets_in_range c = true) :
  consistent c a = Ok true \/ consistent c a = Ok false.
Proof.
  destruct (consistent_runs c a WF IR) as [[|] H]; auto.
Qed.

(** X2.  On such a crossword [consistent] returns [True] exactly when the
    bound words are pairwise different occurrences, each word has the
    length of its variable, and for every bound pair with an overlap the
    two letters at the offsets are equal. *)
Theorem consistent_exact (c : Crossword) (a : Assignment)
        (WF : wf_crossword c = true) (IR : offsets_in_range c = true) :
  consistent c a = Ok true <->
  NoDup (Dict.values a)
  /\ (forall v w, In (v, w) a -> Var.length v = String.length w)
  /\ (forall x y ix iy wx wy,
         In (x, wx) a -> Dict.get Var.eq_dec y a = Some wy ->
         overlap c x y = Some (Some (ix, iy)) -> agree ix iy wx wy).
Proof.
  split.
  - intros H. split; [|split].
    + now apply consistent_true in H.
    + now apply consistent_lengths with c.
    + intros x y ix iy wx wy I G O.
      apply consistent_true in H. destruct H as [_ CI].
      pose proof (check_items_true c a a CI x wx I) as CN.
      assert (N : In y (neighbors c x)) by (apply wf_neighbors; eauto).
      destruct (check_neighbours_true c a x wx _ CN y wy N G)
        as [ix' [iy' [O' Ag]]].
      rewrite O in O'. inversion O'; subst. exact Ag.
  - intros (ND & L & Ag).
    destruct (consistent_runs c a WF IR) as [[|] H]; [assumption|].
    exfalso. destruct (consistent_false_inv c a H) as [N|[N|N]].
    + contradiction.
    + destruct N as (v & w & I & N). apply N. auto.
    + destruct N as (x & wx & y & wy & ix & iy & p & q & I & G & O & P & Q & N).
      destruct (Ag x y ix iy wx wy I G O) as [ch [P' Q']].
      congruence.
Qed.

(* ================================================================== *)
(** * Further properties of the value ordering *)

Lemma insert_by_perm {A : Type} (key : A -> nat) x l :
  Permutation (insert_by key x l) (x :: l).
Proof.
  induction l as [|h t IH]; simpl; [reflexivity|].
  destruct (key x <=? key h); [reflexivity|].
  rewrite IH. apply perm_swap.
Qed.

Lemma sorted_by_perm {A : Type} (key : A -> nat) l :
  Permutation (sorted_by key l) l.
Proof.
  induction l as [|h t IH]; simpl; [reflexivity|].
  rewrite insert_by_perm. now constructor.
Qed.

Lemma insert_by_map {A B : Type} (f : A -> B) (key : B -> nat) x l :
  insert_by key (f x) (map f l) = map f (insert_by (fun u => key (f u)) x l).
Proof.
  induction l as [|h t IH]; simpl; [reflexivity|].
  destruct (key (f x) <=? key (f h)); simpl; [reflexivity | now rewrite IH].
Qed.

Lemma sorted_by_map {A B : Type} (f : A -> B) (key : B -> nat) l :
  sorted_by key (map f l) = map f (sorted_by (fun u => key (f u)) l).
Proof.
  induction l as [|h t IH]; simpl; [reflexivity|].
  rewrite IH. apply insert_by_map.
Qed.

Lemma sort_keys_long items :
  (forall w, In w items -> 2 <= String.length w) ->
  sort_keys items = Ok (map (fun w => (w, second_letter w)) items).
Proof.
  induction items as [|w items IH]; simpl; intros L; [reflexivity|].
  destruct (get_in_range w 1) as [ch G];
    [specialize (L w (or_introl eq_refl)); lia|].
  unfold index, second_letter. rewrite G. simpl.
  rewrite IH by auto. reflexivity.
Qed.

Lemma sort_keys_inv items keyed :
  sort_keys items = Ok keyed ->
  keyed = map (fun w => (w, second_letter w)) items
  /\ forall w, In w items -> 2 <= String.length w.
Proof.
  revert keyed. induction items as [|w items IH]; simpl; intros keyed H.
  - inversion H. split; [reflexivity | contradiction].
  - unfold index in H. destruct (String.get 1 w) as [ch|] eqn:G;
      simpl in H; [|discriminate].
    destruct (sort_keys items) as [k|]; simpl in H; [|discriminate].
    destruct (IH k eq_refl) as [-> L]. inversion H; subst. split.
    + unfold second_letter. now rewrite G.
    + intros u [<-|I]; [|auto].
      destruct (Nat.le_gt_cases 2 (String.length w)) as [Le|Gt];
        [assumption|].
      rewrite get_out_of_range in G by lia. discriminate.
Qed.

Lemma elimination_counts_keys c doms a var values counts :
  elimination_counts c doms a var values = Ok counts ->
  Dict.keys counts = values.
Proof.
  revert counts. induction values as [|v values IH]; simpl; intros counts H.
  - now inversion H.
  - destruct (count_eliminations c doms a var v (neighbors c var) 0);
      simpl in H; [|discriminate].
    destruct (elimination_counts c doms a var values) as [cs|];
      simpl in H; [|discriminate].
    inversion H; subst. unfold Dict.keys in *. simpl.
    now rewrite (IH cs eq_refl).
Qed.

Lemma sorted_second_letter (d : list string) :
  map fst (sorted_by snd (map (fun w => (w, second_letter w)) d))
  = sorted_by second_letter d.
Proof.
  rewrite (sorted_by_map (fun w => (w, second_letter w)) snd). simpl.
  rewrite map_map. simpl. apply map_id.
Qed.

(** Whatever made the call return, the list is the domain sorted by
    second letter. *)
Lemma order_domain_values_inv c doms var a values :
  order_domain_values c doms var a = Ok values ->
  exists d, domain doms var = Some d
            /\ values = sorted_by second_letter d
            /\ forall w, In w d -> 2 <= String.length w.
Proof.
  unfold order_domain_values.
  destruct (domain doms var) as [d|]; [|discriminate].
  destruct (elimination_counts c doms a var d) as [counts|] eqn:E;
    simpl; [|discriminate].
  rewrite (elimination_counts_keys _ _ _ _ _ _ E).
  destruct (sort_keys d) as [keyed|] eqn:K; simpl; [|discriminate].
  destruct (sort_keys_inv _ _ K) as [-> L].
  intros H. inversion H. exists d. rewrite sorted_second_letter. auto.
Qed.

(** X3.  On a well-formed crossword whose variables all have a domain,
    the list [order_domain_values] returns for a domain of words of two
    letters or more is the domain sorted, stably, by the second letter of
    the words: a rearrangement of the domain that loses and adds no word.
    The assignment plays no part: the elimination counts the function
    computes never reach the sort. *)
Theorem order_domain_values_by_second_letter
        (c : Crossword) (doms : Domains) (var : Var.t) (d : list string)
        (WF : wf_crossword c = true) (Cov : covers c doms = true)
        (D : domain doms var = Some d)
        (Long : forall w, In w d -> 2 <= String.length w) :
  forall a,
    order_domain_values c doms var a = Ok (sorted_by second_letter d)
    /\ Permutation (sorted_by second_letter d) d
    /\ StronglySorted (fun u v => second_letter u <= second_letter v)
                      (sorted_by second_letter d).
Proof.
  intros a. split; [|split].
  - unfold order_domain_values. rewrite D.
    destruct (elimination_counts_ok c doms a var d WF Cov) as [counts [-> K]].
    simpl. rewrite K, (sort_keys_long d Long). simpl.
    now rewrite sorted_second_letter.
  - apply sorted_by_perm.
  - apply sorted_by_sorted.
Qed.

(** X4.  On a well-formed crossword whose variables all have a domain,
    the outcome of [order_domain_values], list or exception, is the same
    for every assignment. *)
Theorem order_domain_values_ignores_assignment
        (c : Crossword) (doms : Domains) (var : Var.t)
        (WF : wf_crossword c = true) (Cov : covers c doms = true) :
  forall a a',
    order_domain_values c doms var a = order_domain_values c doms var a'.
Proof.
  intros a a'. unfold order_domain_values.
  destruct (domain doms var) as [d|]; [|reflexivity].
  destruct (elimination_counts_ok c doms a var d WF Cov) as [c1 [-> K1]].
  destruct (elimination_counts_ok c doms a' var d WF Cov) as [c2 [-> K2]].
  simpl. now rewrite K1, K2.
Qed.

(* ================================================================== *)
(** * Propagation and the solutions of the puzzle *)

Lemma solution_frame c doms doms' s :
  solution c doms s ->
  (forall v d', domain doms' v = Some d' ->
                exists d, domain doms v = Some d /\
                          forall w, In w d -> Dict.get Var.eq_dec v s = Some w ->
                                    In w d') ->
  solution c doms' s.
Proof.
  intros (S1 & S2 & S3 & S4) F. split; [|auto].
  intros v d' D'. destruct (F v d' D') as [d [D K]].
  destruct (S1 v d D) as [w [G I]]. exists w. auto.
Qed.

Lemma enforce_keeps_solution c doms s :
  solution c doms s -> solution c (enforce_node_consistency doms) s.
Proof.
  intros S. apply solution_frame with doms; [assumption|].
  intros v d' D'. rewrite domain_enforce in D'.
  destruct (domain doms v) as [d|]; simpl in D'; [|discriminate].
  inversion D'; subst. exists d. split; [reflexivity|].
  intros w I G. apply filter_In. split; [assumption|].
  destruct S as (_ & _ & S3 & _). unfold right_length.
  apply Nat.eqb_eq. now apply S3.
Qed.

Lemma revise_keeps_solution c doms s x y :
  wf_crossword c = true ->
  solution c doms s -> solution c (snd (revise c x y doms)) s.
Proof.
  intros WF S.
  destruct (revise c x y doms) as [[[|]|e] doms'] eqn:R; simpl.
  - destruct (revise_true_inv _ _ _ _ _ R)
      as (ix & iy & dx & dy & O & Dx & Dy & _ & _ & ->).
    apply solution_frame with doms; [assumption|].
    intros v d' D'. unfold domain in D'.
    destruct (Var.eq_dec v x) as [->|N].
    + rewrite get_set_same in D'. inversion D'; subst d'.
      exists dx. split; [assumption|]. intros w I G.
      apply set_diff_In. split; [assumption|]. intros Rm.
      apply filter_In in Rm. destruct Rm as [_ Rm]. unfold removable in Rm.
      destruct (all_differ w ix iy (set_diff dy [w])) as [[|]|] eqn:A;
        try discriminate.
      destruct S as (S1 & S2 & _ & S4).
      destruct (S1 y dy Dy) as [w' [G' I']].
      destruct (wf_overlap c x y ix iy WF O) as (Nxy & _ & _).
      apply (all_differ_true _ _ _ _ A w').
      * apply set_diff_In. split; [assumption|]. simpl. intros [E|[]].
        subst w'. apply Nxy. apply (S2 x y w G G').
      * apply (S4 x y ix iy w w' O G G').
    + rewrite get_set_other in D' by assumption.
      exists d'. split; [assumption | auto].
  - apply revise_false_inv in R. now destruct R as [_ ->].
  - apply revise_raise_inv in R. now subst.
Qed.

Lemma ac3_loop_keeps_solution c s fuel :
  wf_crossword c = true ->
  forall stack doms out doms',
    solution c doms s ->
    ac3_loop fuel c stack doms = Some (out, doms') ->
    solution c doms' s.
Proof.
  intros WF. induction fuel as [|fuel IH]; intros stack doms out doms' S H;
    destruct stack as [|[x y] rest]; simpl in H; try discriminate;
    try (inversion H; subst; assumption).
  pose proof (revise_keeps_solution c doms s x y WF S) as S'.
  destruct (revise c x y doms) as [[[|]|e] d1]; simpl in S'.
  - destruct (domain d1 x) as [[|w d]|];
      try (inversion H; subst; assumption).
    eapply IH; eauto.
  - eapply IH; eauto.
  - inversion H; subst. assumption.
Qed.

Lemma solution_no_empty_domain c doms s x :
  solution c doms s -> domain doms x <> Some [].
Proof.
  intros (S1 & _) D. destruct (S1 x [] D) as [w [_ []]].
Qed.

(** X5.  Propagation never removes a word a solution uses.  On a
    well-formed crossword, an assignment that solves the puzzle for the
    domains before [enforce_node_consistency()], [revise(x, y)] or
    [ac3(arcs)] solves it for the domains after; and [ac3] does not return
    [False] when the puzzle has a solution. *)
Theorem propagation_keeps_solutions
        (c : Crossword) (doms : Domains) (s : Assignment)
        (WF : wf_crossword c = true) (Sol : solution c doms s) :
  solution c (enforce_node_consistency doms) s
  /\ (forall x y, solution c (snd (revise c x y doms)) s)
  /\ (forall arcs out doms',
         ac3 c arcs doms = Some (out, doms') ->
         solution c doms' s /\ out <> Ok false).
Proof.
  split; [now apply enforce_keeps_solution|]. split.
  - intros x y. now apply revise_keeps_solution.
  - intros arcs out doms' H.
    assert (S' : solution c doms' s).
    { unfold ac3 in H. destruct arcs as [[|a l]|].
      - inversion H; subst. assumption.
      - apply (ac3_loop_keeps_solution c s _ WF _ _ _ _ Sol H).
      - apply (ac3_loop_keeps_solution c s _ WF _ _ _ _ Sol H). }
    split; [assumption|]. intros ->.
    assert (E : exists x, domain doms' x = Some []).
    { unfold ac3 in H. destruct arcs as [[|a l]|].
      - discriminate.
      - apply (ac3_loop_false c _ _ _ _ H).
      - apply (ac3_loop_false c _ _ _ _ H). }
    destruct E as [x E]. now apply (solution_no_empty_domain c doms' s x).
Qed.

(** X6.  [ac3] returns [False] only with an empty domain in the store it
    leaves, and then the store has no solution. *)
Theorem ac3_false_empty_domain
        (c : Crossword) (arcs : option (list arc)) (doms doms' : Domains)
        (Run : ac3 c arcs doms = Some (Ok false, doms')) :
  (exists x, domain doms' x = Some [])
  /\ forall s, ~ solution c doms' s.
Proof.
  assert (E : exists x, domain doms' x = Some []).
  { unfold ac3 in Run. destruct arcs as [[|a l]|].
    - discriminate.
    - apply (ac3_loop_false c _ _ _ _ Run).
    - apply (ac3_loop_false c _ _ _ _ Run). }
  split; [exact E|]. intros s S. destruct E as [x E].
  now apply (solution_no_empty_domain c doms' s x).
Qed.

(** X7.  [revise] is idempotent on a well-formed crossword: after a call
    [revise(x, y)] that returned, a second call returns [False] and
    changes no domain. *)
Theorem revise_idempotent
        (c : Crossword) (doms doms' : Domains) (x y : Var.t) (b : bool)
        (WF : wf_crossword c = true)
        (Run : revise c x y doms = (Ok b, doms')) :
  revise c x y doms' = (Ok false, doms').
Proof.
  apply settled_revise. destruct b.
  - destruct (revise_true_inv _ _ _ _ _ Run)
      as (ix & iy & dx & dy & O & Dx & Dy & Scan & _ & E).
    eapply (revised_arc_settled c WF doms x y ix iy dx dy);
      try reflexivity; eassumption.
  - apply revise_false_inv in Run. now destruct Run as [S ->].
Qed.

(* ================================================================== *)
(** * The search finds a solution when there is one *)

Lemma NoDup_values_of_keys (a : Assignment) :
  NoDup (Dict.keys a) ->
  (forall x y w, In (x, w) a -> In (y, w) a -> x = y) ->
  NoDup (Dict.values a).
Proof.
  unfold Dict.keys, Dict.values.
  induction a as [|[v u] a IH]; simpl; intros NK Inj; [constructor|].
  inversion NK as [|? ? NI NK']; subst. constructor.
  - intros I. apply in_map_iff in I. destruct I as [[v' u'] [E I]].
    simpl in E. subst u'.
    assert (v = v') by (apply (Inj v v' u); auto).
    subst v'. apply NI. change v with (fst (v, u)). now apply in_map.
  - apply IH; [assumption|]. intros x y w Ix Iy. apply (Inj x y w); auto.
Qed.

Lemma consistent_false_no_solution c doms a s :
  NoDup (Dict.keys a) ->
  consistent c a = Ok false ->
  solution c doms s -> extends a s -> False.
Proof.
  intros NK H (S1 & S2 & S3 & S4) E.
  assert (G : forall v w, In (v, w) a -> Dict.get Var.eq_dec v s = Some w).
  { intros v w I. apply E. now apply In_get_unique. }
  destruct (consistent_false_inv c a H) as [N|[N|N]].
  - apply N. apply NoDup_values_of_keys; [assumption|].
    intros x y w Ix Iy. apply (S2 x y w); auto.
  - destruct N as (v & w & I & N). apply N. symmetry. apply S3. auto.
  - destruct N as (x & wx & y & wy & ix & iy & p & q & I & Gy & O & P & Q & N).
    destruct (S4 x y ix iy wx wy O (G _ _ I) (E _ _ Gy)) as [ch [P' Q']].
    congruence.
Qed.

Lemma extends_bind a s var value :
  Dict.get Var.eq_dec var a = None ->
  extends a s -> Dict.get Var.eq_dec var s = Some value ->
  extends (a ++ [(var, value)]) s.
Proof.
  intros F E G v w H. rewrite get_app in H.
  destruct (Dict.get Var.eq_dec v a) as [u|] eqn:Gv.
  - inversion H; subst. now apply E.
  - simpl in H. destruct (Var.eq_dec v var) as [->|]; [|discriminate].
    congruence.
Qed.

Lemma keys_bind (a : Assignment) var value :
  Dict.get Var.eq_dec var a = None ->
  NoDup (Dict.keys a) -> NoDup (Dict.keys (a ++ [(var, value)])).
Proof.
  intros F ND. unfold Dict.keys. rewrite map_app. simpl.
  apply NoDup_app; [assumption | repeat constructor; intros [] | ].
  intros v I [<-|[]]. apply (get_None_keys _ _ Var.eq_dec var a); assumption.
Qed.

Section Exhaustive.
Variables (c : Crossword) (doms : Domains).

(** When the loop ends with [None], every value was tried: it was
    inconsistent or the activation below it returned [None]. *)
Lemma try_values_none (rec : Assignment -> option search) (var : Var.t)
      (a : Assignment) :
  Dict.get Var.eq_dec var a = None ->
  (forall a1 s, rec a1 = Some s -> search_ok c doms a1 s) ->
  forall values log a' t,
    try_values rec c var values a log = Some (Ok None, a', t) ->
    forall value, In value values ->
      consistent c (a ++ [(var, value)]) = Ok false
      \/ exists a2 t2, rec (a ++ [(var, value)]) = Some (Ok None, a2, t2).
Proof.
  intros F Rec. induction values as [|v rest IH];
    intros log a' t H value I; [contradiction|].
  simpl in H. rewrite (set_fresh _ _ Var.eq_dec var v a F) in H.
  destruct (consistent c (a ++ [(var, v)])) as [[|]|e] eqn:Con;
    try discriminate.
  - destruct (rec (a ++ [(var, v)])) as [[[[[r|]|e] a2] t1]|] eqn:R;
      try discriminate.
    + pose proof (Rec _ _ R) as [-> [ext [E _]]].
      assert (T : truthy a2 = true) by (rewrite E; destruct a; reflexivity).
      rewrite T in H. discriminate.
    + pose proof (Rec _ _ R) as E. simpl in E. subst a2.
      rewrite (pop_fresh _ _ Var.eq_dec var v a F) in H.
      destruct I as [<-|I]; [right; eauto | eapply IH; eauto].
  - rewrite (pop_fresh _ _ Var.eq_dec var v a F) in H.
    destruct I as [<-|I]; [now left | eapply IH; eauto].
Qed.

Lemma backtrack_fuel_exhaustive fuel :
  forall a a' t,
    NoDup (Dict.keys a) ->
    backtrack_fuel fuel c doms a = Some (Ok None, a', t) ->
    forall s, solution c doms s -> extends a s -> False.
Proof.
  induction fuel as [|fuel IH]; intros a a' t NK H s S E; simpl in H;
    [discriminate|].
  destruct (assignment_complete doms a); [discriminate|].
  destruct (select_unassigned_variable c doms a) as [var|e] eqn:Sel;
    [|discriminate].
  destruct (order_domain_values c doms var a) as [values|e] eqn:Ord;
    [|discriminate].
  apply select_unassigned in Sel. destruct Sel as [_ M].
  apply mem_false_iff in M.
  destruct (order_domain_values_inv _ _ _ _ _ Ord) as (d & D & -> & _).
  destruct (proj1 S var d D) as [w [G I]].
  destruct (try_values_none _ var a M (backtrack_fuel_ok c doms fuel)
              _ _ _ _ H w) as [Con|[a2 [t2 R]]].
  - now apply sorted_by_In.
  - apply (consistent_false_no_solution c doms _ s (keys_bind a var w M NK)
             Con S (extends_bind a s var w M E G)).
  - apply (IH _ _ _ (keys_bind a var w M NK) R s S
              (extends_bind a s var w M E G)).
Qed.

End Exhaustive.

(** X8.  The search is exhaustive.  When [backtrack(assignment)] returns
    [None] for an assignment without a repeated key, no solution of the
    puzzle for the current domains keeps the bindings of the assignment. *)
Theorem backtrack_none_no_solution
        (c : Crossword) (doms : Domains) (a a' : Assignment)
        (log : list Assignment)
        (Keys : unique (Dict.keys a) = true)
        (Run : backtrack c doms a = Some (Ok None, a', log)) :
  forall s, solution c doms s -> ~ extends a s.
Proof.
  intros s S E.
  apply (backtrack_fuel_exhaustive c doms _ a a' log
           (unique_NoDup _ Keys) Run s S E).
Qed.

(** X9.  [solve()] is complete.  On a well-formed crossword, when
    [solve()] returns [None] the puzzle has no solution for the domains
    the call started from: no assignment gives every variable a word of
    its domain, of its length, all different and agreeing at the
    overlaps. *)
Theorem solve_none_no_solution
        (c : Crossword) (doms doms2 : Domains) (log : list Assignment)
        (WF : wf_crossword c = true)
        (Run : solve c doms = Some (Ok None, doms2, log)) :
  forall s, ~ solution c doms s.
Proof.
  intros s S. unfold solve in Run.
  destruct (ac3 c None (enforce_node_consistency doms))
    as [[[b|e] d2]|] eqn:A; try discriminate.
  destruct (backtrack c d2 []) as [[[out a'] t]|] eqn:B; [|discriminate].
  inversion Run; subst out d2 t. clear Run.
  assert (S2 : solution c doms2 s).
  { unfold ac3 in A.
    apply (ac3_loop_keeps_solution c s _ WF _ _ _ _
             (enforce_keeps_solution c doms s S) A). }
  apply (backtrack_fuel_exhaustive c doms2 _ [] a' log (NoDup_nil _) B s S2).
  intros v w H. discriminate.
Qed.

(* ================================================================== *)
(** * What the search returns is a solution *)

Section Bindings.
Variables (c : Crossword) (doms : Domains).

Lemma try_values_sound (rec : Assignment -> option search) (var : Var.t)
      (d : list string) (a : Assignment) :
  Dict.get Var.eq_dec var a = None ->
  NoDup (Dict.keys a) ->
  domain doms var = Some d ->
  (forall a1 s, rec a1 = Some s -> search_ok c doms a1 s) ->
  (forall a1 s, NoDup (Dict.keys a1) -> rec a1 = Some s -> search_sound doms a1 s) ->
  forall values log s,
    incl values d ->
    try_values rec c var values a log = Some s -> search_sound doms a s.
Proof.
  intros F NK D Rec Snd. induction values as [|v rest IH];
    intros log s Inc H; simpl in H.
  - inversion H; subst. exact I.
  - assert (Inc' : incl rest d) by (intros u Iu; apply Inc; now right).
    rewrite (set_fresh _ _ Var.eq_dec var v a F) in H.
    destruct (consistent c (a ++ [(var, v)])) as [[|]|e].
    + destruct (rec (a ++ [(var, v)])) as [[[[[r|]|e] a2] t1]|] eqn:R;
        try discriminate.
      * pose proof (Rec _ _ R) as [-> [ext [E _]]].
        assert (T : truthy a2 = true) by (rewrite E; destruct a; reflexivity).
        rewrite T in H. inversion H; subst s.
        destruct (Snd _ _ (keys_bind a var v F NK) R) as [ND B].
        split; [assumption|]. intros x w Ix.
        destruct (B x w Ix) as [Ia|Id]; [|now right].
        apply in_app_iff in Ia. destruct Ia as [Ia|[Eq|[]]]; [now left|].
        inversion Eq; subst. right. exists d. split; [assumption|].
        apply Inc. now left.
      * pose proof (Rec _ _ R) as E. simpl in E. subst a2.
        rewrite (pop_fresh _ _ Var.eq_dec var v a F) in H.
        apply (IH _ _ Inc' H).
      * inversion H; subst. exact I.
    + rewrite (pop_fresh _ _ Var.eq_dec var v a F) in H.
      apply (IH _ _ Inc' H).
    + inversion H; subst. exact I.
Qed.

Lemma backtrack_fuel_sound fuel :
  forall a s, NoDup (Dict.keys a) ->
              backtrack_fuel fuel c doms a = Some s -> search_sound doms a s.
Proof.
  induction fuel as [|fuel IH]; intros a s NK H; simpl in H; [discriminate|].
  destruct (assignment_complete doms a).
  - inversion H; subst. simpl. split; [assumption | auto].
  - destruct (select_unassigned_variable c doms a) as [var|e] eqn:Sel.
    + destruct (order_domain_values c doms var a) as [values|e] eqn:Ord.
      * apply select_unassigned in Sel. destruct Sel as [_ M].
        apply mem_false_iff in M.
        destruct (order_domain_values_inv _ _ _ _ _ Ord) as (d & D & -> & _).
        eapply (try_values_sound _ var d a M NK D
                  (backtrack_fuel_ok c doms fuel) IH); [|exact H].
        intros w I. now apply sorted_by_In in I.
      * inversion H; subst. exact I.
    + inversion H; subst. exact I.
Qed.

Lemma backtrack_from_empty r a' t :
  backtrack c doms [] = Some (Ok (Some r), a', t) ->
  NoDup (Dict.keys r)
  /\ forall v w, In (v, w) r -> exists d, domain doms v = Some d /\ In w d.
Proof.
  intros H.
  destruct (backtrack_fuel_sound _ [] _ (NoDup_nil _) H) as [ND B].
  split; [assumption|]. intros v w I.
  destruct (B v w I) as [[]|E]. exact E.
Qed.

End Bindings.

Lemma solve_sound
      (c : Crossword) (doms doms2 : Domains) (r : Assignment)
      (log : list Assignment) :
  wf_crossword c = true ->
  solve c doms = Some (Ok (Some r), doms2, log) ->
  solution c doms r.
Proof.
  intros WF Run.
  unfold solve in Run.
  destruct (ac3 c None (enforce_node_consistency doms))
    as [[[b|e] d2]|] eqn:A; try discriminate.
  destruct (backtrack c d2 []) as [[[out a'] t]|] eqn:B; [|discriminate].
  inversion Run; subst out d2 t. clear Run.
  apply ac3_shrinks in A. destruct A as [Sh K]. rewrite keys_enforce in K.
  pose proof (shrinks_trans _ _ _ (enforce_shrinks doms) Sh) as Sh'.
  destruct (backtrack_from_empty c doms2 r a' log B) as [ND Dom].
  pose proof (backtrack_fuel_ok c doms2 _ [] _ B) as [-> [ext [E [Cm Cs]]]].
  simpl in E. subst ext.
  assert (Con : a' = [] \/ consistent c a' = Ok true) by exact Cs.
  split; [|split; [|split]].
  - intros v d D.
    assert (Iv : In v (Dict.keys doms2)).
    { rewrite K. apply (get_Some_keys _ _ Var.eq_dec). eexists. exact D. }
    destruct (complete_binds doms2 a' v Cm Iv) as [w G].
    exists w. split; [assumption|].
    destruct (Dom v w (get_In _ _ _ _ _ _ G)) as [d2 [D2 I2]].
    destruct (Sh' v d2 D2) as [d0 [D0 Inc]].
    unfold domain in *. rewrite D in D0. inversion D0; subst d0. auto.
  - intros x y w Gx Gy.
    destruct Con as [->|Con]; [discriminate|].
    apply consistent_true in Con. destruct Con as [NV _].
    apply get_In in Gx, Gy. apply (NoDup_values_inj a' x y w NV Gx Gy).
  - intros x w Gx.
    destruct Con as [->|Con]; [discriminate|].
    symmetry. apply (consistent_lengths c a' Con). now apply get_In in Gx.
  - intros x y ix iy wx wy O Gx Gy.
    destruct Con as [->|Con]; [discriminate|].
    apply consistent_true in Con. destruct Con as [_ CI].
    pose proof (check_items_true c a' a' CI x wx (get_In _ _ _ _ _ _ Gx)) as CN.
    assert (Ny : In y (neighbors c x)) by (apply wf_neighbors; eauto).
    destruct (check_neighbours_true c a' x wx _ CN y wy Ny Gy)
      as [ix' [iy' [O' Ag]]].
    rewrite O in O'. inversion O'; subst. exact Ag.
Qed.

(** X10.  [solve()] is sound.  On a well-formed crossword, an assignment
    returned by [solve()] solves the puzzle for the domains the call
    started from: it gives every variable of the store one word, taken
    from the domain the variable had, of the length of the variable; the
    words of different variables differ, and the words of overlapping
    variables agree at the offsets. *)
Theorem solve_returns_solution
        (c : Crossword) (doms doms2 : Domains) (r : Assignment)
        (log : list Assignment)
        (WF : wf_crossword c = true)
        (Run : solve c doms = Some (Ok (Some r), doms2, log)) :
  solution c doms r /\ NoDup (Dict.keys r).
Proof.
  split; [exact (solve_sound c doms doms2 r log WF Run)|].
  unfold solve in Run.
  destruct (ac3 c None (enforce_node_consistency doms))
    as [[[b|e] d2]|]; try discriminate.
  destruct (backtrack c d2 []) as [[[out a'] t]|] eqn:B; [|discriminate].
  inversion Run; subst out d2 t.
  apply (backtrack_from_empty c doms2 r a' log B).
Qed.


(* ================================================================== *)
(** * [solve] does not raise on the crosswords the program builds *)

Lemma NoDup_unique l : NoDup l -> unique l = true.
Proof.
  induction l as [|v l IH]; simpl; intros ND; [reflexivity|].
  inversion ND as [|? ? NI ND']; subst.
  apply andb_true_iff. split; [|auto].
  apply negb_true_iff. destruct (mem_var v l) eqn:M; [|reflexivity].
  apply mem_var_iff in M. contradiction.
Qed.

Lemma node_consistent_enforce doms :
  node_consistent (enforce_node_consistency doms).
Proof.
  intros v d w D I. rewrite domain_enforce in D.
  destruct (domain doms v) as [d0|]; simpl in D; [|discriminate].
  inversion D; subst. apply filter_In in I. destruct I as [_ L].
  now apply Nat.eqb_eq.
Qed.

Lemma node_consistent_shrinks doms doms' :
  shrinks doms doms' -> node_consistent doms -> node_consistent doms'.
Proof.
  intros Sh NC v d' w D' I. destruct (Sh v d' D') as [d [D Inc]].
  apply (NC v d w D). now apply Inc.
Qed.

Lemma covers_keys c doms doms' :
  Dict.keys doms' = Dict.keys doms -> covers c doms = true ->
  covers c doms' = true.
Proof.
  unfold covers. intros K Cov. rewrite forallb_forall in *.
  intros v I. specialize (Cov v I).
  apply mem_true_iff. rewrite K. now apply mem_true_iff in Cov.
Qed.

Lemma covers_domain c doms v :
  covers c doms = true -> In v (variables c) ->
  exists d, domain doms v = Some d.
Proof.
  unfold covers. intros Cov I. rewrite forallb_forall in Cov.
  specialize (Cov v I). apply mem_true_iff in Cov.
  now apply (get_Some_keys _ _ Var.eq_dec).
Qed.

Section Runs.
Variable c : Crossword.
Hypothesis WF : wf_crossword c = true.
Hypothesis IR : offsets_in_range c = true.

Lemma revise_runs doms x y :
  node_consistent doms -> covers c doms = true ->
  overlap c x y <> None ->
  exists b doms', revise c x y doms = (Ok b, doms').
Proof.
  intros NC Cov O. unfold revise.
  destruct (overlap c x y) as [[[ix iy]|]|] eqn:Oxy; [|eauto|congruence].
  destruct (wf_overlap c x y ix iy WF Oxy) as (_ & Ix & Oyx).
  destruct (wf_overlap c y x iy ix WF Oyx) as (_ & Iy & _).
  destruct (in_range_overlap c x y ix iy IR Oxy) as [Rx Ry].
  destruct (covers_domain c doms x Cov Ix) as [dx Dx].
  destruct (covers_domain c doms y Cov Iy) as [dy Dy].
  rewrite Dx. rewrite (revise_scan_total doms y dy ix iy dx Dy); [eauto|].
  intros w I. eexists. apply removable_in_range.
  - rewrite (NC x dx w Dx I). exact Rx.
  - intros w' I'. rewrite (NC y dy w' Dy I'). exact Ry.
Qed.

Lemma ac3_loop_runs fuel :
  forall stack doms out doms',
    node_consistent doms -> covers c doms = true ->
    (forall x y, In (x, y) stack -> overlap c x y <> None) ->
    ac3_loop fuel c stack doms = Some (out, doms') ->
    exists b, out = Ok b.
Proof.
  induction fuel as [|fuel IH]; intros stack doms out doms' NC Cov St H;
    destruct stack as [|[x y] rest]; simpl in H; try discriminate;
    try (inversion H; subst; eauto; fail).
  destruct (revise_runs doms x y NC Cov) as [b [d1 R]];
    [apply St; now left|].
  pose proof (revise_shrinks c x y doms) as Sh.
  pose proof (revise_keys c x y doms) as K.
  rewrite R in *. simpl in Sh, K.
  assert (NC1 : node_consistent d1) by (eapply node_consistent_shrinks; eauto).
  assert (Cov1 : covers c d1 = true) by (eapply covers_keys; eauto).
  destruct b.
  - destruct (domain d1 x) as [[|w d]|] eqn:D1.
    + inversion H; subst. eauto.
    + apply (IH _ _ _ _ NC1 Cov1) in H; [assumption|].
      intros a b I. apply push_neighbours_In in I.
      destruct I as [I|[n [E [N _]]]]; [apply St; now right|].
      inversion E; subst. unfold neighbors in N. apply filter_In in N.
      destruct N as [_ N]. destruct (overlap c n x); congruence.
    + exfalso.
      destruct (revise_true_inv _ _ _ _ _ R)
        as (ix & iy & dx & dy & _ & _ & _ & _ & _ & ->).
      unfold domain in D1. rewrite get_set_same in D1. discriminate.
  - apply (IH _ _ _ _ NC1 Cov1) in H; [assumption|].
    intros a b I. apply St. now right.
Qed.

Lemma ac3_runs doms out doms' :
  node_consistent doms -> covers c doms = true ->
  ac3 c None doms = Some (out, doms') -> exists b, out = Ok b.
Proof.
  intros NC Cov H. unfold ac3 in H.
  apply (ac3_loop_runs _ _ _ _ _ NC Cov) in H; [assumption|].
  intros x y I. apply in_rev in I.
  apply (get_Some_keys _ _ arc_eq_dec) in I. destruct I as [o G].
  unfold overlap. congruence.
Qed.

Variable doms : Domains.
Hypothesis NC : node_consistent doms.
Hypothesis Cov : covers c doms = true.
Hypothesis Uniq : NoDup (Dict.keys doms).
Hypothesis Long : long_variables doms = true.

Lemma long_words var d w :
  domain doms var = Some d -> In w d -> 2 <= String.length w.
Proof.
  intros D I. rewrite (NC var d w D I).
  unfold long_variables in Long. rewrite forallb_forall in Long.
  apply Nat.leb_le. apply Long.
  apply (get_Some_keys _ _ Var.eq_dec). eexists. exact D.
Qed.

Lemma searched_bind a var d w :
  searched doms a -> Dict.get Var.eq_dec var a = None ->
  domain doms var = Some d -> In w d ->
  searched doms (a ++ [(var, w)]).
Proof.
  intros (ND & Inc & NE) F D I. split; [|split].
  - now apply keys_bind.
  - unfold Dict.keys. rewrite map_app. simpl. intros v Iv.
    apply in_app_iff in Iv. destruct Iv as [Iv|[<-|[]]]; [now apply Inc|].
    apply (get_Some_keys _ _ Var.eq_dec). eexists. exact D.
  - intros v u Iu. apply in_app_iff in Iu. destruct Iu as [Iu|[E|[]]].
    + now apply (NE v u).
    + injection E as Ev Eu. subst v u.
      pose proof (long_words var d w D I) as L.
      intros ->. simpl in L. lia.
Qed.

Lemma select_runs a :
  searched doms a -> assignment_complete doms a = false ->
  exists var, select_unassigned_variable c doms a = Ok var.
Proof.
  intros (ND & Inc & NE) Cm. unfold assignment_complete in Cm.
  apply andb_false_iff in Cm. destruct Cm as [Cm|Cm].
  - assert (E : exists v, In v (Dict.keys doms)
                          /\ Dict.mem Var.eq_dec v a = false).
    { clear - Cm. induction (Dict.keys doms) as [|v l IH]; simpl in Cm;
        [discriminate|].
      apply andb_false_iff in Cm. destruct Cm as [Cm|Cm].
      - exists v. split; [now left | assumption].
      - destruct (IH Cm) as [u [I M]]. exists u. split; [now right | exact M]. }
    destruct E as [v0 [I0 M0]].
    destruct (select_minimal c doms a v0) as [var [Sel _]]; eauto.
    + now apply NoDup_unique.
    + now apply NoDup_unique.
    + apply forallb_forall. intros v Iv. apply mem_true_iff. now apply Inc.
  - exfalso.
    assert (T : forallb (fun '(_, value) =>
                           negb (String.eqb value EmptyString)) a = true).
    { apply forallb_forall. intros [v w] I. apply negb_true_iff.
      apply String.eqb_neq. now apply (NE v w). }
    congruence.
Qed.

Lemma try_values_runs (rec : Assignment -> option search) (var : Var.t)
      (d : list string) (a : Assignment) :
  searched doms a -> Dict.get Var.eq_dec var a = None ->
  domain doms var = Some d ->
  (forall a1 s, rec a1 = Some s -> search_ok c doms a1 s) ->
  (forall a1 out a2 t, searched doms a1 -> rec a1 = Some (out, a2, t) ->
                       exists r, out = Ok r) ->
  forall values log out a' t,
    incl values d ->
    try_values rec c var values a log = Some (out, a', t) ->
    exists r, out = Ok r.
Proof.
  intros Sa F D Rec Runs. induction values as [|v rest IH];
    intros log out a' t Inc H; simpl in H.
  - inversion H; subst. eauto.
  - assert (Inc' : incl rest d) by (intros u Iu; apply Inc; now right).
    assert (Iv : In v d) by (apply Inc; now left).
    rewrite (set_fresh _ _ Var.eq_dec var v a F) in H.
    destruct (consistent_runs c (a ++ [(var, v)]) WF IR) as [b Con].
    rewrite Con in H. destruct b.
    + destruct (rec (a ++ [(var, v)])) as [[[o a2] t1]|] eqn:R;
        [|discriminate].
      destruct (Runs _ _ _ _ (searched_bind a var d v Sa F D Iv) R) as [r ->].
      pose proof (Rec _ _ R) as Spec. destruct r as [r|].
      * destruct Spec as [-> [ext [E _]]].
        assert (T : truthy a2 = true) by (rewrite E; destruct a; reflexivity).
        rewrite T in H. inversion H; subst. eauto.
      * simpl in Spec. subst a2.
        rewrite (pop_fresh _ _ Var.eq_dec var v a F) in H.
        apply (IH _ _ _ _ Inc' H).
    + rewrite (pop_fresh _ _ Var.eq_dec var v a F) in H.
      apply (IH _ _ _ _ Inc' H).
Qed.

Lemma backtrack_fuel_runs fuel :
  forall a out a' t,
    searched doms a -> backtrack_fuel fuel c doms a = Some (out, a', t) ->
    exists r, out = Ok r.
Proof.
  induction fuel as [|fuel IH]; intros a out a' t Sa H; simpl in H;
    [discriminate|].
  destruct (assignment_complete doms a) eqn:Cm.
  - inversion H; subst. eauto.
  - destruct (select_runs a Sa Cm) as [var Sel]. rewrite Sel in H.
    apply select_unassigned in Sel. destruct Sel as [Iv M].
    apply mem_false_iff in M.
    apply (get_Some_keys _ _ Var.eq_dec) in Iv. destruct Iv as [d D].
    assert (Ord : order_domain_values c doms var a
                  = Ok (sorted_by second_letter d)).
    { unfold order_domain_values, domain. rewrite D.
      destruct (elimination_counts_ok c doms a var d WF Cov)
        as [counts [-> K]].
      simpl. rewrite K, (sort_keys_long d (fun w => long_words var d w D)). simpl.
      now rewrite sorted_second_letter. }
    rewrite Ord in H.
    eapply (try_values_runs _ var d a Sa M D (backtrack_fuel_ok c doms fuel)
              IH); [|exact H].
    intros w I. now apply sorted_by_In in I.
Qed.

End Runs.

(** X11.  [solve()] raises nothing on the crosswords the program builds.
    On a well-formed crossword whose offsets lie within the variables,
    for a store that has one domain for each variable and only variables
    of two cells or more, [solve()] ends and returns an assignment or
    [None]: node consistency first makes every index of [revise],
    [consistent] and [order_domain_values] valid. *)
Theorem solve_never_raises
        (c : Crossword) (doms : Domains)
        (WF : wf_crossword c = true) (IR : offsets_in_range c = true)
        (Uniq : unique (Dict.keys doms) = true)
        (Cov : covers c doms = true)
        (Long : long_variables doms = true) :
  exists r doms2 log, solve c doms = Some (Ok r, doms2, log).
Proof.
  destruct (solve_terminates c doms) as [[[out doms2] log] H].
  rewrite H. unfold solve in H.
  assert (NC1 : node_consistent (enforce_node_consistency doms))
    by apply node_consistent_enforce.
  assert (Cov1 : covers c (enforce_node_consistency doms) = true)
    by (apply covers_keys with doms; [apply keys_enforce | assumption]).
  destruct (ac3 c None (enforce_node_consistency doms))
    as [[o d2]|] eqn:A; [|discriminate].
  destruct (ac3_runs c WF IR _ _ _ NC1 Cov1 A) as [b ->].
  pose proof (ac3_shrinks _ _ _ _ _ A) as [Sh K].
  destruct (backtrack c d2 []) as [[[out' a'] t]|] eqn:B; [|discriminate].
  inversion H; subst out' d2 t. clear H.
  assert (K2 : Dict.keys doms2 = Dict.keys doms)
    by (rewrite K; apply keys_enforce).
  assert (NC2 : node_consistent doms2)
    by (eapply node_consistent_shrinks; eauto).
  assert (Cov2 : covers c doms2 = true) by (eapply covers_keys; eauto).
  assert (Uniq2 : NoDup (Dict.keys doms2))
    by (rewrite K2; now apply unique_NoDup).
  assert (Long2 : long_variables doms2 = true)
    by (unfold long_variables in *; now rewrite K2).
  assert (S0 : searched doms2 []).
  { split; [constructor|]. split; [intros v []|intros v w []]. }
  destruct (backtrack_fuel_runs c WF IR doms2 NC2 Cov2 Uniq2 Long2
              _ _ _ _ _ S0 B) as [r ->].
  eauto.
Qed.

(* ================================================================== *)
(** * The letter grid *)

Lemma list_set_length {A : Type} n (x : A) l :
  List.length (list_set n x l) = List.length l.
Proof.
  revert n. induction l as [|h t IH]; intros [|n]; simpl; auto.
Qed.

Lemma nth_error_list_set {A : Type} n m (x : A) l :
  nth_error (list_set n x l) m
  = if (m =? n) && (n <? List.length l) then Some x else nth_error l m.
Proof.
  revert n m. induction l as [|h t IH]; intros [|n] m; simpl.
  - now rewrite andb_false_r.
  - now rewrite andb_false_r.
  - destruct m as [|m]; reflexivity.
  - destruct m as [|m]; simpl; [reflexivity|]. rewrite IH. reflexivity.
Qed.

Lemma Forall_list_set {A : Type} (P : A -> Prop) n x l :
  Forall P l -> P x -> Forall P (list_set n x l).
Proof.
  intros F Px. revert n. induction F as [|h t Ph F IH]; intros [|n]; simpl;
    constructor; auto.
Qed.

Lemma shaped_row h w g i row :
  shaped h w g -> nth_error g i = Some row -> List.length row = w /\ i < h.
Proof.
  intros [L F] N. split.
  - rewrite Forall_forall in F. apply F. eapply nth_error_In; eauto.
  - rewrite <- L. apply nth_error_Some. congruence.
Qed.

Lemma shaped_cell h w g i j :
  shaped h w g -> i < h -> j < w -> exists x, cell g i j = Some x.
Proof.
  intros S Hi Hj. unfold cell.
  destruct (nth_error g i) as [row|] eqn:N.
  - destruct (shaped_row h w g i row S N) as [Lr _].
    destruct (nth_error row j) as [x|] eqn:Nj; [eauto|].
    apply nth_error_None in Nj. lia.
  - apply nth_error_None in N. destruct S as [L _]. lia.
Qed.

Lemma set_cell_raise g i j ch e : set_cell g i j ch = Raise e -> e = IndexError.
Proof.
  unfold set_cell. destruct (nth_error g i) as [row|]; [|congruence].
  destruct (j <? List.length row); congruence.
Qed.

Lemma set_cell_Ok h w g i j ch g' :
  shaped h w g -> set_cell g i j ch = Ok g' ->
  shaped h w g' /\ i < h /\ j < w
  /\ forall i' j', cell g' i' j'
                   = if (i' =? i) && (j' =? j) then Some (Some ch)
                     else cell g i' j'.
Proof.
  intros S H. unfold set_cell in H.
  destruct (nth_error g i) as [row|] eqn:N; [|discriminate].
  destruct (j <? List.length row) eqn:Lj; [|discriminate].
  inversion H; subst g'. clear H. apply Nat.ltb_lt in Lj.
  destruct (shaped_row h w g i row S N) as [Lr Hi].
  destruct S as [L F]. split; [|split; [assumption|split; [lia|]]].
  - split; [now rewrite list_set_length|].
    apply Forall_list_set; [assumption|]. now rewrite list_set_length.
  - intros i' j'. unfold cell. rewrite nth_error_list_set.
    assert (Li : (i <? List.length g) = true) by (apply Nat.ltb_lt; lia).
    rewrite Li, andb_true_r.
    destruct (i' =? i) eqn:Ei; simpl.
    + apply Nat.eqb_eq in Ei. subst i'. rewrite nth_error_list_set, N.
      assert (Lj' : (j <? List.length row) = true) by (apply Nat.ltb_lt; lia).
      rewrite Lj', andb_true_r. reflexivity.
    + reflexivity.
Qed.

Lemma set_cell_in_range h w g i j ch :
  shaped h w g -> i < h -> j < w -> exists g', set_cell g i j ch = Ok g'.
Proof.
  intros S Hi Hj. unfold set_cell.
  destruct (nth_error g i) as [row|] eqn:N.
  - destruct (shaped_row h w g i row S N) as [Lr _].
    assert (Lj : (j <? List.length row) = true) by (apply Nat.ltb_lt; lia).
    rewrite Lj. eauto.
  - apply nth_error_None in N. destruct S as [L _]. lia.
Qed.

Lemma blank_grid_inv h w : grid_inv h w (fun _ _ _ => False) (blank_grid h w).
Proof.
  assert (S : shaped h w (blank_grid h w)).
  { unfold shaped, blank_grid. split; [apply repeat_length|].
    apply Forall_forall. intros row I. apply repeat_spec in I. subst.
    apply repeat_length. }
  split; [assumption|]. split; [|intros i j ch []].
  intros i j ch C. unfold cell, blank_grid in C.
  destruct (nth_error (repeat (repeat None w) h) i) as [row|] eqn:N;
    [|discriminate].
  apply nth_error_In, repeat_spec in N. subst.
  apply nth_error_In, repeat_spec in C. discriminate.
Qed.

Section Writing.
Variables (h w : nat).

(** One more letter on the grid. *)
Lemma grid_inv_set_cell (P : nat -> nat -> ascii -> Prop) g i j ch g' :
  grid_inv h w P g -> set_cell g i j ch = Ok g' ->
  grid_inv h w (fun i' j' ch' => P i' j' ch' \/ (i' = i /\ j' = j /\ ch' = ch))
           g'.
Proof.
  intros (S & A & B) H.
  destruct (set_cell_Ok h w g i j ch g' S H) as (S' & Hi & Hj & C).
  split; [assumption|]. split.
  - intros i' j' ch' E. rewrite C in E.
    destruct ((i' =? i) && (j' =? j)) eqn:T.
    + apply andb_true_iff in T. destruct T as [Ti Tj].
      apply Nat.eqb_eq in Ti, Tj. inversion E. auto.
    + left. auto.
  - intros i' j' ch' [Pw|(-> & -> & ->)].
    + rewrite C. destruct ((i' =? i) && (j' =? j)); eauto.
    + rewrite C, !Nat.eqb_refl. simpl. eauto.
Qed.

Lemma grid_inv_ext (P Q : nat -> nat -> ascii -> Prop) g :
  (forall i j ch, P i j ch <-> Q i j ch) -> grid_inv h w P g -> grid_inv h w Q g.
Proof.
  intros E (S & A & B). split; [assumption|]. split.
  - intros i j ch C. apply E. auto.
  - intros i j ch Qw. apply E in Qw. eauto.
Qed.

Lemma write_word_Ok variable word ks :
  forall (P : nat -> nat -> ascii -> Prop) g g',
    grid_inv h w P g ->
    write_word variable word ks g = Ok g' ->
    grid_inv h w
      (fun i j ch => P i j ch \/
         exists k, In k ks /\ String.get k word = Some ch
                   /\ cell_of variable k = (i, j)) g'
    /\ forall k, In k ks -> fst (cell_of variable k) < h
                            /\ snd (cell_of variable k) < w.
Proof.
  induction ks as [|k ks IH]; intros P g g' Inv H; cbn [write_word bind] in H.
  - inversion H; subst. split; [|intros k []].
    apply grid_inv_ext with P; [|assumption].
    intros i j ch. split; [auto|]. intros [Pw|[k [[] _]]]. exact Pw.
  - destruct (index word k) as [ch0|] eqn:X; cbn [write_word bind] in H; [|discriminate].
    destruct (set_cell g (fst (cell_of variable k)) (snd (cell_of variable k))
                       ch0) as [g1|] eqn:SC; cbn [write_word bind] in H; [|discriminate].
    pose proof (grid_inv_set_cell P g _ _ _ g1 Inv SC) as Inv1.
    destruct (set_cell_Ok h w g _ _ _ g1 (proj1 Inv) SC) as (_ & Hi & Hj & _).
    destruct (IH _ g1 g' Inv1 H) as [Inv' R]. split.
    + eapply grid_inv_ext; [|exact Inv']. intros i j ch. split.
      * intros [[Pw|(-> & -> & ->)]|[k' [I' [G' C']]]].
        -- now left.
        -- right. exists k. split; [now left|]. split.
           ++ now apply index_Ok.
           ++ now destruct (cell_of variable k).
        -- right. exists k'. split; [now right | auto].
      * intros [Pw|[k' [[<-|I'] [G' C']]]].
        -- left. now left.
        -- left. right. apply index_Ok in X. rewrite C'. simpl.
           repeat split. congruence.
        -- right. exists k'. auto.
    + intros k' [<-|I']; auto.
Qed.

Lemma write_word_runs variable word ks :
  forall (P : nat -> nat -> ascii -> Prop) g,
    grid_inv h w P g ->
    (forall k, In k ks -> k < String.length word) ->
    (forall k, In k ks -> fst (cell_of variable k) < h
                          /\ snd (cell_of variable k) < w) ->
    exists g', write_word variable word ks g = Ok g'.
Proof.
  induction ks as [|k ks IH]; intros P g Inv Lk R; cbn [write_word]; [eauto|].
  destruct (get_in_range word k) as [ch G]; [apply Lk; now left|].
  unfold index. rewrite G. cbn [bind].
  destruct (R k (or_introl eq_refl)) as [Hi Hj].
  destruct (set_cell_in_range h w g _ _ ch (proj1 Inv) Hi Hj) as [g1 SC].
  rewrite SC. cbn [bind].
  apply (IH _ g1 (grid_inv_set_cell P g _ _ _ g1 Inv SC)).
  - intros k' I. apply Lk. now right.
  - intros k' I. apply R. now right.
Qed.

Lemma write_word_raise variable word ks :
  forall g e, write_word variable word ks g = Raise e -> e = IndexError.
Proof.
  induction ks as [|k ks IH]; intros g e H; cbn [write_word bind] in H; [discriminate|].
  unfold index in H. destruct (String.get k word) as [ch|]; cbn [write_word bind] in H;
    [|congruence].
  destruct (set_cell g (fst (cell_of variable k)) (snd (cell_of variable k)) ch)
    as [g1|e1] eqn:SC; cbn [write_word bind] in H.
  - eauto.
  - apply set_cell_raise in SC. congruence.
Qed.

Lemma covers_cell_seq variable word i j ch :
  covers_cell variable word i j ch <->
  exists k, In k (seq 0 (String.length word))
            /\ String.get k word = Some ch /\ cell_of variable k = (i, j).
Proof.
  unfold covers_cell. split.
  - intros [k [G C]]. exists k. split; [|auto].
    apply in_seq. split; [lia|]. simpl.
    destruct (Nat.lt_ge_cases k (String.length word)) as [L|L]; [assumption|].
    rewrite get_out_of_range in G by assumption. discriminate.
  - intros [k [_ [G C]]]. eauto.
Qed.

Lemma write_items_Ok items :
  forall (P : nat -> nat -> ascii -> Prop) g g',
    grid_inv h w P g ->
    write_items items g = Ok g' ->
    grid_inv h w
      (fun i j ch => P i j ch \/
         exists variable word, In (variable, word) items
                               /\ covers_cell variable word i j ch) g'
    /\ fits h w items.
Proof.
  induction items as [|[v word] items IH]; intros P g g' Inv H; simpl in H.
  - inversion H; subst. split; [|intros v word k []].
    apply grid_inv_ext with P; [|assumption].
    intros i j ch. split; [auto|]. intros [Pw|[v [word [[] _]]]]. exact Pw.
  - destruct (write_word v word (seq 0 (String.length word)) g) as [g1|] eqn:W;
      simpl in H; [|discriminate].
    destruct (write_word_Ok v word _ P g g1 Inv W) as [Inv1 R1].
    destruct (IH _ g1 g' Inv1 H) as [Inv' F]. split.
    + eapply grid_inv_ext; [|exact Inv']. intros i j ch. split.
      * intros [[Pw|Wr]|[v' [word' [I' C']]]].
        -- now left.
        -- right. exists v, word. split; [now left|].
           now apply covers_cell_seq.
        -- right. exists v', word'. split; [now right | assumption].
      * intros [Pw|[v' [word' [[E|I'] C']]]].
        -- left. now left.
        -- inversion E; subst v' word'. left. right.
           now apply covers_cell_seq.
        -- right. exists v', word'. auto.
    + intros v' word' k [E|I'] Lk.
      * inversion E; subst v' word'. apply R1. apply in_seq. lia.
      * now apply (F v' word' k).
Qed.

Lemma write_items_runs items :
  forall (P : nat -> nat -> ascii -> Prop) g,
    grid_inv h w P g -> fits h w items ->
    exists g', write_items items g = Ok g'.
Proof.
  induction items as [|[v word] items IH]; intros P g Inv F; simpl; [eauto|].
  destruct (write_word_runs v word (seq 0 (String.length word)) P g Inv)
    as [g1 W].
  - intros k I. apply in_seq in I. lia.
  - intros k I. apply in_seq in I. apply (F v word k); [now left | lia].
  - rewrite W. simpl.
    destruct (write_word_Ok v word _ P g g1 Inv W) as [Inv1 _].
    apply (IH _ g1 Inv1). intros v' word' k I. apply F. now right.
Qed.

Lemma write_items_raise items :
  forall g e, write_items items g = Raise e -> e = IndexError.
Proof.
  induction items as [|[v word] items IH]; intros g e H; simpl in H;
    [discriminate|].
  destruct (write_word v word (seq 0 (String.length word)) g) as [g1|e1] eqn:W;
    simpl in H.
  - eauto.
  - apply write_word_raise in W. congruence.
Qed.

End Writing.

(** X12.  [letter_grid] returns a grid exactly when every letter of every
    bound word has a cell within [height] and [width]; otherwise it
    raises [IndexError], and nothing else. *)
Theorem letter_grid_fits (height width : nat) (a : Assignment) :
  (fits height width a -> exists g, letter_grid height width a = Ok g)
  /\ (forall g, letter_grid height width a = Ok g -> fits height width a)
  /\ (forall e, letter_grid height width a = Raise e -> e = IndexError).
Proof.
  unfold letter_grid. split; [|split].
  - intros F. apply (write_items_runs height width a _ _
                       (blank_grid_inv height width) F).
  - intros g H.
    apply (write_items_Ok height width a _ _ g
             (blank_grid_inv height width) H).
  - intros e H. now apply write_items_raise in H.
Qed.

(** X13.  The grid [letter_grid] returns has [height] rows of [width]
    cells.  A cell holds a letter exactly when a bound word covers it,
    and the letter it holds is the letter one such word has there; a cell
    no bound word covers holds [None]. *)
Theorem letter_grid_cells (height width : nat) (a : Assignment) (g : Grid)
        (Run : letter_grid height width a = Ok g) :
  shaped height width g
  /\ (forall i j ch,
         cell g i j = Some (Some ch) ->
         exists variable word,
           In (variable, word) a /\ covers_cell variable word i j ch)
  /\ (forall variable word i j ch,
         In (variable, word) a -> covers_cell variable word i j ch ->
         exists ch', cell g i j = Some (Some ch'))
  /\ (forall i j,
         i < height -> j < width ->
         (forall variable word ch,
             In (variable, word) a -> ~ covers_cell variable word i j ch) ->
         cell g i j = Some None).
Proof.
  unfold letter_grid in Run.
  destruct (write_items_Ok height width a _ _ g
              (blank_grid_inv height width) Run) as [(S & A & B) _].
  split; [assumption|]. split; [|split].
  - intros i j ch C. destruct (A i j ch C) as [[]|E]. exact E.
  - intros v word i j ch I C. apply (B i j ch). right. eauto.
  - intros i j Hi Hj No.
    destruct (shaped_cell height width g i j S Hi Hj) as [[ch|] C];
      [|assumption].
    exfalso. destruct (A i j ch C) as [[]|[v [word [I Cv]]]].
    apply (No v word ch I Cv).
Qed.

(* ================================================================== *)
(** * Further properties of the selection and of the search *)

(** X14.  [select_unassigned_variable] never returns a variable of the
    assignment, nor one that is not a key of the store; and the only
    exception it raises is [ValueError]: the two [[0]] it takes of sorted
    lists are taken of lists that are not empty. *)
Theorem select_unassigned_variable_safe
        (c : Crossword) (doms : Domains) (a : Assignment) :
  (forall var, select_unassigned_variable c doms a = Ok var ->
               In var (Dict.keys doms)
               /\ Dict.get Var.eq_dec var a = None)
  /\ (forall e, select_unassigned_variable c doms a = Raise e ->
                e = ValueError).
Proof.
  split.
  - intros var H. apply select_unassigned in H. destruct H as [I M].
    split; [assumption | now apply mem_false_iff].
  - intros e. unfold select_unassigned_variable.
    destruct (List.length doms <=? List.length a); [congruence|].
    set (V := map (fun '(var, d) => (var, List.length d))
                  (filter (fun '(var, _) =>
                             negb (Dict.mem Var.eq_dec var a)) doms)).
    destruct V as [|[v0 n0] [|p V']] eqn:EV; try congruence.
    destruct (sorted_by snd ((v0, n0) :: p :: V')) as [|[v1 m] s1] eqn:S1.
    { exfalso.
      assert (I : In (v0, n0) (sorted_by snd ((v0, n0) :: p :: V')))
        by (apply sorted_by_In; now left).
      rewrite S1 in I. contradiction. }
    destruct (sorted_by_desc (degree c)
                (map fst (filter (fun p0 => snd p0 =? m) ((v1, m) :: s1))))
      as [|v s2] eqn:S2; [|congruence].
    exfalso.
    assert (I : In v1 (sorted_by_desc (degree c)
                  (map fst (filter (fun p0 => snd p0 =? m) ((v1, m) :: s1))))).
    { apply sorted_by_desc_In. simpl. rewrite Nat.eqb_refl. now left. }
    rewrite S2 in I. contradiction.
Qed.

(** X15.  What [backtrack] returns on success is the assignment
    dictionary itself, as the call leaves it: the bindings it had when the
    call began, in their place, followed by the bindings the search
    added; and it is complete. *)
Theorem backtrack_success_extends
        (c : Crossword) (doms : Domains) (a a' r : Assignment)
        (log : list Assignment)
        (Run : backtrack c doms a = Some (Ok (Some r), a', log)) :
  r = a'
  /\ (exists ext, r = a ++ ext)
  /\ extends a r
  /\ assignment_complete doms r = true.
Proof.
  pose proof (backtrack_fuel_ok c doms _ a _ Run) as [-> [ext [E [Cm _]]]].
  split; [reflexivity|]. split; [eauto|]. split; [|assumption].
  intros v w G. rewrite E, get_app, G. reflexivity.
Qed.

(** X16.  The store [__init__] builds has the variables of the crossword
    as its keys, in their order, each with the whole vocabulary as its
    domain; node consistency then leaves each variable the words of the
    vocabulary that have its length. *)
Theorem init_domains_spec (c : Crossword) :
  Dict.keys (init_domains c) = variables c
  /\ covers c (init_domains c) = true
  /\ (forall v, In v (variables c) ->
                domain (init_domains c) v = Some (words c)
                /\ domain (enforce_node_consistency (init_domains c)) v
                   = Some (filter (fun w => String.length w =? Var.length v)
                                  (words c)))
  /\ (forall v, ~ In v (variables c) -> domain (init_domains c) v = None).
Proof.
  assert (K : Dict.keys (init_domains c) = variables c).
  { unfold Dict.keys, init_domains. rewrite map_map. simpl. apply map_id. }
  assert (D : forall v, In v (variables c) ->
                        domain (init_domains c) v = Some (words c)).
  { intros v. unfold domain, init_domains.
    generalize (variables c). intros l.
    induction l as [|u l IH]; simpl; intros I; [contradiction|].
    destruct (Var.eq_dec v u); [reflexivity|].
    destruct I as [E|I]; [congruence | auto]. }
  split; [exact K|]. split; [|split].
  - unfold covers. apply forallb_forall. intros v I.
    apply mem_true_iff. now rewrite K.
  - intros v I. split; [auto|].
    rewrite domain_enforce, (D v I). reflexivity.
  - intros v N. apply (get_None_keys _ _ Var.eq_dec). now rewrite K.
Qed.

(* ================================================================== *)
(** * Ties in the selection go to the first variable of the store *)

Lemma filter_insert_by {A : Type} (key : A -> nat) (m : nat) x l :
  filter (fun p => key p =? m) (insert_by key x l)
  = if key x =? m then x :: filter (fun p => key p =? m) l
    else filter (fun p => key p =? m) l.
Proof.
  induction l as [|h t IH]; simpl; [reflexivity|].
  destruct (key x <=? key h) eqn:L; simpl; [reflexivity|].
  rewrite IH. apply Nat.leb_gt in L.
  destruct (key h =? m) eqn:Eh; [|reflexivity].
  destruct (key x =? m) eqn:Ex; [|reflexivity].
  apply Nat.eqb_eq in Eh, Ex. lia.
Qed.

(** A stable sort keeps the elements of one key in their order. *)
Lemma filter_sorted_by {A : Type} (key : A -> nat) (m : nat) l :
  filter (fun p => key p =? m) (sorted_by key l)
  = filter (fun p => key p =? m) l.
Proof.
  induction l as [|h t IH]; simpl; [reflexivity|].
  rewrite filter_insert_by, IH. reflexivity.
Qed.

(** The head of the stable descending sort is the first element of
    greatest key. *)
Lemma sorted_by_desc_first {A : Type} (key : A -> nat) l h t :
  sorted_by_desc key l = h :: t ->
  exists l1 l2, l = l1 ++ h :: l2
                /\ (forall u, In u l1 -> key u < key h)
                /\ (forall u, In u l2 -> key u <= key h).
Proof.
  revert h t. induction l as [|x l IH]; simpl; intros h t H; [discriminate|].
  destruct (sorted_by_desc key l) as [|h' t'] eqn:S.
  - assert (E : l = []).
    { destruct l as [|y l']; [reflexivity|].
      assert (I : In y (sorted_by_desc key (y :: l')))
        by (apply sorted_by_desc_In; now left).
      rewrite S in I. contradiction. }
    subst l. simpl in H. inversion H; subst.
    exists [], []. repeat split; intros u [].
  - destruct (IH h' t' eq_refl) as (l1 & l2 & E & B & Af).
    simpl in H. destruct (key h' <=? key x) eqn:L.
    + injection H as Eh Et. subst h. apply Nat.leb_le in L.
      exists [], l. split; [reflexivity|]. split; [intros u []|].
      intros u I. rewrite E in I. apply in_app_iff in I.
      destruct I as [I|[<-|I]].
      * specialize (B u I). lia.
      * assumption.
      * specialize (Af u I). lia.
    + injection H as Eh Et. subst h'. apply Nat.leb_gt in L.
      exists (x :: l1), l2. split; [now rewrite E|]. split; [|assumption].
      intros u [<-|I]; auto.
Qed.

Lemma map_filter_split {A B : Type} (f : A -> B) (q : A -> bool) l :
  forall l1 x l2,
    map f (filter q l) = l1 ++ x :: l2 ->
    exists d1 e d2, l = d1 ++ e :: d2 /\ f e = x /\ q e = true
                    /\ map f (filter q d1) = l1.
Proof.
  induction l as [|h t IH]; simpl; intros l1 x l2 H.
  - destruct l1; discriminate.
  - destruct (q h) eqn:Q.
    + destruct l1 as [|y l1]; simpl in H.
      * inversion H; subst. exists [], h, t. auto.
      * inversion H; subst.
        destruct (IH l1 x l2 H2) as (d1 & e & d2 & E & Fe & Qe & M).
        exists (h :: d1), e, d2. subst t. simpl. rewrite Q. simpl.
        repeat split; auto. now rewrite M.
    + destruct (IH l1 x l2 H) as (d1 & e & d2 & E & Fe & Qe & M).
      exists (h :: d1), e, d2. subst t. simpl. rewrite Q. auto.
Qed.

(** X17.  Ties are not broken arbitrarily: of the unassigned variables
    with the smallest domain and, among these, the most neighbours,
    [select_unassigned_variable] returns the one that comes first in
    [self.domains] (both sorts are stable).  Every unassigned variable
    before it in the store has a larger domain, or a domain of the same
    size and fewer neighbours. *)
Theorem select_unassigned_variable_first
        (c : Crossword) (doms : Domains) (a : Assignment) (var : Var.t)
        (Uniq : unique (Dict.keys doms) = true)
        (Run : select_unassigned_variable c doms a = Ok var) :
  exists before after,
    Dict.keys doms = before ++ var :: after
    /\ forall u, In u before -> Dict.mem Var.eq_dec u a = false ->
                 size_of doms var < size_of doms u
                 \/ (size_of doms u = size_of doms var
                     /\ degree c u < degree c var).
Proof.
  apply unique_NoDup in Uniq.
  pose proof (fun u n => unassigned_entry_size doms a u n Uniq) as K.
  unfold select_unassigned_variable in Run.
  destruct (List.length doms <=? List.length a); [discriminate|].
  set (una := fun p : Var.t * list string =>
                let '(v, _) := p in negb (Dict.mem Var.eq_dec v a)) in *.
  set (sz := fun p : Var.t * list string =>
               let '(v, d) := p in (v, List.length d)) in *.
  set (V := map sz (filter una doms)) in *.
  destruct V as [|[v1 n1] [|p V']] eqn:EV; [discriminate| |].
  - inversion Run; subst v1. clear Run.
    destruct (proj1 (K var n1) (or_introl eq_refl)) as (Iv & Mv & _).
    destruct (in_split _ _ Iv) as [before [after E]].
    exists before, after. split; [assumption|].
    intros u Iu Mu. exfalso.
    assert (Ik : In u (Dict.keys doms)) by (rewrite E, in_app_iff; now left).
    destruct (proj2 (K u (size_of doms u))) as [Eu|[]]; auto.
    inversion Eu; subst u.
    rewrite E in Uniq. apply NoDup_remove_2 in Uniq.
    apply Uniq, in_app_iff. now left.
  - rewrite <- EV in *. clear EV v1 n1 p V'.
    destruct (sorted_by snd V) as [|[v1 m] s1] eqn:S1; [discriminate|].
    rewrite <- S1 in Run.
    assert (Min : forall u n, In (u, n) V -> m <= n).
    { intros u n I.
      apply (sorted_by_head_min _ snd V (v1, m) s1 (u, n) S1 I). }
    rewrite (filter_sorted_by snd m V) in Run.
    destruct (sorted_by_desc (degree c)
                (map fst (filter (fun p0 => snd p0 =? m) V)))
      as [|v s2] eqn:S2; [discriminate|].
    inversion Run; subst v. clear Run.
    destruct (sorted_by_desc_first _ _ _ _ S2) as (l1 & l2 & E & B & _).
    unfold V in E. rewrite (filter_map_swap) in E.
    rewrite map_map, filter_twice in E.
    destruct (map_filter_split _ _ _ _ _ _ E)
      as (d1 & [v dv] & d2 & Ed & Fe & Qe & M).
    simpl in Fe. subst v.
    apply andb_true_iff in Qe. destruct Qe as [Qu Qm].
    simpl in Qm. apply Nat.eqb_eq in Qm.
    assert (Sv : size_of doms var = m).
    { unfold size_of, domain.
      rewrite (In_get_unique _ _ Var.eq_dec var dv doms Uniq); [assumption|].
      rewrite Ed. apply in_app_iff. right. now left. }
    exists (Dict.keys d1), (Dict.keys d2). split.
    { rewrite Ed. unfold Dict.keys. rewrite map_app. reflexivity. }
    intros u Iu Mu. unfold Dict.keys in Iu. apply in_map_iff in Iu.
    destruct Iu as [[u' du] [Eu Iu]]. simpl in Eu. subst u'.
    assert (Su : size_of doms u = List.length du).
    { unfold size_of, domain.
      rewrite (In_get_unique _ _ Var.eq_dec u du doms Uniq); [reflexivity|].
      rewrite Ed. apply in_app_iff. now left. }
    assert (Iv : In (u, List.length du) V).
    { apply K. repeat split; auto.
      rewrite Ed. unfold Dict.keys. rewrite map_app. apply in_app_iff. left.
      change u with (fst (u, du)). now apply in_map. }
    pose proof (Min _ _ Iv) as Le.
    destruct (Nat.eq_dec (List.length du) m) as [Em|Nm].
    + right. split; [congruence|]. apply B. rewrite <- M.
      apply in_map_iff. exists (u, du). split; [reflexivity|].
      apply filter_In. split; [assumption|].
      apply andb_true_iff. split.
      * simpl. now apply negb_true_iff.
      * simpl. now apply Nat.eqb_eq.
    + left. lia.
Qed.

(* ================================================================== *)
(** * The further properties at sample puzzles *)

Local Open Scope string_scope.

Lemma corner3_solved : solution corner3 corner3_node corner3_solution.
Proof.
  apply (solve_sound corner3 corner3_node corner3_arc corner3_solution
           [[]; [(vx, "CAT")]; corner3_solution]).
  - reflexivity.
  - vm_compute. reflexivity.
Qed.

Lemma consistent_never_raises_witness :
  consistent corner3 corner3_solution = Ok true
  \/ consistent corner3 corner3_solution = Ok false.
Proof.
  apply (consistent_never_raises corner3 corner3_solution); reflexivity.
Defined.

Lemma consistent_exact_witness :
  consistent corner3 corner3_solution = Ok true
  /\ NoDup (Dict.values corner3_solution)
  /\ (forall v w, In (v, w) corner3_solution ->
                  Var.length v = String.length w)
  /\ (forall x y ix iy wx wy,
         In (x, wx) corner3_solution ->
         Dict.get Var.eq_dec y corner3_solution = Some wy ->
         overlap corner3 x y = Some (Some (ix, iy)) -> agree ix iy wx wy).
Proof.
  assert (H : consistent corner3 corner3_solution = Ok true)
    by (vm_compute; reflexivity).
  split; [exact H|].
  apply (proj1 (consistent_exact corner3 corner3_solution eq_refl eq_refl) H).
Defined.

Lemma order_domain_values_by_second_letter_witness :
  order_domain_values corner3 [(vx, ["COG"; "CAT"]); (vy, ["CAT"; "COG"])]
                      vx [(vy, "COG")]
  = Ok (sorted_by second_letter ["COG"; "CAT"])
  /\ sorted_by second_letter ["COG"; "CAT"] = ["CAT"; "COG"]
  /\ Permutation (sorted_by second_letter ["COG"; "CAT"]) ["COG"; "CAT"]
  /\ StronglySorted (fun u v => second_letter u <= second_letter v)
                    (sorted_by second_letter ["COG"; "CAT"]).
Proof.
  destruct (order_domain_values_by_second_letter
              corner3 [(vx, ["COG"; "CAT"]); (vy, ["CAT"; "COG"])]
              vx ["COG"; "CAT"] eq_refl eq_refl eq_refl) with (a := [(vy, "COG")])
    as [H1 H2].
  - intros w [<-|[<-|[]]]; simpl; lia.
  - split; [exact H1|]. split; [reflexivity | exact H2].
Defined.

Lemma order_domain_values_ignores_assignment_witness :
  order_domain_values corner3 corner3_arc vx []
  = order_domain_values corner3 corner3_arc vx [(vy, "COG")].
Proof.
  apply (order_domain_values_ignores_assignment corner3 corner3_arc vx
           eq_refl eq_refl).
Defined.

Lemma propagation_keeps_solutions_witness :
  solution corner3 (enforce_node_consistency corner3_node) corner3_solution
  /\ solution corner3 (snd (revise corner3 vx vy corner3_node))
              corner3_solution
  /\ solution corner3 corner3_arc corner3_solution.
Proof.
  destruct (propagation_keeps_solutions corner3 corner3_node corner3_solution
              eq_refl corner3_solved) as [H1 [H2 H3]].
  split; [exact H1|]. split; [apply H2|].
  apply (H3 None (Ok true) corner3_arc). vm_compute. reflexivity.
Defined.

Lemma ac3_false_empty_domain_witness :
  (exists x, domain corner2_failed x = Some [])
  /\ forall s, ~ solution corner2 corner2_failed s.
Proof.
  apply (ac3_false_empty_domain corner2 None
           (enforce_node_consistency (init_domains corner2)) corner2_failed).
  vm_compute. reflexivity.
Defined.

Lemma revise_idempotent_witness :
  revise tee3 vt vd tee3_node = (Ok true, tee3_revised)
  /\ revise tee3 vt vd tee3_revised = (Ok false, tee3_revised).
Proof.
  assert (H : revise tee3 vt vd tee3_node = (Ok true, tee3_revised))
    by (vm_compute; reflexivity).
  split; [exact H|].
  apply (revise_idempotent tee3 tee3_node tee3_revised vt vd true eq_refl H).
Defined.

Lemma backtrack_none_no_solution_witness :
  backtrack parallel1 parallel1_node []
  = Some (Ok None, [], [[]; [(va, "CAT")]])
  /\ forall s, solution parallel1 parallel1_node s -> ~ extends [] s.
Proof.
  assert (H : backtrack parallel1 parallel1_node []
              = Some (Ok None, [], [[]; [(va, "CAT")]]))
    by (vm_compute; reflexivity).
  split; [exact H|].
  apply (backtrack_none_no_solution parallel1 parallel1_node [] []
           [[]; [(va, "CAT")]] eq_refl H).
Defined.

Lemma solve_none_no_solution_witness :
  solve parallel1 (init_domains parallel1)
  = Some (Ok None, parallel1_node, [[]; [(va, "CAT")]])
  /\ forall s, ~ solution parallel1 (init_domains parallel1) s.
Proof.
  assert (H : solve parallel1 (init_domains parallel1)
              = Some (Ok None, parallel1_node, [[]; [(va, "CAT")]]))
    by (vm_compute; reflexivity).
  split; [exact H|].
  apply (solve_none_no_solution parallel1 (init_domains parallel1)
           parallel1_node [[]; [(va, "CAT")]] eq_refl H).
Defined.

Lemma solve_returns_solution_witness :
  solution corner3 (init_domains corner3) corner3_solution
  /\ NoDup (Dict.keys corner3_solution).
Proof.
  apply (solve_returns_solution corner3 (init_domains corner3) corner3_arc
           corner3_solution [[]; [(vx, "CAT")]; corner3_solution]).
  - reflexivity.
  - vm_compute. reflexivity.
Defined.

Lemma solve_never_raises_witness :
  exists r doms2 log,
    solve corner3 (init_domains corner3) = Some (Ok r, doms2, log).
Proof.
  apply (solve_never_raises corner3 (init_domains corner3)); reflexivity.
Defined.

Lemma corner3_fits : fits 3 3 corner3_solution.
Proof.
  intros variable word k [E|[E|[]]] L; inversion E; subst;
    simpl in *; lia.
Qed.

Lemma letter_grid_fits_witness :
  (exists g, letter_grid 3 3 corner3_solution = Ok g)
  /\ letter_grid 2 3 corner3_solution = Raise IndexError
  /\ ~ fits 2 3 corner3_solution.
Proof.
  destruct (letter_grid_fits 3 3 corner3_solution) as [H1 _].
  destruct (letter_grid_fits 2 3 corner3_solution) as [_ [H2 H3]].
  assert (R : letter_grid 2 3 corner3_solution = Raise IndexError)
    by (vm_compute; reflexivity).
  split; [exact (H1 corner3_fits)|]. split.
  - exact R.
  - intros F. specialize (F vy "COG" 2 (or_intror (or_introl eq_refl))).
    simpl in F. lia.
Defined.

Lemma letter_grid_cells_witness :
  shaped 3 3 corner3_grid
  /\ (forall i j ch,
         cell corner3_grid i j = Some (Some ch) ->
         exists variable word,
           In (variable, word) corner3_solution
           /\ covers_cell variable word i j ch)
  /\ (forall variable word i j ch,
         In (variable, word) corner3_solution ->
         covers_cell variable word i j ch ->
         exists ch', cell corner3_grid i j = Some (Some ch'))
  /\ (forall i j,
         i < 3 -> j < 3 ->
         (forall variable word ch,
             In (variable, word) corner3_solution ->
             ~ covers_cell variable word i j ch) ->
         cell corner3_grid i j = Some None).
Proof.
  apply (letter_grid_cells 3 3 corner3_solution corner3_grid).
  vm_compute. reflexivity.
Defined.

Lemma select_unassigned_variable_safe_witness :
  In vy (Dict.keys corner3_arc)
  /\ Dict.get Var.eq_dec vy [(vx, "CAT")] = None.
Proof.
  apply (proj1 (select_unassigned_variable_safe corner3 corner3_arc
                  [(vx, "CAT")]) vy).
  vm_compute. reflexivity.
Defined.

Lemma backtrack_success_extends_witness :
  corner3_solution = corner3_solution
  /\ (exists ext, corner3_solution = ([(vx, "CAT")] ++ ext)%list)
  /\ extends [(vx, "CAT")] corner3_solution
  /\ assignment_complete corner3_arc corner3_solution = true.
Proof.
  apply (backtrack_success_extends corner3 corner3_arc [(vx, "CAT")]
           corner3_solution corner3_solution
           [[(vx, "CAT")]; corner3_solution]).
  vm_compute. reflexivity.
Defined.

Lemma init_domains_spec_witness :
  domain (init_domains corner3) vx = Some ["CAT"; "COG"; "DOG"]
  /\ domain (enforce_node_consistency (init_domains (lone ["AB"; "CAT"]))) va
     = Some ["CAT"].
Proof.
  destruct (init_domains_spec corner3) as (_ & _ & H & _).
  destruct (init_domains_spec (lone ["AB"; "CAT"])) as (_ & _ & H' & _).
  split.
  - apply (H vx). simpl. auto.
  - apply (H' va). simpl. auto.
Defined.

Lemma select_unassigned_variable_first_witness :
  exists before after,
    Dict.keys corner3_arc = (before ++ vx :: after)%list
    /\ forall u, In u before ->
                 Dict.mem Var.eq_dec u ([] : Assignment) = false ->
                 size_of corner3_arc vx < size_of corner3_arc u
                 \/ (size_of corner3_arc u = size_of corner3_arc vx
                     /\ degree corner3 u < degree corner3 vx).
Proof.
  apply (select_unassigned_variable_first corner3 corner3_arc [] vx).
  - reflexivity.
  - vm_compute. reflexivity.
Defined.
